(** * isubank: the reservation ledger of the bank service

    A shallow embedding of the bank application (package [main] of
    [src/bench/src/bench/init.go]): the three tables, the SQL statements the
    handlers issue, the scoped transaction [txScorp], the balance engine
    [modyfyCredit] and the six handlers, followed by the properties of the
    reservation protocol. *)

From Stdlib Require Import ZArith List String Ascii Bool Lia Permutation.
From Stdlib Require Import DecimalString.
Import ListNotations.
Open Scope string_scope.
Open Scope list_scope.
Open Scope Z_scope.

(** ** Machine integers and time *)

Module Int64.
Definition min_int : Z := - 2 ^ 63.
Definition max_int : Z := 2 ^ 63 - 1.

Definition in_range (z : Z) : bool := (min_int <=? z) && (z <=? max_int).

(** Two's complement wrap-around of Go's [int64] arithmetic. *)
Definition wrap (z : Z) : Z := (z + 2 ^ 63) mod 2 ^ 64 - 2 ^ 63.

Definition add (a b : Z) : Z := wrap (a + b).
End Int64.

(** [time.Time] is a wall-clock instant counted in nanoseconds;
    [time.Duration] is a number of nanoseconds. *)
Definition Time := Z.
Definition Second : Z := 1000000000.
Definition Minute : Z := 60 * Second.
Definition Add (t : Time) (d : Z) : Time := t + d.

(** [t.Format(MySQLDatetime)]: the layout "2006-01-02 15:04:05" keeps whole
    seconds only.  A DATETIME value is identified with its count of seconds. *)
Definition Format (t : Time) : Z := t / Second.

(** ** Errors *)

Inductive error : Type :=
| CreditIsInsufficient
| ReserveIsExpires
| ReserveIsAlreadyCommited
| ErrNoRows
| DriverError
| ScanError
| MySQLError (number : Z)
| Wrap (cause : error) (msg : string)
| PanicError (v : string).

(** Go compares the sentinels by identity ([err == CreditIsInsufficient]);
    a wrapped error is a different value. *)
Definition is_CreditIsInsufficient (e : error) : bool :=
  match e with CreditIsInsufficient => true | _ => false end.
Definition is_ReserveIsExpires (e : error) : bool :=
  match e with ReserveIsExpires => true | _ => false end.
Definition is_ReserveIsAlreadyCommited (e : error) : bool :=
  match e with ReserveIsAlreadyCommited => true | _ => false end.

Fixpoint Error_string (e : error) : string :=
  match e with
  | CreditIsInsufficient => "credit is insufficient"
  | ReserveIsExpires => "reserve is already expired"
  | ReserveIsAlreadyCommited => "reserve is already commited"
  | ErrNoRows => "sql: no rows in result set"
  | DriverError => "driver: bad connection"
  | ScanError => "sql: Scan error: value out of range"
  | MySQLError _ => "Error: mysql"
  | Wrap cause msg => (msg ++ ": " ++ Error_string cause)%string
  | PanicError v => ("panic in transaction: " ++ v)%string
  end.

Inductive result (A : Type) : Type :=
| Ok (a : A)
| Fail (e : error).
Arguments Ok {A} a.
Arguments Fail {A} e.

(** ** Tables *)

Record user_row := {
  u_id : Z;
  u_bank_id : string;
  u_credit : Z;
  u_created_at : Z
}.

Record credit_row := {
  c_id : Z;
  c_user_id : Z;
  c_amount : Z;
  c_note : string;
  c_created_at : Z
}.

Record reserve_row := {
  r_id : Z;
  r_user_id : Z;
  r_amount : Z;
  r_note : string;
  r_is_minus : bool;
  r_created_at : Z;
  r_expire_at : Z
}.

(** Rows are kept in insertion order, which is primary-key order.  The three
    counters are the AUTO_INCREMENT values of the tables. *)
Record DB := {
  tbl_user : list user_row;
  tbl_credit : list credit_row;
  tbl_reserve : list reserve_row;
  user_seq : Z;
  credit_seq : Z;
  reserve_seq : Z
}.

(** Modelled from the spec: the table definitions (the schema file) are not
    part of the sources.  [user.credit] starts at 0 ("denormalised sum of the
    user's ledger"), identities are generated on insert from 1 upwards
    ("monotonic integer, generated on insert") and [bank_id] is unique. *)
Definition user_credit_default : Z := 0.

Definition empty_db : DB :=
  {| tbl_user := []; tbl_credit := []; tbl_reserve := [];
     user_seq := 1; credit_seq := 1; reserve_seq := 1 |}.

Definition same_tables (a b : DB) : Prop :=
  tbl_user a = tbl_user b /\ tbl_credit a = tbl_credit b /\
  tbl_reserve a = tbl_reserve b.

(** ** The environment of one request *)

Record Env := {
  (** [time.Now()] of the application process. *)
  time_Now : Time;
  (** [NOW()] of the store, in seconds. *)
  NOW : Z;
  (** [db.Begin()] reports an error. *)
  begin_fails : bool;
  (** [tx.Commit()] reports an error. *)
  commit_fails : bool;
  (** the n-th statement of the transaction reports a driver error. *)
  stmt_fails : nat -> bool;
  (** the statement issued outside a transaction reports a driver error. *)
  direct_fails : bool;
  (** what other transactions commit between the count precheck and the
      locking read of Commit and Cancel. *)
  concurrent : DB -> DB
}.

Definition healthy (env : Env) : Prop :=
  begin_fails env = false /\ commit_fails env = false /\
  direct_fails env = false /\ forall n, stmt_fails env n = false.

Definition sequential (env : Env) : Prop := forall db, concurrent env db = db.

(** ** Transactions *)

Inductive event : Type :=
| EvBegin
| EvCommit
| EvRollback
| EvSelect
| EvLockUser (ids : list Z)
| EvLockReserve (ids : list Z)
| EvInsertCredit (user_id amount : Z)
| EvUpdateUser (user_id : Z)
| EvInsertReserve (id : Z)
| EvDeleteReserve (ids : list Z).

Record TxState := {
  committed : DB;
  working : DB;
  trace : list event;
  executed : nat
}.

Definition Tx (A : Type) : Type := Env -> TxState -> result A * TxState.

Definition ret {A} (a : A) : Tx A := fun _ st => (Ok a, st).
Definition fail {A} (e : error) : Tx A := fun _ st => (Fail e, st).
Definition bind {A B} (m : Tx A) (k : A -> Tx B) : Tx B :=
  fun env st =>
    match m env st with
    | (Ok a, st') => k a env st'
    | (Fail e, st') => (Fail e, st')
    end.

Notation "x <- m ;; k" := (bind m (fun x => k))
  (at level 61, m at next level, right associativity).
Notation "m ;;; k" := (bind m (fun _ => k))
  (at level 61, right associativity).

(** [errors.Wrap(err, msg)] on the error path of a call. *)
Definition wrap {A} (msg : string) (m : Tx A) : Tx A :=
  fun env st =>
    match m env st with
    | (Fail e, st') => (Fail (Wrap e msg), st')
    | r => r
    end.

(** One statement sent to the store inside the transaction.  A statement
    the store refuses has no effect and reports a driver error; otherwise
    [run] gives its result, the working store after it and what it did. *)
Definition stmt {A} (run : Env -> DB -> result A * DB * event) : Tx A :=
  fun env st =>
    if stmt_fails env (executed st) then
      (Fail DriverError,
       {| committed := committed st; working := working st;
          trace := trace st; executed := S (executed st) |})
    else
      let '(r, db', ev) := run env (working st) in
      (r, {| committed := committed st; working := db';
             trace := trace st ++ [ev]; executed := S (executed st) |}).

(** Other transactions commit: both the committed store and this
    transaction's view of it move. *)
Definition interleave : Tx unit :=
  fun env st =>
    (Ok tt, {| committed := concurrent env (committed st);
               working := concurrent env (working st);
               trace := trace st; executed := executed st |}).

Fixpoint for_each {A} (xs : list A) (body : A -> Tx unit) : Tx unit :=
  match xs with
  | [] => ret tt
  | x :: rest => body x ;;; for_each rest body
  end.

(** ** The SQL statements of the application *)

Definition mem_id (x : Z) (xs : list Z) : bool := existsb (Z.eqb x) xs.

Definition sum_Z (xs : list Z) : Z := fold_right Z.add 0 xs.

(** [IFNULL(SUM(amount), 0) FROM credit WHERE user_id = ?]: an exact decimal. *)
Definition sum_credit (db : DB) (userID : Z) : Z :=
  sum_Z (map c_amount
           (filter (fun c => c_user_id c =? userID) (tbl_credit db))).

(** [IFNULL(SUM(amount), 0) FROM reserve WHERE user_id = ? AND is_minus = 1
    AND expire_at >= ?]. *)
Definition sum_reserve (db : DB) (userID expire : Z) : Z :=
  sum_Z (map r_amount
           (filter (fun r => (r_user_id r =? userID) && r_is_minus r &&
                             (expire <=? r_expire_at r))
                   (tbl_reserve db))).

(** [WHERE id IN (ids)] on the reserve table, in primary-key order. *)
Definition reserve_in (ids : list Z) (db : DB) : list reserve_row :=
  filter (fun r => mem_id (r_id r) ids) (tbl_reserve db).

(** [WHERE id IN (ids) AND expire_at >= NOW()]. *)
Definition reserve_in_live (ids : list Z) (now : Z) (db : DB)
  : list reserve_row :=
  filter (fun r => mem_id (r_id r) ids && (now <=? r_expire_at r))
         (tbl_reserve db).

(** [rows.Scan] of a decimal sum into an [int64] variable fails when the
    value does not fit. *)
Definition scan_int64 (z : Z) : result Z :=
  if Int64.in_range z then Ok z else Fail ScanError.

(** [SELECT id FROM user WHERE id = ? LIMIT 1 FOR UPDATE], sent with Exec:
    the row is locked and the result is dropped. *)
Definition select_user_for_update (userID : Z) : Tx unit :=
  stmt (fun _ db =>
    (Ok tt, db,
     EvLockUser (map u_id (firstn 1
       (filter (fun u => u_id u =? userID) (tbl_user db)))))).

(** [SELECT credit FROM user WHERE id = ? LIMIT 1 FOR UPDATE] and Scan. *)
Definition select_credit_for_update (userID : Z) : Tx Z :=
  stmt (fun _ db =>
    let rows := firstn 1 (filter (fun u => u_id u =? userID) (tbl_user db)) in
    (match rows with
     | [] => Fail ErrNoRows
     | u :: _ => Ok (u_credit u)
     end, db, EvLockUser (map u_id rows))).

(** [SELECT IFNULL(SUM(amount), 0) FROM credit WHERE user_id = ?] and Scan. *)
Definition select_sum_credit (userID : Z) : Tx Z :=
  stmt (fun _ db => (scan_int64 (sum_credit db userID), db, EvSelect)).

(** [SELECT IFNULL(SUM(amount), 0) FROM reserve WHERE user_id = ? AND
    is_minus = 1 AND expire_at >= ?] and Scan. *)
Definition select_sum_reserve (userID expire : Z) : Tx Z :=
  stmt (fun _ db => (scan_int64 (sum_reserve db userID expire), db, EvSelect)).

Definition with_reserve (userID price : Z) (memo : string) (isMinus : bool)
    (created expire : Z) (db : DB) : DB :=
  {| tbl_user := tbl_user db; tbl_credit := tbl_credit db;
     tbl_reserve := tbl_reserve db ++
       [ {| r_id := reserve_seq db; r_user_id := userID; r_amount := price;
            r_note := memo; r_is_minus := isMinus;
            r_created_at := created; r_expire_at := expire |} ];
     user_seq := user_seq db; credit_seq := credit_seq db;
     reserve_seq := reserve_seq db + 1 |}.

(** [INSERT INTO reserve (user_id, amount, note, is_minus, created_at,
    expire_at) VALUES (?, ?, ?, ?, ?, ?)]; the result carries LastInsertId. *)
Definition insert_reserve (userID price : Z) (memo : string) (isMinus : bool)
    (created expire : Z) : Tx Z :=
  stmt (fun _ db =>
    (Ok (reserve_seq db),
     with_reserve userID price memo isMinus created expire db,
     EvInsertReserve (reserve_seq db))).

(** [SELECT COUNT(id) FROM reserve WHERE id IN (ids) AND expire_at >= NOW()]. *)
Definition select_count_reserve_live (ids : list Z) : Tx nat :=
  stmt (fun env db =>
    (Ok (List.length (reserve_in_live ids (NOW env) db)), db, EvSelect)).

(** [SELECT COUNT(id) FROM reserve WHERE id IN (ids)]. *)
Definition select_count_reserve (ids : list Z) : Tx nat :=
  stmt (fun _ db => (Ok (List.length (reserve_in ids db)), db, EvSelect)).

(** [SELECT ... FROM reserve WHERE id IN (ids) FOR UPDATE]: the rows, locked. *)
Definition select_reserve_for_update (ids : list Z) : Tx (list reserve_row) :=
  stmt (fun _ db =>
    let rows := reserve_in ids db in
    (Ok rows, db, EvLockReserve (map r_id rows))).

(** [SELECT id FROM user WHERE id IN (userids)  LIMIT 1 FOR UPDATE], sent with
    Exec: the scan stops at the first matching row, which is the only one
    locked. *)
Definition select_users_for_update (userids : list Z) : Tx unit :=
  stmt (fun _ db =>
    (Ok tt, db,
     EvLockUser (map u_id (firstn 1
       (filter (fun u => mem_id (u_id u) userids) (tbl_user db)))))).

Definition with_credit (userID price : Z) (memo : string) (now : Z) (db : DB)
  : DB :=
  {| tbl_user := tbl_user db;
     tbl_credit := tbl_credit db ++
       [ {| c_id := credit_seq db; c_user_id := userID; c_amount := price;
            c_note := memo; c_created_at := now |} ];
     tbl_reserve := tbl_reserve db;
     user_seq := user_seq db; credit_seq := credit_seq db + 1;
     reserve_seq := reserve_seq db |}.

(** [INSERT INTO credit (user_id, amount, note, created_at) VALUES (?, ?, ?,
    NOW())]. *)
Definition insert_credit (userID price : Z) (memo : string) : Tx unit :=
  stmt (fun env db =>
    (Ok tt, with_credit userID price memo (NOW env) db,
     EvInsertCredit userID price)).

Definition set_credit (credit userID : Z) (u : user_row) : user_row :=
  if u_id u =? userID then
    {| u_id := u_id u; u_bank_id := u_bank_id u; u_credit := credit;
       u_created_at := u_created_at u |}
  else u.

Definition with_user_credit (credit userID : Z) (db : DB) : DB :=
  {| tbl_user := map (set_credit credit userID) (tbl_user db);
     tbl_credit := tbl_credit db; tbl_reserve := tbl_reserve db;
     user_seq := user_seq db; credit_seq := credit_seq db;
     reserve_seq := reserve_seq db |}.

(** [UPDATE user SET credit = ? WHERE id = ?]. *)
Definition update_user_credit (credit userID : Z) : Tx unit :=
  stmt (fun _ db => (Ok tt, with_user_credit credit userID db,
                     EvUpdateUser userID)).

Definition without_reserve (ids : list Z) (db : DB) : DB :=
  {| tbl_user := tbl_user db; tbl_credit := tbl_credit db;
     tbl_reserve :=
       filter (fun r => negb (mem_id (r_id r) ids)) (tbl_reserve db);
     user_seq := user_seq db; credit_seq := credit_seq db;
     reserve_seq := reserve_seq db |}.

(** [DELETE FROM reserve WHERE id IN (ids)]. *)
Definition delete_reserve (ids : list Z) : Tx unit :=
  stmt (fun _ db => (Ok tt, without_reserve ids db, EvDeleteReserve ids)).

(** ** The scoped transaction *)

Inductive outcome (A : Type) : Type :=
| Returned (r : result A)
| Panicked (v : string).
Arguments Returned {A} r.
Arguments Panicked {A} v.

(** A closure handed to [txScorp]: it runs against the transaction and either
    returns (a value it has assigned to a captured variable, or an error) or
    panics. *)
Definition closure (A : Type) : Type := Env -> TxState -> outcome A * TxState.

Definition returning {A} (m : Tx A) : closure A :=
  fun env st => let (r, st') := m env st in (Returned r, st').

(** [tx.Rollback()]: the tables go back to the committed ones; the
    AUTO_INCREMENT counters are not transactional and keep their values. *)
Definition rollback (st : TxState) : DB :=
  {| tbl_user := tbl_user (committed st);
     tbl_credit := tbl_credit (committed st);
     tbl_reserve := tbl_reserve (committed st);
     user_seq := user_seq (working st);
     credit_seq := credit_seq (working st);
     reserve_seq := reserve_seq (working st) |}.

(** [db.Begin()]: the transaction starts from the committed store. *)
Definition begin (db : DB) : TxState :=
  {| committed := db; working := db; trace := [EvBegin]; executed := 0 |}.

(** [txScorp] (init.go, lines 514-531).  The deferred function rolls back
    after a panic or an error of [f] and commits otherwise; the error of
    [tx.Commit()] is returned as it is.  A commit that reports an error has
    not made the writes of the transaction durable.  The result is the
    value or error handed back, the store left behind and the calls made on
    the transaction. *)
Definition txScorp {A} (f : closure A) (env : Env) (db : DB)
  : result A * DB * list event :=
  if begin_fails env then
    (Fail (Wrap DriverError "begin transaction failed"), db, [])
  else
    let (o, st) := f env (begin db) in
    match o with
    | Panicked v =>
        (Fail (PanicError v), rollback st, trace st ++ [EvRollback])
    | Returned (Fail e) =>
        (Fail e, rollback st, trace st ++ [EvRollback])
    | Returned (Ok a) =>
        if commit_fails env then
          (Fail DriverError, rollback st, trace st ++ [EvCommit])
        else (Ok a, working st, trace st ++ [EvCommit])
    end.

(** ** The balance engine *)

(** [modyfyCredit] (lines 533-545): append the entry, read the sum of the
    user's entries back, store it in [user.credit]. *)
Definition modyfyCredit (userID price : Z) (memo : string) : Tx unit :=
  wrap "insert credit failed" (insert_credit userID price memo) ;;;
  credit <- wrap "calc credit failed" (select_sum_credit userID) ;;
  wrap "update user.credit failed" (update_user_credit credit userID).

(** ** Requests and responses *)

Record json := {
  bank_id : string;
  app_id : string;
  price : Z;
  reserve_ids : list Z
}.

(** [Body] is what the JSON text of the request denotes; [None] is a body
    that is not a JSON object of the expected shape.  Absent fields hold
    Go's zero values. *)
Record request := {
  Method : string;
  Body : option json
}.

Record response := {
  status : Z;
  body : string
}.

Definition dq : string := String (ascii_of_nat 34) EmptyString.
Definition nl : string := String (ascii_of_nat 10) EmptyString.
Definition quoted (s : string) : string := (dq ++ s ++ dq)%string.

Definition ResOK : string :=
  ("{" ++ quoted "status" ++ ":" ++ quoted "ok" ++ "}")%string.
Definition ResError (err : string) : string :=
  ("{" ++ quoted "status" ++ ":" ++ quoted "ng" ++ "," ++
   quoted "error" ++ ":" ++ quoted err ++ "}")%string.
Definition ResReserved (id : string) : string :=
  ("{" ++ quoted "status" ++ ":" ++ quoted "ok" ++ "," ++
   quoted "reserve_id" ++ ":" ++ id ++ "}")%string.

Definition Fprintln (s : string) : string := (s ++ nl)%string.

Definition Error (err : string) (code : Z) : response :=
  {| status := code; body := Fprintln (ResError err) |}.

Definition Success : response :=
  {| status := 200; body := Fprintln ResOK |}.

(** A handler that returns without writing anything. *)
Definition no_write : response := {| status := 200; body := EmptyString |}.

(** [%d] of an [int64]. *)
Definition Sprintf_d (z : Z) : string := NilZero.string_of_int (Z.to_int z).

(** [json.Decode] into a struct with an [int64] field fails on a number
    outside the [int64] range. *)
Definition Decode_price (r : request) : option json :=
  match Body r with
  | Some j => if Int64.in_range (price j) then Some j else None
  | None => None
  end.

Definition Decode_ids (r : request) : option json :=
  match Body r with
  | Some j => if forallb Int64.in_range (reserve_ids j) then Some j else None
  | None => None
  end.

(** What a handler leaves behind: the response, the store and the statements
    of its transaction. *)
Record served := {
  resp : response;
  store : DB;
  log : list event
}.

Definition reject (r : response) (db : DB) : served :=
  {| resp := r; store := db; log := [] |}.

(** ** Handlers *)

(** [INSERT INTO user (bank_id, created_at) VALUES (?, NOW())], outside any
    transaction. *)
Definition insert_user (env : Env) (bankID : string) (db : DB)
  : result unit * DB :=
  if direct_fails env then (Fail DriverError, db)
  else
    let id := user_seq db in
    if existsb (fun u => (u_bank_id u =? bankID)%string) (tbl_user db) then
      (Fail (MySQLError 1062),
       {| tbl_user := tbl_user db; tbl_credit := tbl_credit db;
          tbl_reserve := tbl_reserve db; user_seq := id + 1;
          credit_seq := credit_seq db; reserve_seq := reserve_seq db |})
    else
      (Ok tt,
       {| tbl_user := tbl_user db ++
            [ {| u_id := id; u_bank_id := bankID;
                 u_credit := user_credit_default;
                 u_created_at := NOW env |} ];
          tbl_credit := tbl_credit db; tbl_reserve := tbl_reserve db;
          user_seq := id + 1; credit_seq := credit_seq db;
          reserve_seq := reserve_seq db |}).

(** [Register] (lines 122-151). *)
Definition Register (env : Env) (r : request) (db : DB) : served :=
  if negb (Method r =? "POST")%string then
    reject (Error "method not allowed" 405) db
  else
    match Body r with
    | None => reject (Error "can't parse body" 400) db
    | Some req =>
        if (bank_id req =? EmptyString)%string then
          reject (Error "bank_id is required" 400) db
        else
          match insert_user env (bank_id req) db with
          | (Fail (MySQLError 1062), db') =>
              reject (Error "bank_id already exists" 400) db'
          | (Fail _, db') => reject (Error "internal server error" 500) db'
          | (Ok _, db') => reject Success db'
          end
    end.

(** [filterBankID] (lines 498-512): [SELECT id FROM user WHERE bank_id = ?
    LIMIT 1], outside any transaction.  The result is the id (0 when none was
    scanned) and the error response written, if any. *)
Definition filterBankID (env : Env) (db : DB) (bankID : string)
  : Z * option response :=
  if (bankID =? EmptyString)%string then
    (0, Some (Error "bank_id is required" 400))
  else if direct_fails env then
    (0, Some (Error "internal server error" 500))
  else
    match find (fun u => (u_bank_id u =? bankID)%string) (tbl_user db) with
    | None => (0, Some (Error "user not found" 404))
    | Some u => (u_id u, None)
    end.

Definition written (w : option response) : response :=
  match w with Some r => r | None => no_write end.

Definition finish (r : response) (out : DB * list event) : served :=
  {| resp := r; store := fst out; log := snd out |}.

(** The closure of [AddCredit] (lines 177-182). *)
Definition add_credit_tx (userID price : Z) : Tx unit :=
  wrap "select lock failed" (select_user_for_update userID) ;;;
  modyfyCredit userID price "by add credit API".

(** [AddCredit] (lines 155-189). *)
Definition AddCredit (env : Env) (r : request) (db : DB) : served :=
  if negb (Method r =? "POST")%string then
    reject (Error "method not allowed" 405) db
  else
    match Decode_price r with
    | None => reject (Error "can't parse body" 400) db
    | Some req =>
        if price req <=? 0 then
          reject (Error "price must be upper than 0" 400) db
        else
          let (userID, w) := filterBankID env db (bank_id req) in
          if userID <=? 0 then reject (written w) db
          else
            let '(err, db', tr) :=
              txScorp (returning (add_credit_tx userID (price req))) env db in
            match err with
            | Fail _ => finish (Error "internal server error" 500) (db', tr)
            | Ok _ => finish Success (db', tr)
            end
    end.

(** The closure of [Check] (lines 216-225). *)
Definition check_tx (userID price : Z) : Tx unit :=
  credit <- wrap "select credit failed" (select_credit_for_update userID) ;;
  if credit <? price then fail CreditIsInsufficient else ret tt.

(** [Check] (lines 193-236). *)
Definition Check (env : Env) (r : request) (db : DB) : served :=
  if negb (Method r =? "POST")%string then
    reject (Error "method not allowed" 405) db
  else
    match Decode_price r with
    | None => reject (Error "can't parse body" 400) db
    | Some req =>
        if price req <=? 0 then
          reject (Error "price must be upper than 0" 400) db
        else
          let (userID, w) := filterBankID env db (bank_id req) in
          if userID <=? 0 then reject (written w) db
          else
            let '(err, db', tr) :=
              txScorp (returning (check_tx userID (price req))) env db in
            match err with
            | Fail e =>
                if is_CreditIsInsufficient e then
                  finish (Error "credit is insufficient" 200) (db', tr)
                else finish (Error "internal server error" 500) (db', tr)
            | Ok _ => finish Success (db', tr)
            end
    end.

(** [time.Now()]. *)
Definition Now : Tx Time := fun env st => (Ok (time_Now env), st).

(** The closure of [Reserve] (lines 267-293); its value is the id assigned
    to [rsvID].  The sum [fixed+reserved+price] is one of [int64] values. *)
Definition reserve_tx (userID price : Z) (memo : string) : Tx Z :=
  wrap "select lock failed" (select_user_for_update userID) ;;;
  now <- Now ;;
  let expire := Add now Minute in
  let isMinus := price <? 0 in
  (if isMinus then
     fixed <- wrap "calc credit failed" (select_sum_credit userID) ;;
     reserved <- wrap "calc reserve failed"
                   (select_sum_reserve userID (Format expire)) ;;
     if Int64.add (Int64.add fixed reserved) price <? 0
     then fail CreditIsInsufficient else ret tt
   else ret tt) ;;;
  wrap "update user.credit failed"
    (insert_reserve userID price memo isMinus (Format now) (Format expire)).

(** [Reserve] (lines 240-305). *)
Definition Reserve (env : Env) (r : request) (db : DB) : served :=
  if negb (Method r =? "POST")%string then
    reject (Error "method not allowed" 405) db
  else
    match Decode_price r with
    | None => reject (Error "can't parse body" 400) db
    | Some req =>
        if price req =? 0 then reject (Error "price is 0" 400) db
        else
          let (userID, w) := filterBankID env db (bank_id req) in
          if userID <=? 0 then reject (written w) db
          else
            let memo := ("app:" ++ app_id req ++ ", price:" ++
                         Sprintf_d (price req))%string in
            let '(err, db', tr) :=
              txScorp (returning (reserve_tx userID (price req) memo)) env db in
            match err with
            | Fail e =>
                if is_CreditIsInsufficient e then
                  finish (Error "credit is insufficient" 200) (db', tr)
                else finish (Error "internal server error" 500) (db', tr)
            | Ok rsvID =>
                finish {| status := 200;
                          body := Fprintln (ResReserved (Sprintf_d rsvID)) |}
                       (db', tr)
            end
    end.

(** The structs the locking reads of Commit and Cancel scan into. *)
Record Reserve_commit := {
  ID : Z;
  UserID : Z;
  Amount : Z;
  Note : string
}.

Record Reserve_cancel := {
  cancel_ID : Z;
  cancel_UserID : Z
}.

Definition scan_commit (r : reserve_row) : Reserve_commit :=
  {| ID := r_id r; UserID := r_user_id r; Amount := r_amount r;
     Note := r_note r |}.

Definition scan_cancel (r : reserve_row) : Reserve_cancel :=
  {| cancel_ID := r_id r; cancel_UserID := r_user_id r |}.

(** The closure of [Commit] (lines 326-394).  The placeholders of every
    [IN (...)] list are as many as the ids, and [userids] holds the user of
    every row read.  The message wrapped around an error of [modyfyCredit]
    also renders the reservation; only its fixed part is kept. *)
Definition commit_tx (ReserveIDs : list Z) : Tx unit :=
  let l := List.length ReserveIDs in
  count <- wrap "count reserve failed"
             (select_count_reserve_live ReserveIDs) ;;
  if (count <? l)%nat then fail ReserveIsExpires
  else
    interleave ;;;
    rows <- wrap "select reserves failed"
              (select_reserve_for_update ReserveIDs) ;;
    let reserves := map scan_commit rows in
    if negb (List.length reserves =? l)%nat then fail ReserveIsAlreadyCommited
    else
      let userids := map UserID reserves in
      wrap "select lock failed" (select_users_for_update userids) ;;;
      for_each reserves (fun rsv =>
        wrap "modyfyCredit failed"
          (modyfyCredit (UserID rsv) (Amount rsv) (Note rsv))) ;;;
      wrap "delete reserve failed" (delete_reserve ReserveIDs).

(** What Commit and Cancel do with the error of their transaction (lines
    395-404 and 486-495). *)
Definition terminal_reply (err : result unit) (out : DB * list event)
  : served :=
  match err with
  | Fail e =>
      if is_ReserveIsExpires e || is_ReserveIsAlreadyCommited e then
        finish (Error (Error_string e) 400) out
      else finish (Error "internal server error" 500) out
  | Ok _ => finish Success out
  end.

(** [Commit] (lines 307-405). *)
Definition Commit (env : Env) (r : request) (db : DB) : served :=
  if negb (Method r =? "POST")%string then
    reject (Error "method not allowed" 405) db
  else
    match Decode_ids r with
    | None => reject (Error "can't parse body" 400) db
    | Some req =>
        if (List.length (reserve_ids req) =? 0)%nat then
          reject (Error "reserve_ids is required" 400) db
        else
          let '(err, db', tr) :=
            txScorp (returning (commit_tx (reserve_ids req))) env db in
          terminal_reply err (db', tr)
    end.

(** The closure of [Cancel] (lines 426-485). *)
Definition cancel_tx (ReserveIDs : list Z) : Tx unit :=
  let l := List.length ReserveIDs in
  count <- wrap "count reserve failed" (select_count_reserve ReserveIDs) ;;
  if (count <? l)%nat then fail ReserveIsAlreadyCommited
  else
    interleave ;;;
    rows <- wrap "select reserves failed"
              (select_reserve_for_update ReserveIDs) ;;
    let reserves := map scan_cancel rows in
    if negb (List.length reserves =? l)%nat then fail ReserveIsAlreadyCommited
    else
      let userids := map cancel_UserID reserves in
      wrap "select lock failed" (select_users_for_update userids) ;;;
      wrap "delete reserve failed" (delete_reserve ReserveIDs).

(** [Cancel] (lines 407-496). *)
Definition Cancel (env : Env) (r : request) (db : DB) : served :=
  if negb (Method r =? "POST")%string then
    reject (Error "method not allowed" 405) db
  else
    match Decode_ids r with
    | None => reject (Error "can't parse body" 400) db
    | Some req =>
        if (List.length (reserve_ids req) =? 0)%nat then
          reject (Error "reserve_ids is required" 400) db
        else
          let '(err, db', tr) :=
            txScorp (returning (cancel_tx (reserve_ids req))) env db in
          terminal_reply err (db', tr)
    end.

(** The six routes of [NewServer]. *)
Inductive route : Type :=
| register | add_credit | check | reserve | commit | cancel.

Definition serve (rt : route) : Env -> request -> DB -> served :=
  match rt with
  | register => Register
  | add_credit => AddCredit
  | check => Check
  | reserve => Reserve
  | commit => Commit
  | cancel => Cancel
  end.


(** ** Vocabulary of the properties *)

Definition after_stmt (st : TxState) (db' : DB) (ev : event) : TxState :=
  {| committed := committed st; working := db';
     trace := trace st ++ [ev]; executed := S (executed st) |}.

(** A script that never moves the committed store: everything but
    [interleave]. *)
Definition keeps_committed {A} (m : Tx A) : Prop :=
  forall env st r st', m env st = (r, st') -> committed st' = committed st.

(** A script whose committed store moves at most by what other transactions
    commit in the window of [interleave]. *)
Definition moves_committed {A} (m : Tx A) : Prop :=
  forall env st r st', m env st = (r, st') ->
    committed st' = committed st \/
    committed st' = concurrent env (committed st).


Definition is_terminal (e : event) : bool :=
  match e with EvCommit | EvRollback => true | _ => false end.

(** The errors callers compare against. *)
Definition is_sentinel (e : error) : bool :=
  is_CreditIsInsufficient e || is_ReserveIsExpires e ||
  is_ReserveIsAlreadyCommited e.

Definition is_sentinel_result {A} (r : result A) : bool :=
  match r with Fail e => is_sentinel e | Ok _ => false end.

(** A bank id that resolves to a user row, as [filterBankID] finds it. *)
Definition existing_user (db : DB) (bank : string) (u : user_row) : Prop :=
  bank <> EmptyString /\
  find (fun v => (u_bank_id v =? bank)%string) (tbl_user db) = Some u /\
  0 < u_id u.

(** Primary keys: ids are unique per table. *)
Definition user_keys (db : DB) : Prop := NoDup (map u_id (tbl_user db)).
Definition reserve_keys (db : DB) : Prop := NoDup (map r_id (tbl_reserve db)).

(** The user rows a transaction has locked, in the order of locking. *)
Definition locked_users (tr : list event) : list Z :=
  flat_map (fun e => match e with EvLockUser ids => ids | _ => [] end) tr.

(** The users whose ledger a transaction has appended to. *)
Definition credited_users (tr : list event) : list Z :=
  flat_map (fun e => match e with EvInsertCredit u _ => [u] | _ => [] end) tr.

Definition is_write (e : event) : bool :=
  match e with
  | EvInsertCredit _ _ | EvUpdateUser _ | EvInsertReserve _
  | EvDeleteReserve _ => true
  | _ => false
  end.

(** The last three steps of Commit, run once both checks have passed: lock
    the users, apply every reservation to the ledger, delete the rows. *)
Definition commit_apply (ReserveIDs : list Z) (rows : list reserve_row)
  : Tx unit :=
  wrap "select lock failed"
    (select_users_for_update (map UserID (map scan_commit rows))) ;;;
  for_each (map scan_commit rows) (fun rsv =>
    wrap "modyfyCredit failed"
      (modyfyCredit (UserID rsv) (Amount rsv) (Note rsv))) ;;;
  wrap "delete reserve failed" (delete_reserve ReserveIDs).

(** The last two steps of Cancel. *)
Definition cancel_apply (ReserveIDs : list Z) (rows : list reserve_row)
  : Tx unit :=
  wrap "select lock failed"
    (select_users_for_update (map cancel_UserID (map scan_cancel rows))) ;;;
  wrap "delete reserve failed" (delete_reserve ReserveIDs).

(** The state of a transaction after the count precheck, and after the
    locking read that follows the window left to other transactions. *)
Definition counted (st : TxState) : TxState :=
  after_stmt st (working st) EvSelect.

Definition materialised (ids : list Z) (env : Env) (st : TxState) : TxState :=
  {| committed := concurrent env (committed st);
     working := concurrent env (working st);
     trace := (trace st ++ [EvSelect]) ++
              [EvLockReserve (map r_id (reserve_in ids (concurrent env (working st))))];
     executed := S (S (executed st)) |}.

(** A statement that the store refused: nothing is recorded but its turn. *)
Definition refused (st : TxState) : TxState :=
  {| committed := committed st; working := working st;
     trace := trace st; executed := S (executed st) |}.

(** What a successful [modyfyCredit] makes of the store: the entry is
    appended and the user's cached credit becomes the new ledger sum. *)
Definition applied (userID price : Z) (memo : string) (now : Z) (db : DB)
  : DB :=
  let db2 := with_credit userID price memo now db in
  with_user_credit (sum_credit db2 userID) userID db2.

(** The reservations of a locking read applied one after the other. *)
Definition applied_all (rows : list reserve_row) (now : Z) (db : DB) : DB :=
  fold_left (fun acc r => applied (r_user_id r) (r_amount r) (r_note r) now acc)
            rows db.

(** A ledger entry that records a reservation. *)
Definition records (r : reserve_row) (c : credit_row) : Prop :=
  c_user_id c = r_user_id r /\ c_amount c = r_amount r /\
  c_note c = r_note r.

(** The counters of [b] follow those of [a]: no user was inserted and the
    AUTO_INCREMENT value of [reserve] did not go back. *)
Definition seqs_follow (a b : DB) : Prop :=
  user_seq b = user_seq a /\ reserve_seq a <= reserve_seq b.

(** A script that inserts no user and only moves the counter of [reserve]
    forward. *)
Definition seq_steady {A} (m : Tx A) : Prop :=
  forall env st r st', m env st = (r, st') ->
    seqs_follow (working st) (working st').

(** I1: every cached credit is the sum of the user's ledger entries. *)
Definition cache_consistent (db : DB) : Prop :=
  forall u, In u (tbl_user db) -> u_credit u = sum_credit db (u_id u).

(** The cache invariant together with what keeps it inductive: ids are
    unique and below the AUTO_INCREMENT value of their table, and ledger
    entries and reservations refer to user ids below that of [user]. *)
Record consistent (db : DB) : Prop := {
  seq_positive : 0 < user_seq db;
  users_unique : user_keys db;
  reserves_unique : reserve_keys db;
  reserves_numbered :
    forall r, In r (tbl_reserve db) -> r_id r < reserve_seq db;
  users_below : forall u, In u (tbl_user db) -> 0 < u_id u < user_seq db;
  credit_below :
    forall c, In c (tbl_credit db) -> 0 < c_user_id c < user_seq db;
  reserve_below :
    forall r, In r (tbl_reserve db) -> 0 < r_user_id r < user_seq db;
  cached : cache_consistent db
}.

(** Other transactions keep the invariant too. *)
Definition respects (env : Env) : Prop :=
  forall db, consistent db -> consistent (concurrent env db).

(** The stores the service can be in: the empty one, and what any request on
    any route leaves behind. *)
Inductive reachable : DB -> Prop :=
| reach_empty : reachable empty_db
| reach_serve (rt : route) (env : Env) (r : request) (db : DB) :
    respects env -> reachable db -> reachable (store (serve rt env r db)).

(** ** Sample data *)

Definition calm (t : Z) : Env :=
  {| time_Now := t * Second; NOW := t; begin_fails := false;
     commit_fails := false; stmt_fails := fun _ => false;
     direct_fails := false; concurrent := fun db => db |}.

Definition POST (j : json) : request :=
  {| Method := "POST"; Body := Some j |}.

Definition with_bank (bank : string) (amount : Z) : json :=
  {| bank_id := bank; app_id := "x"; price := amount; reserve_ids := [] |}.

Definition with_ids (ids : list Z) : json :=
  {| bank_id := EmptyString; app_id := "x"; price := 0; reserve_ids := ids |}.

(** One request after the other, each at its own second. *)
Fixpoint replay (script : list (route * json)) (t : Z) (db : DB) : DB :=
  match script with
  | [] => db
  | (rt, j) :: rest => replay rest (t + 1) (store (serve rt (calm t) (POST j) db))
  end.

(** A user holding the largest representable balance and a pending deposit
    of 1: committing the deposit makes the ledger sum leave [int64]. *)
Definition brim_db : DB :=
  replay [ (register, with_bank "a" 0);
           (add_credit, with_bank "a" Int64.max_int);
           (reserve, with_bank "a" 1) ] 100 empty_db.

(** Two users with 500 each, a withdrawal of 300 reserved for the first and a
    deposit of 300 reserved for the second. *)
Definition pair_db : DB :=
  replay [ (register, with_bank "c" 0);
           (register, with_bank "d" 0);
           (add_credit, with_bank "c" 500);
           (add_credit, with_bank "d" 500);
           (reserve, with_bank "c" (-300));
           (reserve, with_bank "d" 300) ] 100 empty_db.

(** A registered user "a" with 1000 on the ledger. *)
Definition funded_db : DB :=
  replay [ (register, with_bank "a" 0);
           (add_credit, with_bank "a" 1000) ] 100 empty_db.

Definition funded_user : user_row :=
  {| u_id := 1; u_bank_id := "a"; u_credit := 1000; u_created_at := 100 |}.

(** A request during which another transaction cancels reservation 2 in the
    window between the count precheck and the locking read. *)
Definition racing (t : Z) : Env :=
  {| time_Now := t * Second; NOW := t; begin_fails := false;
     commit_fails := false; stmt_fails := fun _ => false;
     direct_fails := false;
     concurrent := fun db => store (Cancel (calm t) (POST (with_ids [2])) db) |}.

(** User "a" after depositing the largest representable amount, reserving
    its withdrawal twice, one second apart, and committing both
    reservations: the ledger sum is the most negative balance but one. *)
Definition overdrawn_db : DB :=
  replay [ (register, with_bank "a" 0);
           (add_credit, with_bank "a" Int64.max_int);
           (reserve, with_bank "a" (- Int64.max_int));
           (reserve, with_bank "a" (- Int64.max_int));
           (commit, with_ids [1; 2]) ] 100 empty_db.

Definition overdrawn_user : user_row :=
  {| u_id := 1; u_bank_id := "a"; u_credit := - Int64.max_int;
     u_created_at := 100 |}.


(** ** Histories of requests *)

(** One request: the route it is sent to, the environment it meets and the
    request itself. *)
Definition step : Type := route * Env * request.

(** The store after a sequence of requests served one after the other. *)
Fixpoint history (steps : list step) (db : DB) : DB :=
  match steps with
  | [] => db
  | (rt, env, r) :: rest => history rest (store (serve rt env r db))
  end.

(** No other transaction commits during any request of the sequence. *)
Definition serial (steps : list step) : Prop :=
  Forall (fun s => sequential (snd (fst s))) steps.

(** The row [Register] inserts. *)
Definition registered_row (env : Env) (bank : string) (db : DB) : user_row :=
  {| u_id := user_seq db; u_bank_id := bank; u_credit := user_credit_default;
     u_created_at := NOW env |}.

(** No user row carries the bank id. *)
Definition unknown_bank (db : DB) (bank : string) : Prop :=
  forall u, In u (tbl_user db) -> u_bank_id u <> bank.

(** The price passes the validation of the route: positive for add_credit
    and check, not zero for reserve. *)
Definition valid_price (rt : route) (p : Z) : bool :=
  match rt with
  | add_credit | check => 0 <? p
  | reserve => negb (p =? 0)
  | _ => false
  end.

(** Every ledger sum read back while the rows are applied fits [int64]. *)
Fixpoint sums_fit (rows : list reserve_row) (now : Z) (db : DB) : Prop :=
  match rows with
  | [] => True
  | r :: rest =>
      Int64.in_range
        (sum_credit (with_credit (r_user_id r) (r_amount r) (r_note r) now db)
                    (r_user_id r)) = true /\
      sums_fit rest now (applied (r_user_id r) (r_amount r) (r_note r) now db)
  end.

(** The note [Reserve] writes on a reservation. *)
Definition memo_of (app : string) (p : Z) : string :=
  ("app:" ++ app ++ ", price:" ++ Sprintf_d p)%string.

(** The solvency test of [Reserve] let the amount through. *)
Definition admitted (env : Env) (db : DB) (userID p : Z) : Prop :=
  p < 0 ->
  Int64.in_range (sum_credit db userID) = true /\
  Int64.in_range
    (sum_reserve db userID (Format (Add (time_Now env) Minute))) = true /\
  0 <= Int64.add
         (Int64.add (sum_credit db userID)
            (sum_reserve db userID (Format (Add (time_Now env) Minute))))
         p.

(** What one request can make of the store when no other transaction
    commits meanwhile: nothing, or the single effect of its route. *)
Inductive effect (rt : route) (env : Env) (db db' : DB) : Prop :=
| unchanged :
    same_tables db' db -> effect rt env db db'
| user_added (bank : string) :
    rt = register -> bank <> EmptyString -> unknown_bank db bank ->
    tbl_user db' = tbl_user db ++ [registered_row env bank db] ->
    tbl_credit db' = tbl_credit db -> tbl_reserve db' = tbl_reserve db ->
    effect rt env db db'
| credit_added (u : user_row) (p : Z) :
    rt = add_credit -> In u (tbl_user db) -> 0 < p ->
    Int64.in_range p = true ->
    Int64.in_range (sum_credit db (u_id u) + p) = true ->
    db' = applied (u_id u) p "by add credit API" (NOW env) db ->
    effect rt env db db'
| reservation_added (u : user_row) (p : Z) (app : string) :
    rt = reserve -> In u (tbl_user db) -> p <> 0 ->
    Int64.in_range p = true -> admitted env db (u_id u) p ->
    db' = with_reserve (u_id u) p (memo_of app p) (p <? 0)
            (Format (time_Now env)) (Format (Add (time_Now env) Minute)) db ->
    effect rt env db db'
| reservations_committed (ids : list Z) :
    rt = commit -> ids <> [] ->
    (List.length ids <= List.length (reserve_in_live ids (NOW env) db))%nat ->
    List.length (reserve_in ids db) = List.length ids ->
    sums_fit (reserve_in ids db) (NOW env) db ->
    db' = without_reserve ids (applied_all (reserve_in ids db) (NOW env) db) ->
    effect rt env db db'
| reservations_cancelled (ids : list Z) :
    rt = cancel -> ids <> [] ->
    List.length (reserve_in ids db) = List.length ids ->
    db' = without_reserve ids db ->
    effect rt env db db'.

(** Bank ids are unique among users and none is empty. *)
Definition banks_unique (db : DB) : Prop :=
  NoDup (map u_bank_id (tbl_user db)) /\
  forall u, In u (tbl_user db) -> u_bank_id u <> EmptyString.

(** A reservation row as [Reserve] writes it: it expires 60 seconds after
    its creation, [is_minus] is the sign of the amount, and the amount is a
    non-zero [int64]. *)
Definition reserve_shaped (r : reserve_row) : Prop :=
  r_expire_at r = r_created_at r + 60 /\
  r_is_minus r = (r_amount r <? 0) /\
  r_amount r <> 0 /\ Int64.in_range (r_amount r) = true.

(** Every user's ledger sum fits [int64]. *)
Definition ledger_fits (db : DB) : Prop :=
  forall userID, Int64.in_range (sum_credit db userID) = true.

(** What identifies a user row: everything but the cached credit. *)
Definition identity (u : user_row) : Z * string * Z :=
  (u_id u, u_bank_id u, u_created_at u).

(** A sample history: two registrations, a deposit, two reservations, a
    commit and a cancel. *)
Definition sample_steps : list step :=
  [ (register, calm 100, POST (with_bank "a" 0));
    (register, calm 101, POST (with_bank "b" 0));
    (add_credit, calm 102, POST (with_bank "a" 1000));
    (reserve, calm 103, POST (with_bank "a" (-400)));
    (reserve, calm 104, POST (with_bank "b" 400));
    (commit, calm 105, POST (with_ids [1]));
    (cancel, calm 106, POST (with_ids [2])) ].

(** The success response of [Reserve]. *)
Definition reserved_reply (id : Z) : response :=
  {| status := 200; body := Fprintln (ResReserved (Sprintf_d id)) |}.

(** [funded_db] with a withdrawal of 700 reserved at second 150. *)
Definition encumbered_db : DB :=
  replay [ (reserve, with_bank "a" (-700)) ] 150 funded_db.

(** Every id of the list names a row that has not expired at [now]. *)
Definition all_live (ids : list Z) (now : Z) (db : DB) : Prop :=
  forall id, In id ids ->
    exists r, In r (tbl_reserve db) /\ r_id r = id /\ now <= r_expire_at r.

(** Every id of the list names a row. *)
Definition all_present (ids : list Z) (db : DB) : Prop :=
  forall id, In id ids -> exists r, In r (tbl_reserve db) /\ r_id r = id.

(** The response carries a reserve id: [Reserve] has admitted the request. *)
Definition admitted_reply (r : response) : Prop :=
  exists s, r = {| status := 200; body := Fprintln (ResReserved s) |}.

(** The row a Reserve of [j] inserts for user [userID]. *)
Definition reserved_row (env : Env) (j : json) (userID : Z) (db : DB)
  : reserve_row :=
  {| r_id := reserve_seq db; r_user_id := userID; r_amount := price j;
     r_note := memo_of (app_id j) (price j); r_is_minus := price j <? 0;
     r_created_at := Format (time_Now env);
     r_expire_at := Format (Add (time_Now env) Minute) |}.
(** * Properties *)

(** ** Reasoning about transaction scripts *)

Section TxLaws.
Context {A B : Type}.
Variables (m : Tx A) (k : A -> Tx B) (env : Env) (st st' : TxState).

Lemma bind_Ok (b : B) :
  bind m k env st = (Ok b, st') ->
  exists a st1, m env st = (Ok a, st1) /\ k a env st1 = (Ok b, st').
Proof.
  unfold bind. destruct (m env st) as [[a|e] st1]; intros H.
  - exists a, st1. split; [reflexivity | exact H].
  - discriminate H.
Qed.

Lemma bind_Fail (e : error) :
  bind m k env st = (Fail e, st') ->
  m env st = (Fail e, st') \/
  exists a st1, m env st = (Ok a, st1) /\ k a env st1 = (Fail e, st').
Proof.
  unfold bind. destruct (m env st) as [[a|e0] st1]; intros H.
  - right. exists a, st1. split; [reflexivity | exact H].
  - left. inversion H; subst. reflexivity.
Qed.

Lemma bind_step (a : A) (st1 : TxState) :
  m env st = (Ok a, st1) -> bind m k env st = k a env st1.
Proof. unfold bind. intros ->. reflexivity. Qed.

Lemma bind_stop (e : error) (st1 : TxState) :
  m env st = (Fail e, st1) -> bind m k env st = (Fail e, st1).
Proof. unfold bind. intros ->. reflexivity. Qed.

Lemma wrap_Ok (msg : string) (a : A) :
  wrap msg m env st = (Ok a, st') -> m env st = (Ok a, st').
Proof.
  unfold wrap. destruct (m env st) as [[a0|e] st1]; intros H;
    [exact H | discriminate H].
Qed.

Lemma wrap_Fail (msg : string) (e : error) :
  wrap msg m env st = (Fail e, st') ->
  exists cause, e = Wrap cause msg /\ m env st = (Fail cause, st').
Proof.
  unfold wrap. destruct (m env st) as [[a0|e0] st1]; intros H.
  - discriminate H.
  - inversion H; subst. exists e0. split; reflexivity.
Qed.

Lemma wrap_step (msg : string) (a : A) :
  m env st = (Ok a, st') -> wrap msg m env st = (Ok a, st').
Proof. unfold wrap. intros ->. reflexivity. Qed.
End TxLaws.

Lemma stmt_run {A} (run : Env -> DB -> result A * DB * event) env st :
  stmt_fails env (executed st) = false ->
  stmt run env st =
  (fst (fst (run env (working st))),
   after_stmt st (snd (fst (run env (working st)))) (snd (run env (working st)))).
Proof.
  intros H. unfold stmt. rewrite H.
  destruct (run env (working st)) as [[r db'] ev]. reflexivity.
Qed.

Lemma stmt_Ok {A} (run : Env -> DB -> result A * DB * event) env st a st' :
  stmt run env st = (Ok a, st') ->
  stmt_fails env (executed st) = false /\
  fst (fst (run env (working st))) = Ok a /\
  st' = after_stmt st (snd (fst (run env (working st))))
                   (snd (run env (working st))).
Proof.
  unfold stmt. destruct (stmt_fails env (executed st)).
  - discriminate.
  - destruct (run env (working st)) as [[r db'] ev]. simpl.
    intros H. inversion H; subst. repeat split.
Qed.

Lemma keeps_ret {A} (a : A) : keeps_committed (ret a).
Proof. intros env st r st' H. inversion H. reflexivity. Qed.

Lemma keeps_fail {A} (e : error) : keeps_committed (@fail A e).
Proof. intros env st r st' H. inversion H. reflexivity. Qed.

Lemma keeps_Now : keeps_committed Now.
Proof. intros env st r st' H. inversion H. reflexivity. Qed.

Lemma keeps_stmt {A} (run : Env -> DB -> result A * DB * event) :
  keeps_committed (stmt run).
Proof.
  intros env st r st'. unfold stmt.
  destruct (stmt_fails env (executed st)).
  - intros H. inversion H. reflexivity.
  - destruct (run env (working st)) as [[r0 db'] ev].
    intros H. inversion H. reflexivity.
Qed.

Lemma keeps_wrap {A} msg (m : Tx A) :
  keeps_committed m -> keeps_committed (wrap msg m).
Proof.
  intros Hm env st r st'. unfold wrap.
  destruct (m env st) as [[a|e] st1] eqn:E; intros H; inversion H; subst;
    eapply Hm; eassumption.
Qed.

Lemma keeps_bind {A B} (m : Tx A) (k : A -> Tx B) :
  keeps_committed m -> (forall a, keeps_committed (k a)) ->
  keeps_committed (bind m k).
Proof.
  intros Hm Hk env st r st'. unfold bind.
  destruct (m env st) as [[a|e] st1] eqn:E; intros H.
  - rewrite (Hk a _ _ _ _ H). eapply Hm; eassumption.
  - inversion H; subst. eapply Hm; eassumption.
Qed.

Lemma keeps_for_each {A} (xs : list A) (body : A -> Tx unit) :
  (forall x, keeps_committed (body x)) -> keeps_committed (for_each xs body).
Proof.
  intros Hb. induction xs as [|x rest IH]; simpl.
  - apply keeps_ret.
  - apply keeps_bind; [apply Hb | intros _; exact IH].
Qed.

Create HintDb keeps.
#[local] Hint Resolve keeps_ret keeps_fail keeps_Now keeps_stmt keeps_wrap
  keeps_bind keeps_for_each : keeps.

Lemma keeps_modyfyCredit userID price memo :
  keeps_committed (modyfyCredit userID price memo).
Proof. unfold modyfyCredit, insert_credit, select_sum_credit,
         update_user_credit. auto 10 with keeps. Qed.
#[local] Hint Resolve keeps_modyfyCredit : keeps.

Ltac keeps_tac :=
  repeat first
    [ apply keeps_bind; [| intros ? ]
    | apply keeps_wrap
    | apply keeps_stmt
    | apply keeps_ret
    | apply keeps_fail
    | apply keeps_Now
    | apply keeps_modyfyCredit
    | apply keeps_for_each; intros ?
    | match goal with |- keeps_committed (if ?c then _ else _) =>
        destruct c end ].

Lemma keeps_add_credit_tx userID price :
  keeps_committed (add_credit_tx userID price).
Proof. unfold add_credit_tx, select_user_for_update. keeps_tac. Qed.

Lemma keeps_check_tx userID price : keeps_committed (check_tx userID price).
Proof. unfold check_tx, select_credit_for_update. keeps_tac. Qed.

Lemma keeps_reserve_tx userID price memo :
  keeps_committed (reserve_tx userID price memo).
Proof.
  unfold reserve_tx, select_user_for_update, select_sum_credit,
    select_sum_reserve, insert_reserve. keeps_tac.
Qed.

Lemma moves_of_keeps {A} (m : Tx A) : keeps_committed m -> moves_committed m.
Proof. intros H env st r st' E. left. eapply H; eassumption. Qed.

Lemma moves_bind_keeps {A B} (m : Tx A) (k : A -> Tx B) :
  keeps_committed m -> (forall a, moves_committed (k a)) ->
  moves_committed (bind m k).
Proof.
  intros Hm Hk env st r st'. unfold bind.
  destruct (m env st) as [[a|e] st1] eqn:E; intros H.
  - rewrite <- (Hm _ _ _ _ E). eapply Hk; eassumption.
  - inversion H; subst. left. eapply Hm; eassumption.
Qed.

Lemma moves_interleave {B} (k : Tx B) :
  keeps_committed k -> moves_committed (interleave ;;; k).
Proof.
  intros Hk env st r st'. unfold bind, interleave. intros H.
  right. apply Hk in H. exact H.
Qed.

Lemma moves_commit_tx ids : moves_committed (commit_tx ids).
Proof.
  unfold commit_tx. apply moves_bind_keeps.
  - unfold select_count_reserve_live. keeps_tac.
  - intros count. destruct (count <? List.length ids)%nat.
    + apply moves_of_keeps. keeps_tac.
    + apply moves_interleave.
      unfold select_reserve_for_update, select_users_for_update,
        delete_reserve. keeps_tac.
Qed.

Lemma moves_cancel_tx ids : moves_committed (cancel_tx ids).
Proof.
  unfold cancel_tx. apply moves_bind_keeps.
  - unfold select_count_reserve. keeps_tac.
  - intros count. destruct (count <? List.length ids)%nat.
    + apply moves_of_keeps. keeps_tac.
    + apply moves_interleave.
      unfold select_reserve_for_update, select_users_for_update,
        delete_reserve. keeps_tac.
Qed.

(** ** The scoped transaction *)

Lemma rollback_same_tables st : same_tables (rollback st) (committed st).
Proof. repeat split. Qed.


(** C9.  [txScorp] ends the transaction exactly once on every exit path.
    When [Begin] fails there is no transaction: the closure is not run and
    the store is untouched.  Otherwise the statements of the closure are
    followed by exactly one terminal call; it is [Commit] exactly when the
    closure returned nil and [Rollback] exactly when it returned an error or
    panicked.  An error returned by the closure comes back as the very same
    value, a panic comes back as a fresh non-sentinel error after the
    rollback, and a rollback restores the committed tables. *)
Theorem txScorp_exactly_one_terminal {A} (f : closure A) (env : Env) (db : DB) :
  let o := fst (f env (begin db)) in
  let st := snd (f env (begin db)) in
  match txScorp f env db with
  | (res, db', tr) =>
      if begin_fails env then
        tr = [] /\ db' = db /\ is_sentinel_result res = false
      else
        (exists t, tr = trace st ++ [t] /\ is_terminal t = true /\
           (t = EvCommit <-> exists a, o = Returned (Ok a)) /\
           (t = EvRollback <->
              (exists e, o = Returned (Fail e)) \/ (exists v, o = Panicked v))) /\
        (forall e, o = Returned (Fail e) ->
           res = Fail e /\ same_tables db' (committed st)) /\
        (forall v, o = Panicked v ->
           res = Fail (PanicError v) /\ is_sentinel (PanicError v) = false /\
           same_tables db' (committed st)) /\
        (forall a, res = Ok a -> o = Returned (Ok a) /\ db' = working st)
  end.
Proof.
  unfold txScorp. destruct (begin_fails env).
  - cbn. repeat split.
  - destruct (f env (begin db)) as [o st]. cbn [fst snd].
    destruct o as [[a|e]|v]; [destruct (commit_fails env) | | ];
      (split; [eexists; split; [reflexivity|] |]);
      repeat match goal with
             | |- _ /\ _ => split
             | |- _ <-> _ => split
             | |- forall _, _ => intro
             | H : _ \/ _ |- _ => destruct H
             | H : exists _, _ |- _ => destruct H
             | H : _ = _ |- _ => discriminate H
             | H : Returned _ = Returned _ |- _ => inversion H; clear H; subst
             | H : Panicked _ = Panicked _ |- _ => inversion H; clear H; subst
             | H : Ok _ = Ok _ |- _ => inversion H; clear H; subst
             end;
      try reflexivity; eauto using rollback_same_tables.
Qed.

Lemma same_tables_refl db : same_tables db db.
Proof. repeat split. Qed.

Lemma txScorp_returning {A} (m : Tx A) (env : Env) (db : DB) :
  moves_committed m ->
  match txScorp (returning m) env db with
  | (Ok a, db', tr) =>
      exists st, m env (begin db) = (Ok a, st) /\ db' = working st /\
                 begin_fails env = false /\ commit_fails env = false /\
                 tr = trace st ++ [EvCommit]
  | (Fail e, db', tr) =>
      same_tables db' db \/ same_tables db' (concurrent env db)
  end.
Proof.
  intros Hm. unfold txScorp, returning.
  destruct (begin_fails env) eqn:Eb.
  - left. apply same_tables_refl.
  - destruct (m env (begin db)) as [[a|e] st] eqn:E.
    + destruct (commit_fails env) eqn:Ec.
      * destruct (Hm _ _ _ _ E) as [H|H]; [left|right];
          unfold same_tables, rollback; cbn; rewrite H; repeat split.
      * exists st. repeat split.
    + destruct (Hm _ _ _ _ E) as [H|H]; [left|right];
        unfold same_tables, rollback; cbn; rewrite H; repeat split.
Qed.

Lemma terminal_reply_Success err out :
  resp (terminal_reply err out) = Success -> exists u, err = Ok u.
Proof.
  destruct err as [u|e]; cbn.
  - eauto.
  - destruct (is_ReserveIsExpires e || is_ReserveIsAlreadyCommited e);
      cbn; intros H; inversion H.
Qed.

Lemma terminal_reply_store err db tr :
  store (terminal_reply err (db, tr)) = db.
Proof.
  destruct err as [u|e]; cbn; [reflexivity|].
  destruct (is_ReserveIsExpires e || is_ReserveIsAlreadyCommited e);
    reflexivity.
Qed.

(** ** Commit is all or nothing *)

(** C4.  A Commit that does not answer with the success response leaves the
    reserve table, the credit ledger and the user rows (hence every cached
    balance) as they were: the transaction is rolled back.  The only
    difference a failed call can show is what other transactions committed
    in the meantime; when none did, the tables are those before the call. *)
Theorem Commit_failure_changes_nothing (env : Env) (r : request) (db : DB) :
  resp (Commit env r db) <> Success ->
  (same_tables (store (Commit env r db)) db \/
   same_tables (store (Commit env r db)) (concurrent env db)) /\
  (sequential env -> same_tables (store (Commit env r db)) db).
Proof.
  intros Hfail.
  assert (G : same_tables (store (Commit env r db)) db \/
              same_tables (store (Commit env r db)) (concurrent env db)).
  { revert Hfail. unfold Commit.
    destruct (negb (Method r =? "POST")%string);
      [intros _; left; apply same_tables_refl|].
    destruct (Decode_ids r) as [req|];
      [|intros _; left; apply same_tables_refl].
    destruct (List.length (reserve_ids req) =? 0)%nat;
      [intros _; left; apply same_tables_refl|].
    pose proof (txScorp_returning (commit_tx (reserve_ids req)) env db
                  (moves_commit_tx _)) as H.
    destruct (txScorp (returning (commit_tx (reserve_ids req))) env db)
      as [[err db'] tr].
    rewrite terminal_reply_store. destruct err as [u|e].
    - intros Hne. exfalso. apply Hne. reflexivity.
    - intros _. exact H. }
  split; [exact G|].
  intros Hseq. rewrite Hseq in G. destruct G; assumption.
Qed.

Lemma Commit_failure_changes_nothing_witness :
  resp (Commit (calm 150) (POST (with_ids [1])) brim_db) <> Success /\
  same_tables (store (Commit (calm 150) (POST (with_ids [1])) brim_db)) brim_db.
Proof.
  assert (H : resp (Commit (calm 150) (POST (with_ids [1])) brim_db) <> Success).
  { vm_compute. intros E. discriminate E. }
  split; [exact H|].
  apply (Commit_failure_changes_nothing (calm 150) (POST (with_ids [1])) brim_db H).
  intros db. reflexivity.
Defined.

(** ** Rows and keys *)

Section Keys.
Context {R : Type} (key : R -> Z).

Lemma filter_other_key (x : Z) (l : list R) :
  ~ In x (map key l) -> filter (fun r => key r =? x) l = [].
Proof.
  induction l as [|r l IH]; cbn; intros H; [reflexivity|].
  destruct (key r =? x) eqn:E.
  - apply Z.eqb_eq in E. exfalso. apply H. left. exact E.
  - apply IH. intros Hin. apply H. right. exact Hin.
Qed.

Lemma filter_key_unique (u : R) (l : list R) :
  NoDup (map key l) -> In u l ->
  filter (fun r => key r =? key u) l = [u].
Proof.
  induction l as [|r l IH]; cbn; intros Hnd Hin; [contradiction|].
  inversion Hnd as [|? ? Hnot Hnd']; subst.
  destruct Hin as [->|Hin].
  - rewrite Z.eqb_refl. f_equal. apply filter_other_key. exact Hnot.
  - destruct (key r =? key u) eqn:E.
    + apply Z.eqb_eq in E. exfalso. apply Hnot. rewrite E.
      apply in_map. exact Hin.
    + apply IH; assumption.
Qed.
End Keys.

Lemma existing_user_In db bank u : existing_user db bank u -> In u (tbl_user db).
Proof. intros (_ & H & _). apply find_some in H. apply H. Qed.

Lemma filterBankID_existing env db bank u :
  direct_fails env = false -> existing_user db bank u ->
  filterBankID env db bank = (u_id u, None).
Proof.
  intros Hd (Hne & Hf & _). unfold filterBankID.
  destruct (bank =? EmptyString)%string eqn:E.
  - apply String.eqb_eq in E. contradiction.
  - rewrite Hd, Hf. reflexivity.
Qed.

(** ** Check *)

Lemma Check_on_existing_user env j db u :
  healthy env -> user_keys db -> existing_user db (bank_id j) u ->
  Int64.in_range (price j) = true -> 0 < price j ->
  Check env (POST j) db =
  {| resp := if u_credit u <? price j
             then Error "credit is insufficient" 200 else Success;
     store := db;
     log := [EvBegin; EvLockUser [u_id u];
             if u_credit u <? price j then EvRollback else EvCommit] |}.
Proof.
  intros (Hb & Hc & Hd & Hs) Hk Hu Hr Hp.
  unfold Check, POST, Decode_price. cbn [Method Body negb String.eqb Ascii.eqb Bool.eqb].
  cbn. rewrite Hr.
  destruct (price j <=? 0) eqn:E; [apply Z.leb_le in E; lia|].
  rewrite (filterBankID_existing env db _ u Hd Hu).
  destruct Hu as (Hne & Hf & Hpos).
  destruct (u_id u <=? 0) eqn:E2; [apply Z.leb_le in E2; lia|].
  unfold txScorp, returning, check_tx, bind, wrap, select_credit_for_update.
  rewrite Hb, stmt_run by apply Hs. cbn.
  rewrite (filter_key_unique u_id u) by (try assumption; apply find_some in Hf; apply Hf).
  cbn. unfold fail, ret.
  destruct (u_credit u <? price j); cbn.
  - unfold finish, rollback. cbn. destruct db; reflexivity.
  - rewrite Hc. reflexivity.
Qed.

(** C7.  On an existing user and a positive price, Check takes the FOR-UPDATE
    lock on the user row and reads its cached credit only: it succeeds exactly
    when the cached credit is at least the price, answers HTTP 200 with the
    ng body "credit is insufficient" when it is below, leaves the store as it
    was, and answers the same whatever the reserve and credit tables hold. *)
Theorem Check_reads_cached_credit_only (env : Env) (j : json) (db : DB)
    (u : user_row) :
  healthy env -> user_keys db -> existing_user db (bank_id j) u ->
  Int64.in_range (price j) = true -> 0 < price j ->
  store (Check env (POST j) db) = db /\
  log (Check env (POST j) db) =
    [EvBegin; EvLockUser [u_id u];
     if u_credit u <? price j then EvRollback else EvCommit] /\
  (resp (Check env (POST j) db) = Success <-> price j <= u_credit u) /\
  (u_credit u < price j ->
   resp (Check env (POST j) db) = Error "credit is insufficient" 200 /\
   status (resp (Check env (POST j) db)) = 200 /\
   body (resp (Check env (POST j) db)) =
     Fprintln (ResError "credit is insufficient")) /\
  (forall db2, tbl_user db2 = tbl_user db ->
     resp (Check env (POST j) db2) = resp (Check env (POST j) db)).
Proof.
  intros He Hk Hu Hr Hp.
  rewrite (Check_on_existing_user env j db u He Hk Hu Hr Hp). cbn [resp store log].
  split; [reflexivity|]. split; [reflexivity|]. split; [|split].
  - destruct (u_credit u <? price j) eqn:E.
    + apply Z.ltb_lt in E. split; [intros H; inversion H | lia].
    + apply Z.ltb_ge in E. split; [intros _; exact E | reflexivity].
  - intros Hlt. apply Z.ltb_lt in Hlt. rewrite Hlt. repeat split.
  - intros db2 Hsame.
    rewrite (Check_on_existing_user env j db2 u He); try assumption.
    + reflexivity.
    + unfold user_keys. rewrite Hsame. exact Hk.
    + unfold existing_user. rewrite Hsame. exact Hu.
Qed.

Lemma healthy_calm t : healthy (calm t).
Proof. repeat split. Qed.

Lemma funded_user_exists : existing_user funded_db "a" funded_user.
Proof. split; [discriminate|]. split; [reflexivity|reflexivity]. Qed.

Lemma funded_keys : user_keys funded_db.
Proof. unfold user_keys. cbn. repeat constructor. intros []. Qed.

Lemma Check_reads_cached_credit_only_witness :
  resp (Check (calm 150) (POST (with_bank "a" 400)) funded_db) = Success <->
  400 <= 1000.
Proof.
  apply (Check_reads_cached_credit_only (calm 150) (with_bank "a" 400)
           funded_db funded_user (healthy_calm 150) funded_keys
           funded_user_exists eq_refl eq_refl).
Defined.

(** ** Locking of user rows in Commit and Cancel *)

(** The user-locking statement of Commit and Cancel never locks more than
    one row, whatever ids are bound to its placeholders. *)
Lemma select_users_for_update_one_row userids env st st' :
  select_users_for_update userids env st = (Ok tt, st') ->
  exists ids, trace st' = trace st ++ [EvLockUser ids] /\
              (List.length ids <= 1)%nat.
Proof.
  intros H. apply stmt_Ok in H. destruct H as (_ & _ & ->).
  cbn [after_stmt trace fst snd]. eexists. split; [reflexivity|].
  rewrite length_map. apply firstn_le_length.
Qed.

(** C1 (the code departs from the claim).  Committing, or cancelling, the two
    reservations of [pair_db], which belong to users 1 and 2, succeeds with
    the row of user 1 locked only: user 2 is never locked although Commit
    appends to the ledger of user 2 and rewrites that user's cached credit. *)
Theorem Commit_Cancel_lock_one_user_only :
  let involved := map r_user_id (reserve_in [1; 2] pair_db) in
  let done := Commit (calm 110) (POST (with_ids [1; 2])) pair_db in
  let undone := Cancel (calm 110) (POST (with_ids [1; 2])) pair_db in
  involved = [1; 2] /\
  resp done = Success /\
  locked_users (log done) = [1] /\
  credited_users (log done) = [1; 2] /\
  log done =
    [EvBegin; EvSelect; EvLockReserve [1; 2]; EvLockUser [1];
     EvInsertCredit 1 (-300); EvSelect; EvUpdateUser 1;
     EvInsertCredit 2 300; EvSelect; EvUpdateUser 2;
     EvDeleteReserve [1; 2]; EvCommit] /\
  resp undone = Success /\
  locked_users (log undone) = [1] /\
  log undone =
    [EvBegin; EvSelect; EvLockReserve [1; 2]; EvLockUser [1];
     EvDeleteReserve [1; 2]; EvCommit].
Proof. vm_compute. repeat split. Qed.

(** ** The two checks of Commit and Cancel *)

Section Precheck.
Variables (ids : list Z) (env : Env) (st : TxState).
Let l := List.length ids.

Lemma commit_tx_expired :
  stmt_fails env (executed st) = false ->
  (List.length (reserve_in_live ids (NOW env) (working st)) < l)%nat ->
  commit_tx ids env st = (Fail ReserveIsExpires, counted st).
Proof.
  intros Hs Hlt. unfold commit_tx, bind, wrap, select_count_reserve_live.
  rewrite stmt_run by exact Hs. cbn [fst snd].
  apply Nat.ltb_lt in Hlt. fold l. rewrite Hlt. reflexivity.
Qed.

Lemma cancel_tx_missing :
  stmt_fails env (executed st) = false ->
  (List.length (reserve_in ids (working st)) < l)%nat ->
  cancel_tx ids env st = (Fail ReserveIsAlreadyCommited, counted st).
Proof.
  intros Hs Hlt. unfold cancel_tx, bind, wrap, select_count_reserve.
  rewrite stmt_run by exact Hs. cbn [fst snd].
  apply Nat.ltb_lt in Hlt. fold l. rewrite Hlt. reflexivity.
Qed.

Lemma commit_tx_gone :
  stmt_fails env (executed st) = false ->
  stmt_fails env (S (executed st)) = false ->
  (l <= List.length (reserve_in_live ids (NOW env) (working st)))%nat ->
  List.length (reserve_in ids (concurrent env (working st))) <> l ->
  commit_tx ids env st = (Fail ReserveIsAlreadyCommited, materialised ids env st).
Proof.
  intros Hs0 Hs1 Hge Hne. unfold commit_tx, bind, wrap, select_count_reserve_live.
  rewrite stmt_run by exact Hs0. cbn [fst snd].
  apply Nat.ltb_ge in Hge. fold l. rewrite Hge.
  unfold interleave, select_reserve_for_update.
  rewrite stmt_run by exact Hs1. cbn [fst snd working after_stmt executed].
  rewrite length_map. apply Nat.eqb_neq in Hne. rewrite Hne. reflexivity.
Qed.

Lemma cancel_tx_gone :
  stmt_fails env (executed st) = false ->
  stmt_fails env (S (executed st)) = false ->
  (l <= List.length (reserve_in ids (working st)))%nat ->
  List.length (reserve_in ids (concurrent env (working st))) <> l ->
  cancel_tx ids env st = (Fail ReserveIsAlreadyCommited, materialised ids env st).
Proof.
  intros Hs0 Hs1 Hge Hne. unfold cancel_tx, bind, wrap, select_count_reserve.
  rewrite stmt_run by exact Hs0. cbn [fst snd].
  apply Nat.ltb_ge in Hge. fold l. rewrite Hge.
  unfold interleave, select_reserve_for_update.
  rewrite stmt_run by exact Hs1. cbn [fst snd working after_stmt executed].
  rewrite length_map. apply Nat.eqb_neq in Hne. rewrite Hne. reflexivity.
Qed.

Lemma commit_tx_passes :
  stmt_fails env (executed st) = false ->
  stmt_fails env (S (executed st)) = false ->
  (l <= List.length (reserve_in_live ids (NOW env) (working st)))%nat ->
  List.length (reserve_in ids (concurrent env (working st))) = l ->
  commit_tx ids env st =
  commit_apply ids (reserve_in ids (concurrent env (working st))) env
               (materialised ids env st).
Proof.
  intros Hs0 Hs1 Hge He. unfold commit_tx, bind at 1, wrap at 1, select_count_reserve_live.
  rewrite stmt_run by exact Hs0. cbn [fst snd].
  apply Nat.ltb_ge in Hge. fold l. rewrite Hge.
  unfold bind at 1, interleave. unfold bind at 1, wrap at 1, select_reserve_for_update.
  rewrite stmt_run by exact Hs1. cbn [fst snd working after_stmt executed].
  rewrite length_map. apply Nat.eqb_eq in He. rewrite He. reflexivity.
Qed.

Lemma cancel_tx_passes :
  stmt_fails env (executed st) = false ->
  stmt_fails env (S (executed st)) = false ->
  (l <= List.length (reserve_in ids (working st)))%nat ->
  List.length (reserve_in ids (concurrent env (working st))) = l ->
  cancel_tx ids env st =
  cancel_apply ids (reserve_in ids (concurrent env (working st))) env
               (materialised ids env st).
Proof.
  intros Hs0 Hs1 Hge He. unfold cancel_tx, bind at 1, wrap at 1, select_count_reserve.
  rewrite stmt_run by exact Hs0. cbn [fst snd].
  apply Nat.ltb_ge in Hge. fold l. rewrite Hge.
  unfold bind at 1, interleave. unfold bind at 1, wrap at 1, select_reserve_for_update.
  rewrite stmt_run by exact Hs1. cbn [fst snd working after_stmt executed].
  rewrite length_map. apply Nat.eqb_eq in He. rewrite He. reflexivity.
Qed.
End Precheck.

Lemma commit_tx_count_refused ids env st :
  stmt_fails env (executed st) = true ->
  commit_tx ids env st =
  (Fail (Wrap DriverError "count reserve failed"), refused st).
Proof.
  intros Hs. unfold commit_tx, bind, wrap, select_count_reserve_live, stmt.
  rewrite Hs. reflexivity.
Qed.

Lemma commit_tx_read_refused ids env st :
  stmt_fails env (executed st) = false ->
  stmt_fails env (S (executed st)) = true ->
  (List.length ids <=
   List.length (reserve_in_live ids (NOW env) (working st)))%nat ->
  exists st', commit_tx ids env st =
              (Fail (Wrap DriverError "select reserves failed"), st') /\
              trace st' = trace st ++ [EvSelect].
Proof.
  intros Hs0 Hs1 Hge.
  unfold commit_tx, bind, wrap, select_count_reserve_live.
  rewrite stmt_run by exact Hs0. cbn [fst snd].
  apply Nat.ltb_ge in Hge. rewrite Hge.
  unfold interleave, select_reserve_for_update, stmt.
  cbn [executed after_stmt]. rewrite Hs1. eexists. split; reflexivity.
Qed.

Lemma terminal_reply_log err db tr : log (terminal_reply err (db, tr)) = tr.
Proof.
  destruct err as [u|e]; cbn; [reflexivity|].
  destruct (is_ReserveIsExpires e || is_ReserveIsAlreadyCommited e);
    reflexivity.
Qed.

Lemma rollback_unwritten st :
  working st = committed st -> rollback st = committed st.
Proof. intros H. unfold rollback. rewrite H. destruct (committed st); reflexivity. Qed.

Section TerminalHandlers.
Variables (env : Env) (j : json) (db : DB).
Hypothesis Hdec : forallb Int64.in_range (reserve_ids j) = true.
Hypothesis Hne : reserve_ids j <> [].
Local Abbreviation ids := (reserve_ids j).
Local Abbreviation len := (List.length (reserve_ids j)).

Lemma Commit_runs :
  Commit env (POST j) db =
  terminal_reply (fst (fst (txScorp (returning (commit_tx ids)) env db)))
    (snd (fst (txScorp (returning (commit_tx ids)) env db)),
     snd (txScorp (returning (commit_tx ids)) env db)).
Proof.
  unfold Commit, POST, Decode_ids. cbn [Method Body]. cbn -[txScorp Int64.in_range].
  rewrite Hdec. destruct ids as [|z rest]; [contradiction|].
  cbn -[txScorp].
  destruct (txScorp (returning (commit_tx (z :: rest))) env db) as [[err db'] tr].
  reflexivity.
Qed.

Lemma Cancel_runs :
  Cancel env (POST j) db =
  terminal_reply (fst (fst (txScorp (returning (cancel_tx ids)) env db)))
    (snd (fst (txScorp (returning (cancel_tx ids)) env db)),
     snd (txScorp (returning (cancel_tx ids)) env db)).
Proof.
  unfold Cancel, POST, Decode_ids. cbn [Method Body]. cbn -[txScorp Int64.in_range].
  rewrite Hdec. destruct ids as [|z rest]; [contradiction|].
  cbn -[txScorp].
  destruct (txScorp (returning (cancel_tx (z :: rest))) env db) as [[err db'] tr].
  reflexivity.
Qed.

Lemma Commit_expired_reply :
  begin_fails env = false -> stmt_fails env 0 = false ->
  (List.length (reserve_in_live ids (NOW env) db) < len)%nat ->
  Commit env (POST j) db =
  {| resp := Error "reserve is already expired" 400; store := db;
     log := [EvBegin; EvSelect; EvRollback] |}.
Proof.
  intros Hb Hs Hlt. rewrite Commit_runs. unfold txScorp, returning.
  rewrite Hb, commit_tx_expired by assumption.
  cbn. unfold finish. cbn. destruct db; reflexivity.
Qed.

Lemma Cancel_missing_reply :
  begin_fails env = false -> stmt_fails env 0 = false ->
  (List.length (reserve_in ids db) < len)%nat ->
  Cancel env (POST j) db =
  {| resp := Error "reserve is already commited" 400; store := db;
     log := [EvBegin; EvSelect; EvRollback] |}.
Proof.
  intros Hb Hs Hlt. rewrite Cancel_runs. unfold txScorp, returning.
  rewrite Hb, cancel_tx_missing by assumption.
  cbn. unfold finish. cbn. destruct db; reflexivity.
Qed.

Lemma Commit_gone_reply :
  begin_fails env = false -> stmt_fails env 0 = false ->
  stmt_fails env 1 = false ->
  (len <= List.length (reserve_in_live ids (NOW env) db))%nat ->
  List.length (reserve_in ids (concurrent env db)) <> len ->
  Commit env (POST j) db =
  {| resp := Error "reserve is already commited" 400;
     store := concurrent env db;
     log := [EvBegin; EvSelect;
             EvLockReserve (map r_id (reserve_in ids (concurrent env db)));
             EvRollback] |}.
Proof.
  intros Hb Hs0 Hs1 Hge Hgone. rewrite Commit_runs. unfold txScorp, returning.
  rewrite Hb, commit_tx_gone by assumption.
  cbn. unfold finish. cbn [fst snd].
  rewrite rollback_unwritten by reflexivity. reflexivity.
Qed.

Lemma Cancel_gone_reply :
  begin_fails env = false -> stmt_fails env 0 = false ->
  stmt_fails env 1 = false ->
  (len <= List.length (reserve_in ids db))%nat ->
  List.length (reserve_in ids (concurrent env db)) <> len ->
  Cancel env (POST j) db =
  {| resp := Error "reserve is already commited" 400;
     store := concurrent env db;
     log := [EvBegin; EvSelect;
             EvLockReserve (map r_id (reserve_in ids (concurrent env db)));
             EvRollback] |}.
Proof.
  intros Hb Hs0 Hs1 Hge Hgone. rewrite Cancel_runs. unfold txScorp, returning.
  rewrite Hb, cancel_tx_gone by assumption.
  cbn. unfold finish. cbn [fst snd].
  rewrite rollback_unwritten by reflexivity. reflexivity.
Qed.

Lemma Commit_writes_after_checks :
  existsb is_write (log (Commit env (POST j) db)) = true ->
  (len <=
   List.length (reserve_in_live ids (NOW env) db))%nat /\
  List.length (reserve_in ids (concurrent env db)) =
  len.
Proof.
  rewrite Commit_runs, terminal_reply_log. unfold txScorp, returning.
  destruct (begin_fails env); [intros H; discriminate H|].
  destruct (stmt_fails env 0) eqn:Hs0.
  { rewrite commit_tx_count_refused by exact Hs0. intros H; discriminate H. }
  destruct (Nat.ltb_spec
              (List.length (reserve_in_live ids (NOW env) db))
              len) as [Hlt|Hge].
  { rewrite commit_tx_expired by assumption. intros H; discriminate H. }
  destruct (stmt_fails env 1) eqn:Hs1.
  { destruct (commit_tx_read_refused ids env (begin db) Hs0 Hs1 Hge)
      as (st' & -> & Ht).
    cbn [snd fst]. rewrite Ht. intros H; discriminate H. }
  destruct (Nat.eq_dec
              (List.length (reserve_in ids (concurrent env db)))
              len) as [He|Hgone].
  - intros _. split; assumption.
  - rewrite commit_tx_gone by assumption. intros H; discriminate H.
Qed.
End TerminalHandlers.

Section CountingRows.
Context {R : Type} (key : R -> Z).

Lemma NoDup_map_filter (f : R -> bool) (rows : list R) :
  NoDup (map key rows) -> NoDup (map key (filter f rows)).
Proof.
  induction rows as [|r rows IH]; cbn; intros H; [constructor|].
  inversion H as [|? ? Hnot Hnd]; subst.
  destruct (f r); cbn; [constructor|]; auto.
  intros Hin. apply Hnot. apply in_map_iff in Hin.
  destruct Hin as (x & Hx & Hin). apply filter_In in Hin.
  apply in_map_iff. exists x. split; [exact Hx | apply Hin].
Qed.

Lemma keyed_rows_in (ids : list Z) (rows : list R) :
  incl (map key (filter (fun r => mem_id (key r) ids) rows)) ids.
Proof.
  intros x Hin. apply in_map_iff in Hin. destruct Hin as (r & <- & Hin).
  apply filter_In in Hin. destruct Hin as (_ & Hm).
  unfold mem_id in Hm. apply existsb_exists in Hm.
  destruct Hm as (y & Hy & E). apply Z.eqb_eq in E. subst. exact Hy.
Qed.

Lemma keyed_rows_bounded (ids : list Z) (rows : list R) :
  NoDup (map key rows) ->
  (List.length (filter (fun r => mem_id (key r) ids) rows) <=
   List.length ids)%nat.
Proof.
  intros Hnd. rewrite <- (length_map key).
  apply NoDup_incl_length.
  - apply NoDup_map_filter. exact Hnd.
  - apply keyed_rows_in.
Qed.

Lemma keyed_rows_short_of_duplicates (ids : list Z) (rows : list R) :
  NoDup (map key rows) -> ~ NoDup ids ->
  (List.length (filter (fun r => mem_id (key r) ids) rows) <
   List.length ids)%nat.
Proof.
  intros Hnd Hdup.
  destruct (Nat.lt_ge_cases
              (List.length (filter (fun r => mem_id (key r) ids) rows))
              (List.length ids)) as [Hlt|Hge]; [exact Hlt|].
  exfalso. apply Hdup.
  apply (NoDup_incl_NoDup
           (l := map key (filter (fun r => mem_id (key r) ids) rows))).
  - apply NoDup_map_filter. exact Hnd.
  - rewrite length_map. exact Hge.
  - apply keyed_rows_in.
Qed.

Lemma filter_and_shorter (f g : R -> bool) (rows : list R) :
  (List.length (filter (fun r => f r && g r) rows) <=
   List.length (filter f rows))%nat.
Proof.
  induction rows as [|r rows IH]; cbn; [lia|].
  destruct (f r), (g r); cbn; lia.
Qed.
End CountingRows.

Lemma live_rows_bounded ids now db :
  (List.length (reserve_in_live ids now db) <=
   List.length (reserve_in ids db))%nat.
Proof.
  unfold reserve_in_live, reserve_in.
  apply (filter_and_shorter (fun r => mem_id (r_id r) ids)
           (fun r => now <=? r_expire_at r)).
Qed.

Lemma NoDup_nonempty_of_dup (ids : list Z) : ~ NoDup ids -> ids <> [].
Proof. intros H ->. apply H. constructor. Qed.

(** ** The two-stage check of Commit *)

(** C5.  Commit checks twice.  When the count of rows with an id of the list
    that have not expired falls short of the length of the list, it answers
    "reserve is already expired" with HTTP 400.  Otherwise, when the locking
    read that follows returns fewer rows than the list is long (another
    transaction removed one in between), it answers "reserve is already
    commited" with HTTP 400.  In both cases nothing is written, and a Commit
    that writes to the ledger or deletes reservations has passed both
    checks. *)
Theorem Commit_two_stage_check (env : Env) (j : json) (db : DB) :
  forallb Int64.in_range (reserve_ids j) = true -> reserve_ids j <> [] ->
  let ids := reserve_ids j in
  let live := List.length (reserve_in_live ids (NOW env) db) in
  let found := List.length (reserve_in ids (concurrent env db)) in
  let out := Commit env (POST j) db in
  (begin_fails env = false -> stmt_fails env 0 = false ->
   (live < List.length ids)%nat ->
   resp out = Error "reserve is already expired" 400 /\
   existsb is_write (log out) = false /\ store out = db) /\
  (begin_fails env = false -> stmt_fails env 0 = false ->
   stmt_fails env 1 = false ->
   (List.length ids <= live)%nat -> (found < List.length ids)%nat ->
   resp out = Error "reserve is already commited" 400 /\
   existsb is_write (log out) = false /\ store out = concurrent env db) /\
  (existsb is_write (log out) = true ->
   (List.length ids <= live)%nat /\ found = List.length ids).
Proof.
  intros Hdec Hne. cbv zeta. split; [|split].
  - intros Hb Hs Hlt.
    rewrite (Commit_expired_reply env j db Hdec Hne Hb Hs Hlt).
    repeat split.
  - intros Hb Hs0 Hs1 Hge Hlt.
    rewrite (Commit_gone_reply env j db Hdec Hne Hb Hs0 Hs1 Hge)
      by (apply Nat.lt_neq; exact Hlt).
    repeat split.
  - apply Commit_writes_after_checks; assumption.
Qed.

Lemma Commit_two_stage_check_witness :
  forallb Int64.in_range (reserve_ids (with_ids [1; 2])) = true /\
  reserve_ids (with_ids [1; 2]) <> [] /\
  resp (Commit (calm 300) (POST (with_ids [1; 2])) pair_db) =
    Error "reserve is already expired" 400 /\
  resp (Commit (racing 110) (POST (with_ids [1; 2])) pair_db) =
    Error "reserve is already commited" 400.
Proof.
  assert (Hdec : forallb Int64.in_range (reserve_ids (with_ids [1; 2])) = true)
    by reflexivity.
  assert (Hne : reserve_ids (with_ids [1; 2]) <> []) by discriminate.
  split; [exact Hdec|]. split; [exact Hne|]. split.
  - apply (Commit_two_stage_check (calm 300) (with_ids [1; 2]) pair_db Hdec Hne);
      [reflexivity | reflexivity | vm_compute; lia].
  - apply (Commit_two_stage_check (racing 110) (with_ids [1; 2]) pair_db Hdec Hne);
      [reflexivity | reflexivity | reflexivity | vm_compute; lia
      | vm_compute; lia].
Defined.

(** ** Duplicate ids *)

(** C10.  When the list of reservation ids names an id twice, Commit and
    Cancel fail and leave the store as it was, even if every named
    reservation exists and has not expired: the count of matching rows
    cannot reach the length of the list.  Commit answers "reserve is already
    expired" and Cancel "reserve is already commited", both with HTTP 400. *)
Theorem duplicate_reserve_ids_rejected (env : Env) (j : json) (db : DB) :
  begin_fails env = false -> stmt_fails env 0 = false ->
  reserve_keys db ->
  forallb Int64.in_range (reserve_ids j) = true ->
  ~ NoDup (reserve_ids j) ->
  Commit env (POST j) db =
    {| resp := Error "reserve is already expired" 400; store := db;
       log := [EvBegin; EvSelect; EvRollback] |} /\
  Cancel env (POST j) db =
    {| resp := Error "reserve is already commited" 400; store := db;
       log := [EvBegin; EvSelect; EvRollback] |}.
Proof.
  intros Hb Hs Hk Hdec Hdup.
  assert (Hne : reserve_ids j <> []) by (apply NoDup_nonempty_of_dup; exact Hdup).
  assert (Hshort : (List.length (reserve_in (reserve_ids j) db) <
                    List.length (reserve_ids j))%nat).
  { unfold reserve_in. apply (keyed_rows_short_of_duplicates r_id); assumption. }
  split.
  - apply Commit_expired_reply; try assumption.
    eapply Nat.le_lt_trans; [apply live_rows_bounded | exact Hshort].
  - apply Cancel_missing_reply; assumption.
Qed.

Lemma pair_reserve_keys : reserve_keys pair_db.
Proof.
  unfold reserve_keys. cbn. repeat constructor; cbn; intuition discriminate.
Qed.

Lemma duplicate_reserve_ids_rejected_witness :
  List.length (reserve_in_live [1] 110 pair_db) = 1%nat /\
  resp (Commit (calm 110) (POST (with_ids [1; 1])) pair_db) =
    Error "reserve is already expired" 400 /\
  resp (Cancel (calm 110) (POST (with_ids [1; 1])) pair_db) =
    Error "reserve is already commited" 400.
Proof.
  assert (Hdup : ~ NoDup (reserve_ids (with_ids [1; 1]))).
  { intros H. inversion H as [|? ? Hnot _]. apply Hnot. left. reflexivity. }
  pose proof (duplicate_reserve_ids_rejected (calm 110) (with_ids [1; 1])
                pair_db eq_refl eq_refl pair_reserve_keys eq_refl Hdup)
    as [Hc Hx].
  split; [reflexivity|]. rewrite Hc, Hx. split; reflexivity.
Defined.

(** ** What a successful script has done *)

Lemma interleave_Ok env st a st' :
  interleave env st = (Ok a, st') ->
  st' = {| committed := concurrent env (committed st);
           working := concurrent env (working st);
           trace := trace st; executed := executed st |}.
Proof. unfold interleave. intros H. inversion H. reflexivity. Qed.

Ltac tx_inv :=
  repeat match goal with
  | H : bind _ _ _ _ = (Ok _, _) |- _ =>
      let a := fresh "a" in let st := fresh "st" in let H1 := fresh "H" in
      apply bind_Ok in H; destruct H as (a & st & H1 & H)
  | H : wrap _ _ _ _ = (Ok _, _) |- _ => apply wrap_Ok in H
  | H : stmt _ _ _ = (Ok _, _) |- _ =>
      let Hs := fresh "Hs" in let Hr := fresh "Hr" in
      apply stmt_Ok in H; destruct H as (Hs & Hr & H)
  | H : ret _ _ _ = (Ok _, _) |- _ => inversion H; clear H; subst
  | H : fail _ _ _ = (Ok _, _) |- _ => discriminate H
  | H : interleave _ _ = (Ok _, _) |- _ => apply interleave_Ok in H
  | H : fst (fst (_, _, _)) = Ok _ |- _ =>
      cbn [fst snd] in H; inversion H; clear H
  end; subst.

Lemma scan_int64_Ok z a :
  scan_int64 z = Ok a -> Int64.in_range z = true /\ a = z.
Proof.
  unfold scan_int64. destruct (Int64.in_range z); intros H; inversion H.
  split; reflexivity.
Qed.

Lemma modyfyCredit_Ok userID price memo env st st' u :
  modyfyCredit userID price memo env st = (Ok u, st') ->
  Int64.in_range
    (sum_credit (with_credit userID price memo (NOW env) (working st)) userID)
    = true /\
  working st' = applied userID price memo (NOW env) (working st) /\
  committed st' = committed st /\
  trace st' = trace st ++
    [EvInsertCredit userID price; EvSelect; EvUpdateUser userID].
Proof.
  unfold modyfyCredit, insert_credit, select_sum_credit, update_user_credit.
  intros H. tx_inv. cbn in *.
  match goal with H : scan_int64 _ = Ok _ |- _ =>
    apply scan_int64_Ok in H; destruct H as (Hin & ->) end.
  split; [exact Hin|]. split; [reflexivity|]. split; [reflexivity|].
  rewrite <- !app_assoc. reflexivity.
Qed.

Lemma for_each_modyfyCredit_Ok rows env st st' u :
  for_each (map scan_commit rows)
    (fun rsv => wrap "modyfyCredit failed"
                  (modyfyCredit (UserID rsv) (Amount rsv) (Note rsv)))
    env st = (Ok u, st') ->
  working st' = applied_all rows (NOW env) (working st) /\
  committed st' = committed st /\
  exists evs, trace st' = trace st ++ evs /\
              credited_users evs = map r_user_id rows /\
              locked_users evs = [].
Proof.
  revert st. induction rows as [|r rows IH]; intros st H.
  - cbn in H. inversion H; subst. repeat split.
    exists []. rewrite app_nil_r. repeat split.
  - cbn [map for_each] in H. tx_inv.
    apply modyfyCredit_Ok in H0. cbn [scan_commit UserID Amount Note] in H0.
    destruct H0 as (_ & Hw & Hc & Ht).
    apply IH in H. destruct H as (Hw' & Hc' & evs & Ht' & Hcu & Hlu).
    split; [|split].
    + rewrite Hw'. cbn [applied_all fold_left]. rewrite Hw. reflexivity.
    + rewrite Hc'. exact Hc.
    + eexists. rewrite Ht', Ht, <- app_assoc. split; [reflexivity|].
      unfold credited_users, locked_users in *.
      rewrite !flat_map_app, Hcu, Hlu. split; reflexivity.
Qed.


Lemma commit_tx_Ok ids env st st' u :
  commit_tx ids env st = (Ok u, st') ->
  let db1 := concurrent env (working st) in
  let rows := reserve_in ids db1 in
  (List.length ids <=
   List.length (reserve_in_live ids (NOW env) (working st)))%nat /\
  List.length rows = List.length ids /\
  working st' = without_reserve ids (applied_all rows (NOW env) db1) /\
  committed st' = concurrent env (committed st) /\
  exists locked evs,
    trace st' = trace st ++
      [EvSelect; EvLockReserve (map r_id rows); EvLockUser locked] ++
      evs ++ [EvDeleteReserve ids] /\
    (List.length locked <= 1)%nat /\
    credited_users evs = map r_user_id rows /\ locked_users evs = [].
Proof.
  unfold commit_tx, select_count_reserve_live, select_reserve_for_update,
    select_users_for_update, delete_reserve.
  intros H. tx_inv.
  destruct (Nat.ltb_spec
              (List.length (reserve_in_live ids (NOW env) (working st)))
              (List.length ids)) as [Hlt|Hge]; [discriminate H|].
  tx_inv. cbn [fst snd working after_stmt] in H. rewrite length_map in H.
  destruct (Nat.eqb_spec
              (List.length (reserve_in ids (concurrent env (working st))))
              (List.length ids)) as [He|Hn]; [|discriminate H].
  cbn [negb] in H. tx_inv.
  match goal with H : for_each _ _ _ _ = _ |- _ =>
    apply for_each_modyfyCredit_Ok in H;
    destruct H as (Hw & Hc & evs & Ht & Hcu & Hlu) end.
  cbn [fst snd working after_stmt committed trace] in *.
  split; [exact Hge|]. split; [exact He|].
  split; [rewrite Hw; reflexivity|]. split; [rewrite Hc; reflexivity|].
  eexists. exists evs. split; [|split; [|split; assumption]].
  - rewrite Ht. rewrite <- !app_assoc. reflexivity.
  - rewrite length_map. apply firstn_le_length.
Qed.

Lemma cancel_tx_Ok ids env st st' u :
  cancel_tx ids env st = (Ok u, st') ->
  let db1 := concurrent env (working st) in
  let rows := reserve_in ids db1 in
  (List.length ids <= List.length (reserve_in ids (working st)))%nat /\
  List.length rows = List.length ids /\
  working st' = without_reserve ids db1 /\
  committed st' = concurrent env (committed st) /\
  exists locked,
    trace st' = trace st ++
      [EvSelect; EvLockReserve (map r_id rows); EvLockUser locked;
       EvDeleteReserve ids] /\
    (List.length locked <= 1)%nat.
Proof.
  unfold cancel_tx, select_count_reserve, select_reserve_for_update,
    select_users_for_update, delete_reserve.
  intros H. tx_inv.
  destruct (Nat.ltb_spec
              (List.length (reserve_in ids (working st)))
              (List.length ids)) as [Hlt|Hge]; [discriminate H|].
  tx_inv. cbn [fst snd working after_stmt] in H. rewrite length_map in H.
  destruct (Nat.eqb_spec
              (List.length (reserve_in ids (concurrent env (working st))))
              (List.length ids)) as [He|Hn]; [|discriminate H].
  cbn [negb] in H. tx_inv.
  cbn [fst snd working after_stmt committed trace] in *.
  split; [exact Hge|]. split; [exact He|].
  split; [reflexivity|]. split; [reflexivity|].
  eexists. split.
  - rewrite <- !app_assoc. reflexivity.
  - rewrite length_map. apply firstn_le_length.
Qed.

Lemma Commit_Success env j db :
  resp (Commit env (POST j) db) = Success ->
  exists st, commit_tx (reserve_ids j) env (begin db) = (Ok tt, st) /\
             store (Commit env (POST j) db) = working st /\
             log (Commit env (POST j) db) = trace st ++ [EvCommit].
Proof.
  unfold Commit, POST. cbn [Method Body]. cbn -[txScorp Decode_ids].
  unfold Decode_ids. cbn [Body].
  destruct (forallb Int64.in_range (reserve_ids j)); [|intros H; inversion H].
  destruct (List.length (reserve_ids j) =? 0)%nat; [intros H; inversion H|].
  pose proof (txScorp_returning (commit_tx (reserve_ids j)) env db
                (moves_commit_tx _)) as HT.
  destruct (txScorp (returning (commit_tx (reserve_ids j))) env db)
    as [[err db'] tr].
  intros H. destruct (terminal_reply_Success _ _ H) as ([] & ->).
  destruct HT as (st & Hrun & -> & _ & _ & ->).
  exists st. cbn. repeat split. exact Hrun.
Qed.

Lemma Cancel_Success env j db :
  resp (Cancel env (POST j) db) = Success ->
  exists st, cancel_tx (reserve_ids j) env (begin db) = (Ok tt, st) /\
             store (Cancel env (POST j) db) = working st /\
             log (Cancel env (POST j) db) = trace st ++ [EvCommit].
Proof.
  unfold Cancel, POST. cbn [Method Body]. cbn -[txScorp Decode_ids].
  unfold Decode_ids. cbn [Body].
  destruct (forallb Int64.in_range (reserve_ids j)); [|intros H; inversion H].
  destruct (List.length (reserve_ids j) =? 0)%nat; [intros H; inversion H|].
  pose proof (txScorp_returning (cancel_tx (reserve_ids j)) env db
                (moves_cancel_tx _)) as HT.
  destruct (txScorp (returning (cancel_tx (reserve_ids j))) env db)
    as [[err db'] tr].
  intros H. destruct (terminal_reply_Success _ _ H) as ([] & ->).
  destruct HT as (st & Hrun & -> & _ & _ & ->).
  exists st. cbn. repeat split. exact Hrun.
Qed.

Lemma deleted_ids_absent ids db id :
  In id ids -> ~ In id (map r_id (tbl_reserve (without_reserve ids db))).
Proof.
  intros Hin Hrow. cbn in Hrow. apply in_map_iff in Hrow.
  destruct Hrow as (r & <- & Hr). apply filter_In in Hr.
  destruct Hr as (_ & Hm). apply negb_true_iff in Hm.
  assert (mem_id (r_id r) ids = true).
  { unfold mem_id. apply existsb_exists. exists (r_id r).
    split; [exact Hin | apply Z.eqb_refl]. }
  congruence.
Qed.

Lemma applied_all_cons r rows now db :
  applied_all (r :: rows) now db =
  applied_all rows now (applied (r_user_id r) (r_amount r) (r_note r) now db).
Proof. reflexivity. Qed.

Lemma applied_all_tables rows now db :
  tbl_reserve (applied_all rows now db) = tbl_reserve db /\
  exists new, tbl_credit (applied_all rows now db) = tbl_credit db ++ new /\
              Forall2 records rows new.
Proof.
  revert db. induction rows as [|r rows IH]; intros db.
  - split; [reflexivity|]. exists []. cbn. rewrite app_nil_r.
    split; constructor.
  - rewrite applied_all_cons.
    destruct (IH (applied (r_user_id r) (r_amount r) (r_note r) now db))
      as (Hr & new & Hc & Hnew).
    split; [rewrite Hr; reflexivity|].
    eexists. rewrite Hc. cbn [applied with_user_credit with_credit tbl_credit].
    rewrite <- app_assoc. split; [reflexivity|].
    constructor; [|exact Hnew]. repeat split.
Qed.

Lemma rows_cover_ids ids db :
  reserve_keys db ->
  List.length (reserve_in ids db) = List.length ids ->
  Permutation (map r_id (reserve_in ids db)) ids.
Proof.
  intros Hk He. apply NoDup_Permutation_bis.
  - apply NoDup_map_filter. exact Hk.
  - rewrite length_map, He. apply Nat.le_refl.
  - apply (keyed_rows_in r_id).
Qed.

(** A successful Commit has locked at most one user row, whatever the
    number of users whose ledger it has appended to. *)
Lemma Commit_locks_at_most_one_user env j db :
  resp (Commit env (POST j) db) = Success ->
  (List.length (locked_users (log (Commit env (POST j) db))) <= 1)%nat /\
  credited_users (log (Commit env (POST j) db)) =
    map r_user_id (reserve_in (reserve_ids j) (concurrent env db)).
Proof.
  intros Hok. destruct (Commit_Success env j db Hok) as (st & Hrun & _ & ->).
  apply commit_tx_Ok in Hrun. cbn [begin working trace] in Hrun.
  destruct Hrun as (_ & _ & _ & _ & locked & evs & -> & Hone & Hcu & Hlu).
  unfold locked_users, credited_users in *.
  rewrite !flat_map_app. cbn [flat_map app]. rewrite Hcu, Hlu.
  rewrite !app_nil_r. split; [exact Hone | reflexivity].
Qed.

(** ** A successful Commit *)

(** C3.  After a Commit that answers with success, no row of the reserve
    table carries an id of the list; the rows returned by the locking read
    carry exactly the ids of the list, each once; and the credit ledger is
    the former one followed by one new entry per returned row, in the order
    of the rows, each with the user, amount and note of its reservation. *)
Theorem Commit_success_moves_reservations_to_ledger (env : Env) (j : json)
    (db : DB) :
  resp (Commit env (POST j) db) = Success ->
  reserve_keys (concurrent env db) ->
  let rows := reserve_in (reserve_ids j) (concurrent env db) in
  let after := store (Commit env (POST j) db) in
  (forall id, In id (reserve_ids j) ->
              ~ In id (map r_id (tbl_reserve after))) /\
  Permutation (map r_id rows) (reserve_ids j) /\
  exists new, tbl_credit after = tbl_credit (concurrent env db) ++ new /\
              Forall2 records rows new.
Proof.
  intros Hok Hk. cbv zeta.
  destruct (Commit_Success env j db Hok) as (st & Hrun & -> & _).
  apply commit_tx_Ok in Hrun. cbn [begin working] in Hrun.
  destruct Hrun as (_ & Hlen & -> & _).
  split; [|split].
  - intros id Hin. apply deleted_ids_absent. exact Hin.
  - apply rows_cover_ids; assumption.
  - cbn [without_reserve tbl_credit].
    apply (applied_all_tables _ (NOW env) (concurrent env db)).
Qed.

Lemma Commit_success_moves_reservations_to_ledger_witness :
  resp (Commit (calm 110) (POST (with_ids [1; 2])) pair_db) = Success /\
  reserve_keys (concurrent (calm 110) pair_db) /\
  Permutation (map r_id (reserve_in [1; 2] pair_db)) [1; 2].
Proof.
  assert (Hok : resp (Commit (calm 110) (POST (with_ids [1; 2])) pair_db)
                = Success) by reflexivity.
  split; [exact Hok|]. split; [exact pair_reserve_keys|].
  apply (Commit_success_moves_reservations_to_ledger (calm 110)
           (with_ids [1; 2]) pair_db Hok pair_reserve_keys).
Defined.

Lemma rows_found ids db :
  reserve_keys db -> NoDup ids -> incl ids (map r_id (tbl_reserve db)) ->
  List.length (reserve_in ids db) = List.length ids.
Proof.
  intros Hk Hnd Hincl. apply Nat.le_antisymm.
  - apply (keyed_rows_bounded r_id). exact Hk.
  - rewrite <- (length_map r_id). apply NoDup_incl_length; [exact Hnd|].
    intros id Hin. specialize (Hincl id Hin). apply in_map_iff in Hincl.
    destruct Hincl as (r & <- & Hr). apply in_map. apply filter_In.
    split; [exact Hr|]. unfold mem_id. apply existsb_exists.
    exists (r_id r). split; [exact Hin | apply Z.eqb_refl].
Qed.

Lemma Cancel_existing_reply env j db :
  healthy env -> sequential env -> reserve_keys db ->
  forallb Int64.in_range (reserve_ids j) = true -> reserve_ids j <> [] ->
  NoDup (reserve_ids j) ->
  incl (reserve_ids j) (map r_id (tbl_reserve db)) ->
  resp (Cancel env (POST j) db) = Success /\
  store (Cancel env (POST j) db) = without_reserve (reserve_ids j) db.
Proof.
  intros (Hb & Hc & _ & Hs) Hseq Hk Hdec Hne Hnd Hincl.
  pose proof (rows_found _ _ Hk Hnd Hincl) as Hlen.
  rewrite Cancel_runs by assumption. unfold txScorp, returning.
  rewrite Hb, cancel_tx_passes; cbn [begin working executed];
    try apply Hs; try rewrite Hseq; try rewrite Hlen; try reflexivity.
  unfold cancel_apply, bind, wrap, select_users_for_update, delete_reserve.
  rewrite stmt_run by apply Hs. cbn [fst snd].
  rewrite stmt_run by apply Hs. cbn [fst snd].
  rewrite Hc. cbn. rewrite Hseq. split; reflexivity.
Qed.

(** ** Cancel *)

(** C8.  The precheck of Cancel counts the rows with an id of the list
    whatever their [expire_at]: when every id of the list names a row, Cancel
    succeeds at any time, also after the rows have expired.  A Cancel that
    answers with success has deleted every row with an id of the list, has
    appended nothing to the credit ledger and has left the user rows, hence
    every cached credit, as they were. *)
Theorem Cancel_reaps_rows_without_ledger_entry (env : Env) (j : json)
    (db : DB) :
  (healthy env -> sequential env -> reserve_keys db ->
   forallb Int64.in_range (reserve_ids j) = true -> reserve_ids j <> [] ->
   NoDup (reserve_ids j) ->
   incl (reserve_ids j) (map r_id (tbl_reserve db)) ->
   resp (Cancel env (POST j) db) = Success) /\
  (resp (Cancel env (POST j) db) = Success ->
   let after := store (Cancel env (POST j) db) in
   tbl_reserve after =
     filter (fun r => negb (mem_id (r_id r) (reserve_ids j)))
            (tbl_reserve (concurrent env db)) /\
   (forall id, In id (reserve_ids j) ->
               ~ In id (map r_id (tbl_reserve after))) /\
   tbl_credit after = tbl_credit (concurrent env db) /\
   tbl_user after = tbl_user (concurrent env db) /\
   credited_users (log (Cancel env (POST j) db)) = []).
Proof.
  split.
  - intros. apply Cancel_existing_reply; assumption.
  - intros Hok. cbv zeta.
    destruct (Cancel_Success env j db Hok) as (st & Hrun & -> & ->).
    apply cancel_tx_Ok in Hrun. cbn [begin working trace] in Hrun.
    destruct Hrun as (_ & _ & Hw & _ & locked & -> & _). rewrite Hw.
    split; [reflexivity|]. split; [|repeat split].
    intros id Hin. apply deleted_ids_absent. exact Hin.
Qed.

Lemma Cancel_reaps_rows_without_ledger_entry_witness :
  Forall (fun r => r_expire_at r < NOW (calm 300)) (tbl_reserve pair_db) /\
  resp (Cancel (calm 300) (POST (with_ids [1; 2])) pair_db) = Success /\
  tbl_credit (store (Cancel (calm 300) (POST (with_ids [1; 2])) pair_db)) =
    tbl_credit pair_db.
Proof.
  assert (Hrun : resp (Cancel (calm 300) (POST (with_ids [1; 2])) pair_db)
                 = Success).
  { apply (Cancel_reaps_rows_without_ledger_entry (calm 300)
             (with_ids [1; 2]) pair_db).
    - apply healthy_calm.
    - intros db. reflexivity.
    - apply pair_reserve_keys.
    - reflexivity.
    - discriminate.
    - repeat constructor; cbn; intuition discriminate.
    - intros id Hin. exact Hin. }
  split; [repeat constructor|]. split; [exact Hrun|].
  apply (Cancel_reaps_rows_without_ledger_entry (calm 300)
           (with_ids [1; 2]) pair_db). exact Hrun.
Defined.

(** ** Reserve *)

Lemma Format_Add_Minute (t : Time) : Format (Add t Minute) = Format t + 60.
Proof. unfold Format, Add, Minute. apply Z.div_add. discriminate. Qed.

Lemma reserve_tx_negative userID price memo env st :
  (forall n, stmt_fails env n = false) -> price < 0 ->
  let db := working st in
  let expire := Format (Add (time_Now env) Minute) in
  let fixed := sum_credit db userID in
  let reserved := sum_reserve db userID expire in
  let st1 := after_stmt st db
    (EvLockUser (map u_id (firstn 1
       (filter (fun u => u_id u =? userID) (tbl_user db))))) in
  let st2 := after_stmt st1 db EvSelect in
  let st3 := after_stmt st2 db EvSelect in
  reserve_tx userID price memo env st =
  if Int64.in_range fixed then
    if Int64.in_range reserved then
      if Int64.add (Int64.add fixed reserved) price <? 0 then
        (Fail CreditIsInsufficient, st3)
      else
        (Ok (reserve_seq db),
         after_stmt st3
           (with_reserve userID price memo true (Format (time_Now env))
                         expire db)
           (EvInsertReserve (reserve_seq db)))
    else (Fail (Wrap ScanError "calc reserve failed"), st3)
  else (Fail (Wrap ScanError "calc credit failed"), st2).
Proof.
  intros Hs Hneg. cbv zeta.
  unfold reserve_tx, bind, wrap, select_user_for_update, Now,
    select_sum_credit, select_sum_reserve, insert_reserve.
  rewrite stmt_run by apply Hs. cbn [fst snd].
  apply Z.ltb_lt in Hneg. rewrite Hneg.
  rewrite stmt_run by apply Hs. cbn [fst snd after_stmt working].
  unfold scan_int64 at 1.
  destruct (Int64.in_range (sum_credit (working st) userID));
    [|reflexivity].
  rewrite stmt_run by apply Hs. cbn [fst snd after_stmt working].
  unfold scan_int64 at 1.
  destruct (Int64.in_range
              (sum_reserve (working st) userID
                 (Format (Add (time_Now env) Minute)))); [|reflexivity].
  destruct (Int64.add _ _ <? 0); [reflexivity|].
  unfold ret. rewrite stmt_run by apply Hs. reflexivity.
Qed.

Lemma Reserve_negative env j db u :
  healthy env -> existing_user db (bank_id j) u ->
  Int64.in_range (price j) = true -> price j < 0 ->
  let fixed := sum_credit db (u_id u) in
  let reserved :=
    sum_reserve db (u_id u) (Format (Add (time_Now env) Minute)) in
  let out := Reserve env (POST j) db in
  if Int64.in_range fixed && Int64.in_range reserved then
    if Int64.add (Int64.add fixed reserved) (price j) <? 0 then
      resp out = Error "credit is insufficient" 200 /\ store out = db
    else
      resp out = {| status := 200;
                    body := Fprintln (ResReserved (Sprintf_d (reserve_seq db))) |} /\
      store out =
        with_reserve (u_id u) (price j)
          ("app:" ++ app_id j ++ ", price:" ++ Sprintf_d (price j))%string
          true (Format (time_Now env)) (Format (Add (time_Now env) Minute)) db
  else resp out = Error "internal server error" 500 /\ store out = db.
Proof.
  intros (Hb & Hc & Hd & Hs) Hu Hr Hneg. cbv zeta.
  unfold Reserve, POST, Decode_price. cbn [Method Body].
  cbn -[txScorp Int64.in_range Sprintf_d Minute Format Add Int64.add]. rewrite Hr.
  destruct (price j =? 0) eqn:E; [apply Z.eqb_eq in E; lia|].
  rewrite (filterBankID_existing env db _ u Hd Hu).
  destruct Hu as (_ & _ & Hpos).
  destruct (u_id u <=? 0) eqn:E2; [apply Z.leb_le in E2; lia|].
  unfold txScorp, returning. rewrite Hb.
  rewrite reserve_tx_negative by assumption. cbn [begin working].
  destruct (Int64.in_range (sum_credit db (u_id u))); cbn [andb].
  2:{ cbn [is_CreditIsInsufficient finish resp store fst snd].
      rewrite rollback_unwritten by reflexivity. split; reflexivity. }
  destruct (Int64.in_range
              (sum_reserve db (u_id u) (Format (Add (time_Now env) Minute))));
    cbn [andb].
  2:{ cbn [is_CreditIsInsufficient finish resp store fst snd].
      rewrite rollback_unwritten by reflexivity. split; reflexivity. }
  destruct (Int64.add _ _ <? 0).
  - cbn [is_CreditIsInsufficient finish resp store fst snd].
    rewrite rollback_unwritten by reflexivity. split; reflexivity.
  - rewrite Hc. split; reflexivity.
Qed.

Lemma wrap_in_range z : Int64.in_range z = true -> Int64.wrap z = z.
Proof.
  unfold Int64.in_range, Int64.min_int, Int64.max_int, Int64.wrap.
  intros H. apply andb_true_iff in H. destruct H as (Hlo & Hhi).
  apply Z.leb_le in Hlo. apply Z.leb_le in Hhi.
  rewrite Z.mod_small by lia. lia.
Qed.

Lemma in_range_bounds z :
  Int64.in_range z = true <-> Int64.min_int <= z <= Int64.max_int.
Proof.
  unfold Int64.in_range. rewrite andb_true_iff, !Z.leb_le. reflexivity.
Qed.

Lemma reserved_reply_is_not_insufficient id :
  {| status := 200; body := Fprintln (ResReserved id) |} <>
  Error "credit is insufficient" 200.
Proof. intros H. cbn in H. discriminate H. Qed.

Lemma internal_reply_is_not_insufficient :
  Error "internal server error" 500 <> Error "credit is insufficient" 200.
Proof. intros H. discriminate H. Qed.

(** C2 (as the code has it).  For a Reserve with a negative amount on an
    existing user, with [ledger_balance] the sum of the user's credit entries
    and [pending_withdrawal] the sum of the user's reservations with
    [is_minus = 1] and [expire_at >= now + 60s] (the expiry written for the
    new reservation, in whole seconds): the call answers HTTP 200 with the ng
    body "credit is insufficient" exactly when both sums fit [int64] and the
    sum [ledger_balance + pending_withdrawal + amount], computed with the
    wrap-around of [int64], is negative.  As long as no partial sum leaves
    the [int64] range this is the exact sum being negative.  When the call
    answers so, the store is unchanged: no reservation row is inserted. *)
Theorem Reserve_insufficient_iff_int64_sum_negative (env : Env) (j : json)
    (db : DB) (u : user_row) :
  healthy env -> existing_user db (bank_id j) u ->
  Int64.in_range (price j) = true -> price j < 0 ->
  let ledger_balance := sum_credit db (u_id u) in
  let pending_withdrawal :=
    sum_reserve db (u_id u) (Format (Add (time_Now env) Minute)) in
  let out := Reserve env (POST j) db in
  Format (Add (time_Now env) Minute) = Format (time_Now env) + 60 /\
  (resp out = Error "credit is insufficient" 200 <->
   Int64.in_range ledger_balance = true /\
   Int64.in_range pending_withdrawal = true /\
   Int64.add (Int64.add ledger_balance pending_withdrawal) (price j) < 0) /\
  (Int64.in_range ledger_balance = true ->
   Int64.in_range pending_withdrawal = true ->
   Int64.in_range (ledger_balance + pending_withdrawal) = true ->
   Int64.min_int <= ledger_balance + pending_withdrawal + price j ->
   (resp out = Error "credit is insufficient" 200 <->
    ledger_balance + pending_withdrawal + price j < 0)) /\
  (resp out = Error "credit is insufficient" 200 ->
   store out = db /\ status (resp out) = 200 /\
   body (resp out) = Fprintln (ResError "credit is insufficient")).
Proof.
  intros He Hu Hr Hneg. cbv zeta.
  pose proof (Reserve_negative env j db u He Hu Hr Hneg) as H. cbv zeta in H.
  set (fixed := sum_credit db (u_id u)) in *.
  set (reserved := sum_reserve db (u_id u) _) in *.
  set (out := Reserve env (POST j) db) in *.
  assert (Hiff : resp out = Error "credit is insufficient" 200 <->
                 Int64.in_range fixed = true /\
                 Int64.in_range reserved = true /\
                 Int64.add (Int64.add fixed reserved) (price j) < 0).
  { destruct (Int64.in_range fixed), (Int64.in_range reserved);
      cbn [andb] in H.
    - destruct (Z.ltb_spec (Int64.add (Int64.add fixed reserved) (price j)) 0)
        as [Hlt|Hge]; destruct H as (Hresp & _); rewrite Hresp.
      + split; [intros _; repeat split; exact Hlt | reflexivity].
      + split; [intros E; exfalso;
                  exact (reserved_reply_is_not_insufficient _ E)
               | intros (_ & _ & Hlt); lia].
    - destruct H as (-> & _). split;
        [intros E; exfalso; exact (internal_reply_is_not_insufficient E)
        | intros (_ & E & _); discriminate E].
    - destruct H as (-> & _). split;
        [intros E; exfalso; exact (internal_reply_is_not_insufficient E)
        | intros (E & _); discriminate E].
    - destruct H as (-> & _). split;
        [intros E; exfalso; exact (internal_reply_is_not_insufficient E)
        | intros (E & _); discriminate E]. }
  split; [apply Format_Add_Minute|]. split; [exact Hiff|]. split.
  - intros Hf Hp Hfp Hlow. rewrite Hiff.
    unfold Int64.add. rewrite (wrap_in_range _ Hfp).
    assert (Htot : Int64.in_range (fixed + reserved + price j) = true).
    { apply in_range_bounds. apply in_range_bounds in Hfp. lia. }
    rewrite (wrap_in_range _ Htot). tauto.
  - intros E. apply Hiff in E. destruct E as (Hf & Hp & Hlt).
    rewrite Hf, Hp in H. cbn [andb] in H.
    apply Z.ltb_lt in Hlt. rewrite Hlt in H. destruct H as (-> & ->).
    repeat split.
Qed.

Lemma overdrawn_user_exists : existing_user overdrawn_db "a" overdrawn_user.
Proof. split; [discriminate|]. split; reflexivity. Qed.

(** C2 as stated fails where the [int64] sum wraps: on [overdrawn_db] the
    exact sum of ledger balance, pending withdrawal and amount is negative,
    yet a Reserve of -2 is not refused and inserts its reservation. *)
Lemma Reserve_exact_sum_counterexample :
  ~ (resp (Reserve (calm 200) (POST (with_bank "a" (-2))) overdrawn_db) =
       Error "credit is insufficient" 200 <->
     sum_credit overdrawn_db 1 +
       sum_reserve overdrawn_db 1 (Format (Add (time_Now (calm 200)) Minute)) +
       (-2) < 0) /\
  existing_user overdrawn_db "a" overdrawn_user /\
  sum_credit overdrawn_db 1 +
    sum_reserve overdrawn_db 1 (Format (Add (time_Now (calm 200)) Minute)) +
    (-2) < 0 /\
  resp (Reserve (calm 200) (POST (with_bank "a" (-2))) overdrawn_db) <>
    Error "credit is insufficient" 200 /\
  List.length
    (tbl_reserve
       (store (Reserve (calm 200) (POST (with_bank "a" (-2))) overdrawn_db))) =
  S (List.length (tbl_reserve overdrawn_db)).
Proof.
  assert (Hnot : resp (Reserve (calm 200) (POST (with_bank "a" (-2)))
                         overdrawn_db) <>
                 Error "credit is insufficient" 200).
  { vm_compute. intros H. discriminate H. }
  split; [|split; [exact overdrawn_user_exists|]].
  - intros (_ & Hback). apply Hnot. apply Hback. reflexivity.
  - split; [reflexivity|]. split; [exact Hnot | reflexivity].
Qed.

Lemma Reserve_insufficient_iff_int64_sum_negative_witness :
  resp (Reserve (calm 150) (POST (with_bank "a" (-1400))) funded_db) =
    Error "credit is insufficient" 200 <->
  sum_credit funded_db 1 +
    sum_reserve funded_db 1 (Format (Add (time_Now (calm 150)) Minute)) +
    (-1400) < 0.
Proof.
  apply (Reserve_insufficient_iff_int64_sum_negative (calm 150)
           (with_bank "a" (-1400)) funded_db funded_user (healthy_calm 150)
           funded_user_exists eq_refl eq_refl); reflexivity || (vm_compute; discriminate).
Defined.

(** ** The cache invariant *)

Lemma seqs_follow_refl db : seqs_follow db db.
Proof. split; [reflexivity | apply Z.le_refl]. Qed.

Lemma seqs_follow_trans a b c :
  seqs_follow a b -> seqs_follow b c -> seqs_follow a c.
Proof. intros (H1 & H2) (H3 & H4). split; [congruence | lia]. Qed.

Lemma steady_ret {A} (a : A) : seq_steady (ret a).
Proof. intros env st r st' H. inversion H. apply seqs_follow_refl. Qed.

Lemma steady_fail {A} (e : error) : seq_steady (@fail A e).
Proof. intros env st r st' H. inversion H. apply seqs_follow_refl. Qed.

Lemma steady_Now : seq_steady Now.
Proof. intros env st r st' H. inversion H. apply seqs_follow_refl. Qed.

Lemma steady_stmt {A} (run : Env -> DB -> result A * DB * event) :
  (forall env db, seqs_follow db (snd (fst (run env db)))) ->
  seq_steady (stmt run).
Proof.
  intros Hrun env st r st'. unfold stmt.
  destruct (stmt_fails env (executed st)).
  - intros H. inversion H. apply seqs_follow_refl.
  - specialize (Hrun env (working st)).
    destruct (run env (working st)) as [[r0 db'] ev].
    intros H. inversion H. exact Hrun.
Qed.

Lemma steady_wrap {A} msg (m : Tx A) : seq_steady m -> seq_steady (wrap msg m).
Proof.
  intros Hm env st r st'. unfold wrap.
  destruct (m env st) as [[a|e] st1] eqn:E; intros H; inversion H; subst;
    eapply Hm; eassumption.
Qed.

Lemma steady_bind {A B} (m : Tx A) (k : A -> Tx B) :
  seq_steady m -> (forall a, seq_steady (k a)) -> seq_steady (bind m k).
Proof.
  intros Hm Hk env st r st'. unfold bind.
  destruct (m env st) as [[a|e] st1] eqn:E; intros H.
  - eapply seqs_follow_trans; [eapply Hm | eapply Hk]; eassumption.
  - inversion H; subst. eapply Hm; eassumption.
Qed.

Lemma steady_for_each {A} (xs : list A) (body : A -> Tx unit) :
  (forall x, seq_steady (body x)) -> seq_steady (for_each xs body).
Proof.
  intros Hb. induction xs as [|x rest IH]; cbn.
  - apply steady_ret.
  - apply steady_bind; [apply Hb | intros _; exact IH].
Qed.

Ltac steady_tac :=
  repeat first
    [ apply steady_bind; [| intros ? ]
    | apply steady_wrap
    | apply steady_stmt; intros; split; cbn; [reflexivity | lia]
    | apply steady_ret
    | apply steady_fail
    | apply steady_Now
    | apply steady_for_each; intros ?
    | match goal with |- seq_steady (if ?c then _ else _) =>
        destruct c end ].

Lemma steady_modyfyCredit userID price memo :
  seq_steady (modyfyCredit userID price memo).
Proof.
  unfold modyfyCredit, insert_credit, select_sum_credit, update_user_credit.
  steady_tac.
Qed.

Lemma steady_add_credit_tx userID price :
  seq_steady (add_credit_tx userID price).
Proof.
  unfold add_credit_tx, select_user_for_update. steady_tac.
Qed.

Lemma steady_check_tx userID price : seq_steady (check_tx userID price).
Proof. unfold check_tx, select_credit_for_update. steady_tac. Qed.

Lemma steady_reserve_tx userID price memo :
  seq_steady (reserve_tx userID price memo).
Proof.
  unfold reserve_tx, select_user_for_update, select_sum_credit,
    select_sum_reserve, insert_reserve. steady_tac.
Qed.

Lemma steady_commit_apply ids rows : seq_steady (commit_apply ids rows).
Proof.
  unfold commit_apply, select_users_for_update, delete_reserve. steady_tac.
Qed.

Lemma steady_cancel_apply ids rows : seq_steady (cancel_apply ids rows).
Proof.
  unfold cancel_apply, select_users_for_update, delete_reserve. steady_tac.
Qed.

Lemma sum_Z_app (a b : list Z) : sum_Z (a ++ b) = sum_Z a + sum_Z b.
Proof.
  unfold sum_Z. induction a as [|x a IH]; cbn [app fold_right];
    [reflexivity | rewrite IH; lia].
Qed.

Lemma sum_credit_same_ledger (a b : DB) (userID : Z) :
  tbl_credit a = tbl_credit b -> sum_credit a userID = sum_credit b userID.
Proof. unfold sum_credit. intros ->. reflexivity. Qed.

Lemma sum_credit_with_credit_other userID price memo now db v :
  v <> userID ->
  sum_credit (with_credit userID price memo now db) v = sum_credit db v.
Proof.
  intros Hne. unfold sum_credit, with_credit. cbn [tbl_credit].
  rewrite filter_app, map_app, sum_Z_app. cbn [filter c_user_id].
  destruct (userID =? v) eqn:E; [apply Z.eqb_eq in E; congruence|].
  cbn. lia.
Qed.

Lemma sum_credit_unknown_user db v :
  (forall c, In c (tbl_credit db) -> 0 < c_user_id c < v) ->
  sum_credit db v = 0.
Proof.
  intros H. unfold sum_credit.
  induction (tbl_credit db) as [|c l IH]; [reflexivity|]. cbn [filter].
  destruct (c_user_id c =? v) eqn:E.
  - apply Z.eqb_eq in E. specialize (H c (or_introl eq_refl)). lia.
  - apply IH. intros c' Hin. apply H. right. exact Hin.
Qed.

Lemma set_credit_id credit userID u : u_id (set_credit credit userID u) = u_id u.
Proof. unfold set_credit. destruct (u_id u =? userID); reflexivity. Qed.

Lemma consistent_ext (a b : DB) :
  same_tables a b -> seqs_follow b a -> consistent b -> consistent a.
Proof.
  intros (Hu & Hc & Hr) (Hs & Hrs) [Hpos Huk Hrk Hrn Hub Hcb Hrb Hcache].
  constructor; unfold user_keys, reserve_keys;
    rewrite ?Hu, ?Hc, ?Hr, ?Hs; try assumption.
  - intros r Hin. specialize (Hrn r Hin). lia.
  - intros u Hin. rewrite Hu in Hin.
    rewrite (sum_credit_same_ledger a b _ Hc). apply Hcache. exact Hin.
Qed.

Lemma map_set_credit_ids credit userID (l : list user_row) :
  map u_id (map (set_credit credit userID) l) = map u_id l.
Proof.
  rewrite map_map. apply map_ext. intros u. apply set_credit_id.
Qed.

Lemma NoDup_snoc_fresh (l : list Z) (x : Z) :
  NoDup l -> (forall y, In y l -> y < x) -> NoDup (l ++ [x]).
Proof.
  intros Hnd Hlt. apply NoDup_app; [exact Hnd | repeat constructor; intros [] |].
  intros y Hy [<-|[]]. specialize (Hlt _ Hy). lia.
Qed.

Lemma consistent_applied userID price memo now db :
  consistent db -> 0 < userID < user_seq db ->
  consistent (applied userID price memo now db).
Proof.
  intros [Hpos Huk Hrk Hrn Hub Hcb Hrb Hcache] Hid. unfold applied.
  constructor; unfold user_keys, reserve_keys;
    cbn [with_user_credit with_credit user_seq reserve_seq tbl_user
         tbl_credit tbl_reserve].
  - exact Hpos.
  - rewrite map_set_credit_ids. exact Huk.
  - exact Hrk.
  - exact Hrn.
  - intros u Hin. apply in_map_iff in Hin. destruct Hin as (v & <- & Hv).
    rewrite set_credit_id. apply Hub. exact Hv.
  - intros c Hin. apply in_app_or in Hin. destruct Hin as [Hin|[<-|[]]].
    + apply Hcb. exact Hin.
    + exact Hid.
  - exact Hrb.
  - intros u Hin. cbn [with_user_credit tbl_user] in Hin.
    apply in_map_iff in Hin. destruct Hin as (v & <- & Hv).
    rewrite set_credit_id.
    change (sum_credit _ (u_id v))
      with (sum_credit (with_credit userID price memo now db) (u_id v)).
    unfold set_credit. destruct (u_id v =? userID) eqn:E.
    + apply Z.eqb_eq in E. cbn [u_credit]. rewrite E. reflexivity.
    + apply Z.eqb_neq in E. rewrite sum_credit_with_credit_other by exact E.
      apply Hcache. exact Hv.
Qed.

Lemma user_seq_applied userID price memo now db :
  user_seq (applied userID price memo now db) = user_seq db.
Proof. reflexivity. Qed.

Lemma consistent_applied_all rows now db :
  consistent db ->
  (forall r, In r rows -> 0 < r_user_id r < user_seq db) ->
  consistent (applied_all rows now db).
Proof.
  revert db. induction rows as [|r rows IH]; intros db Hc Hrows.
  - exact Hc.
  - rewrite applied_all_cons. apply IH.
    + apply consistent_applied; [exact Hc|]. apply Hrows. left. reflexivity.
    + intros r' Hin. rewrite user_seq_applied. apply Hrows. right. exact Hin.
Qed.

Lemma consistent_without_reserve ids db :
  consistent db -> consistent (without_reserve ids db).
Proof.
  intros [Hpos Huk Hrk Hrn Hub Hcb Hrb Hcache]. constructor; try assumption.
  - unfold reserve_keys. cbn [without_reserve tbl_reserve].
    apply NoDup_map_filter. exact Hrk.
  - intros r Hin. cbn in Hin. apply filter_In in Hin. apply Hrn. apply Hin.
  - intros r Hin. cbn in Hin. apply filter_In in Hin. apply Hrb. apply Hin.
Qed.

Lemma consistent_with_reserve userID price memo isMinus created expire db :
  consistent db -> 0 < userID < user_seq db ->
  consistent (with_reserve userID price memo isMinus created expire db).
Proof.
  intros [Hpos Huk Hrk Hrn Hub Hcb Hrb Hcache] Hid.
  constructor; try assumption.
  - unfold reserve_keys. cbn [with_reserve tbl_reserve].
    rewrite map_app. cbn [map r_id]. apply NoDup_snoc_fresh; [exact Hrk|].
    intros y Hy. apply in_map_iff in Hy. destruct Hy as (r & <- & Hr).
    apply Hrn. exact Hr.
  - intros r Hin. cbn in Hin. apply in_app_or in Hin.
    cbn [with_reserve reserve_seq].
    destruct Hin as [Hin|[<-|[]]]; [specialize (Hrn r Hin); lia | cbn; lia].
  - intros r Hin. cbn in Hin. apply in_app_or in Hin.
    destruct Hin as [Hin|[<-|[]]]; [apply Hrb; exact Hin | exact Hid].
Qed.

Lemma consistent_rollback st :
  consistent (committed st) ->
  seqs_follow (committed st) (working st) ->
  consistent (rollback st).
Proof.
  intros Hc Hs. apply (consistent_ext _ (committed st)); try assumption.
  apply rollback_same_tables.
Qed.

Lemma consistent_empty : consistent empty_db.
Proof.
  constructor; unfold user_keys, reserve_keys; cbn; try lia;
    try constructor; intros ? [].
Qed.

Lemma consistent_insert_user env bank db :
  consistent db -> consistent (snd (insert_user env bank db)).
Proof.
  intros Hc. pose proof Hc as [Hpos Huk Hrk Hrn Hub Hcb Hrb Hcache].
  unfold insert_user.
  destruct (direct_fails env); [exact Hc|].
  destruct (existsb _ _); cbn [snd].
  - constructor; try assumption; cbn; try lia.
    + intros u Hin. specialize (Hub u Hin). lia.
    + intros c Hin. specialize (Hcb c Hin). lia.
    + intros r Hin. specialize (Hrb r Hin). lia.
  - constructor; try assumption;
      cbn [user_seq reserve_seq tbl_user tbl_credit tbl_reserve]; try lia.
    + unfold user_keys. cbn [tbl_user]. rewrite map_app. cbn [map u_id].
      apply NoDup_snoc_fresh; [exact Huk|].
      intros y Hy. apply in_map_iff in Hy. destruct Hy as (v & <- & Hv).
      apply Hub. exact Hv.
    + intros u Hin. apply in_app_or in Hin. destruct Hin as [Hin|[<-|[]]].
      * specialize (Hub u Hin). lia.
      * cbn. lia.
    + intros c Hin. specialize (Hcb c Hin). lia.
    + intros r Hin. specialize (Hrb r Hin). lia.
    + intros u Hin. apply in_app_or in Hin. destruct Hin as [Hin|[<-|[]]].
      * rewrite (sum_credit_same_ledger _ db) by reflexivity.
        apply Hcache. exact Hin.
      * cbn [u_credit u_id].
        rewrite (sum_credit_same_ledger _ db) by reflexivity.
        rewrite sum_credit_unknown_user by exact Hcb. reflexivity.
Qed.

Lemma filterBankID_known env db bank :
  (fst (filterBankID env db bank) <=? 0) = false ->
  exists u, In u (tbl_user db) /\ u_id u = fst (filterBankID env db bank).
Proof.
  unfold filterBankID. destruct (bank =? EmptyString)%string; [discriminate|].
  destruct (direct_fails env); [discriminate|].
  destruct (find _ (tbl_user db)) as [u|] eqn:E; [|discriminate].
  intros _. exists u. split; [|reflexivity].
  apply find_some in E. apply E.
Qed.

Lemma txScorp_plain_consistent {A} (m : Tx A) env db :
  keeps_committed m -> seq_steady m ->
  (forall a st, m env (begin db) = (Ok a, st) -> consistent (working st)) ->
  consistent db ->
  consistent (snd (fst (txScorp (returning m) env db))).
Proof.
  intros Hk Hs Hok Hc. unfold txScorp, returning.
  destruct (begin_fails env); [exact Hc|].
  destruct (m env (begin db)) as [[a|e] st] eqn:E.
  - destruct (commit_fails env); cbn [fst snd].
    + apply consistent_rollback.
      * rewrite (Hk _ _ _ _ E). exact Hc.
      * rewrite (Hk _ _ _ _ E). apply (Hs _ _ _ _ E).
    + eapply Hok. reflexivity.
  - cbn [fst snd]. apply consistent_rollback.
    + rewrite (Hk _ _ _ _ E). exact Hc.
    + rewrite (Hk _ _ _ _ E). apply (Hs _ _ _ _ E).
Qed.

(** A terminal script is a count, a check of the count, the window left to
    other transactions and a remainder without window. *)
Lemma terminal_script_anchor {A} (count : Tx nat) (short : nat -> bool)
    (e : error) (rest : Tx A) env st r st' :
  (forall env st r st', count env st = (r, st') ->
     committed st' = committed st /\ working st' = working st) ->
  keeps_committed rest -> seq_steady rest ->
  working st = committed st ->
  (n <- count ;; if short n then fail e else interleave ;;; rest) env st
    = (r, st') ->
  (committed st' = committed st /\
   seqs_follow (committed st) (working st')) \/
  (committed st' = concurrent env (committed st) /\
   seqs_follow (concurrent env (committed st)) (working st')).
Proof.
  intros Hcount Hk Hs Hw. unfold bind.
  destruct (count env st) as [[n|e0] st1] eqn:E;
    destruct (Hcount _ _ _ _ E) as (Hc1 & Hw1).
  - destruct (short n).
    + intros H. inversion H; subst. left. rewrite Hc1, Hw1, Hw.
      split; [reflexivity | apply seqs_follow_refl].
    + unfold interleave. intros H. right.
      rewrite (Hk _ _ _ _ H). cbn [committed].
      rewrite Hc1. split; [reflexivity|].
      pose proof (Hs _ _ _ _ H) as Hf. cbn [working] in Hf.
      rewrite Hw1, Hw in Hf. exact Hf.
  - intros H. inversion H; subst. left. rewrite Hc1, Hw1, Hw.
    split; [reflexivity | apply seqs_follow_refl].
Qed.

Lemma count_reads {A} msg (run : Env -> DB -> result A * DB * event) :
  (forall env db, snd (fst (run env db)) = db) ->
  forall env st r st', wrap msg (stmt run) env st = (r, st') ->
    committed st' = committed st /\ working st' = working st.
Proof.
  intros Hrun env st r st'. unfold wrap, stmt.
  destruct (stmt_fails env (executed st)).
  - intros H. inversion H. split; reflexivity.
  - specialize (Hrun env (working st)).
    destruct (run env (working st)) as [[[a|e] db'] ev]; cbn in Hrun;
      intros H; inversion H; subst; split; reflexivity.
Qed.

Lemma commit_tx_anchor ids env db r st :
  commit_tx ids env (begin db) = (r, st) ->
  (committed st = db /\ seqs_follow db (working st)) \/
  (committed st = concurrent env db /\
   seqs_follow (concurrent env db) (working st)).
Proof.
  intros H.
  refine (terminal_script_anchor
            (wrap "count reserve failed" (select_count_reserve_live ids))
            (fun count => (count <? List.length ids)%nat)
            ReserveIsExpires _ env (begin db) r st _ _ _ eq_refl H).
  - apply count_reads. reflexivity.
  - unfold select_reserve_for_update, select_users_for_update, delete_reserve.
    keeps_tac.
  - unfold select_reserve_for_update, select_users_for_update, delete_reserve.
    steady_tac.
Qed.

Lemma cancel_tx_anchor ids env db r st :
  cancel_tx ids env (begin db) = (r, st) ->
  (committed st = db /\ seqs_follow db (working st)) \/
  (committed st = concurrent env db /\
   seqs_follow (concurrent env db) (working st)).
Proof.
  intros H.
  refine (terminal_script_anchor
            (wrap "count reserve failed" (select_count_reserve ids))
            (fun count => (count <? List.length ids)%nat)
            ReserveIsAlreadyCommited _ env (begin db) r st _ _ _ eq_refl H).
  - apply count_reads. reflexivity.
  - unfold select_reserve_for_update, select_users_for_update, delete_reserve.
    keeps_tac.
  - unfold select_reserve_for_update, select_users_for_update, delete_reserve.
    steady_tac.
Qed.

Lemma add_credit_tx_Ok userID price env st st' u :
  add_credit_tx userID price env st = (Ok u, st') ->
  working st' = applied userID price "by add credit API" (NOW env) (working st).
Proof.
  unfold add_credit_tx, select_user_for_update. intros H. tx_inv.
  apply modyfyCredit_Ok in H. destruct H as (_ & -> & _). reflexivity.
Qed.

Lemma check_tx_Ok userID price env st st' u :
  check_tx userID price env st = (Ok u, st') -> working st' = working st.
Proof.
  unfold check_tx, select_credit_for_update. intros H. tx_inv.
  match goal with H : (if ?c then _ else _) _ _ = _ |- _ =>
    destruct c; tx_inv end.
  reflexivity.
Qed.

Lemma solvency_check_Ok userID price expire env st st' u :
  (if price <? 0 then
     fixed <- wrap "calc credit failed" (select_sum_credit userID) ;;
     reserved <- wrap "calc reserve failed"
                   (select_sum_reserve userID expire) ;;
     if Int64.add (Int64.add fixed reserved) price <? 0
     then fail CreditIsInsufficient else ret tt
   else ret tt) env st = (Ok u, st') ->
  working st' = working st.
Proof.
  unfold select_sum_credit, select_sum_reserve.
  destruct (price <? 0); intros H; tx_inv; [|reflexivity].
  match goal with H : (if ?c then _ else _) _ _ = _ |- _ =>
    destruct c; tx_inv end.
  reflexivity.
Qed.

Lemma reserve_tx_Ok userID price memo env st st' id :
  reserve_tx userID price memo env st = (Ok id, st') ->
  working st' =
  with_reserve userID price memo (price <? 0) (Format (time_Now env))
    (Format (Add (time_Now env) Minute)) (working st).
Proof.
  unfold reserve_tx, select_user_for_update, insert_reserve, Now.
  intros H.
  apply bind_Ok in H. destruct H as (u1 & st1 & H1 & H).
  apply wrap_Ok, stmt_Ok in H1. destruct H1 as (_ & _ & ->).
  apply bind_Ok in H. destruct H as (now & st2 & H2 & H).
  inversion H2; subst now st2; clear H2.
  apply bind_Ok in H. destruct H as (u3 & st3 & H3 & H).
  apply solvency_check_Ok in H3.
  apply wrap_Ok, stmt_Ok in H. destruct H as (_ & _ & ->).
  cbn [fst snd after_stmt working] in *. rewrite H3. reflexivity.
Qed.

Lemma Register_consistent env r db :
  consistent db -> consistent (store (Register env r db)).
Proof.
  intros Hc. unfold Register.
  destruct (negb (Method r =? "POST")%string); [exact Hc|].
  destruct (Body r) as [req|]; [|exact Hc].
  destruct (bank_id req =? EmptyString)%string; [exact Hc|].
  pose proof (consistent_insert_user env (bank_id req) db Hc) as H.
  destruct (insert_user env (bank_id req) db) as [[u|e] db']; cbn [snd] in H;
    [exact H|].
  destruct e; try exact H. destruct number; try exact H.
  repeat match goal with
         | |- context [match ?p with xI _ => _ | xO _ => _ | xH => _ end] =>
             destruct p; try exact H
         end.
Qed.

Lemma AddCredit_consistent env r db :
  consistent db -> consistent (store (AddCredit env r db)).
Proof.
  intros Hc. unfold AddCredit.
  destruct (negb (Method r =? "POST")%string); [exact Hc|].
  destruct (Decode_price r) as [req|]; [|exact Hc].
  destruct (price req <=? 0); [exact Hc|].
  pose proof (filterBankID_known env db (bank_id req)) as Hknown.
  destruct (filterBankID env db (bank_id req)) as [userID w].
  cbn [fst] in Hknown.
  destruct (userID <=? 0); [exact Hc|].
  destruct (Hknown eq_refl) as (u & Hin & Hid).
  pose proof (txScorp_plain_consistent (add_credit_tx userID (price req)) env
                db (keeps_add_credit_tx _ _) (steady_add_credit_tx _ _)) as H.
  destruct (txScorp (returning (add_credit_tx userID (price req))) env db)
    as [[err db'] tr]. cbn [fst snd] in H.
  assert (G : consistent db').
  { apply H; [|exact Hc]. intros a st Hrun.
    apply add_credit_tx_Ok in Hrun. rewrite Hrun. cbn [begin working].
    apply consistent_applied; [exact Hc|].
    rewrite <- Hid. apply (users_below db Hc). exact Hin. }
  destruct err; exact G.
Qed.

Lemma Check_consistent env r db :
  consistent db -> consistent (store (Check env r db)).
Proof.
  intros Hc. unfold Check.
  destruct (negb (Method r =? "POST")%string); [exact Hc|].
  destruct (Decode_price r) as [req|]; [|exact Hc].
  destruct (price req <=? 0); [exact Hc|].
  destruct (filterBankID env db (bank_id req)) as [userID w].
  destruct (userID <=? 0); [exact Hc|].
  pose proof (txScorp_plain_consistent (check_tx userID (price req)) env
                db (keeps_check_tx _ _) (steady_check_tx _ _)) as H.
  destruct (txScorp (returning (check_tx userID (price req))) env db)
    as [[err db'] tr]. cbn [fst snd] in H.
  assert (G : consistent db').
  { apply H; [|exact Hc]. intros a st Hrun.
    apply check_tx_Ok in Hrun. rewrite Hrun. exact Hc. }
  destruct err as [a|e]; [exact G|].
  destruct (is_CreditIsInsufficient e); exact G.
Qed.

Lemma Reserve_consistent env r db :
  consistent db -> consistent (store (Reserve env r db)).
Proof.
  intros Hc. unfold Reserve.
  destruct (negb (Method r =? "POST")%string); [exact Hc|].
  destruct (Decode_price r) as [req|]; [|exact Hc].
  destruct (price req =? 0); [exact Hc|].
  pose proof (filterBankID_known env db (bank_id req)) as Hknown.
  destruct (filterBankID env db (bank_id req)) as [userID w].
  cbn [fst] in Hknown.
  destruct (userID <=? 0); [exact Hc|].
  destruct (Hknown eq_refl) as (u & Hin & Hid).
  set (memo := ("app:" ++ app_id req ++ ", price:" ++
                Sprintf_d (price req))%string).
  pose proof (txScorp_plain_consistent
                (reserve_tx userID (price req) memo) env
                db (keeps_reserve_tx _ _ _) (steady_reserve_tx _ _ _)) as H.
  destruct (txScorp (returning (reserve_tx userID (price req) memo)) env db)
    as [[err db'] tr]. cbn [fst snd] in H.
  assert (G : consistent db').
  { apply H; [|exact Hc]. intros a st Hrun.
    apply reserve_tx_Ok in Hrun. rewrite Hrun. cbn [begin working].
    apply consistent_with_reserve; [exact Hc|].
    rewrite <- Hid. apply (users_below db Hc). exact Hin. }
  destruct err as [a|e]; [exact G|].
  destruct (is_CreditIsInsufficient e); exact G.
Qed.

Lemma anchored_rollback_consistent env db st :
  respects env -> consistent db ->
  (committed st = db /\ seqs_follow db (working st)) \/
  (committed st = concurrent env db /\
   seqs_follow (concurrent env db) (working st)) ->
  consistent (rollback st).
Proof.
  intros Hr Hc [(Hco & Hs)|(Hco & Hs)]; apply consistent_rollback;
    rewrite Hco; try assumption.
  apply Hr. exact Hc.
Qed.

Lemma Commit_consistent env r db :
  respects env -> consistent db -> consistent (store (Commit env r db)).
Proof.
  intros Hr Hc. unfold Commit.
  destruct (negb (Method r =? "POST")%string); [exact Hc|].
  destruct (Decode_ids r) as [req|]; [|exact Hc].
  destruct (List.length (reserve_ids req) =? 0)%nat; [exact Hc|].
  assert (G : consistent
                (snd (fst (txScorp (returning (commit_tx (reserve_ids req)))
                             env db)))).
  { unfold txScorp, returning. destruct (begin_fails env); [exact Hc|].
    destruct (commit_tx (reserve_ids req) env (begin db)) as [[a|e] st] eqn:E.
    - destruct (commit_fails env); cbn [fst snd].
      + eapply anchored_rollback_consistent; eauto using commit_tx_anchor.
      + apply commit_tx_Ok in E. cbn [begin working] in E.
        destruct E as (_ & _ & -> & _).
        apply consistent_without_reserve, consistent_applied_all.
        * apply Hr. exact Hc.
        * intros row Hin. apply (reserve_below _ (Hr db Hc)).
          unfold reserve_in in Hin. apply filter_In in Hin. apply Hin.
    - cbn [fst snd].
      eapply anchored_rollback_consistent; eauto using commit_tx_anchor. }
  destruct (txScorp (returning (commit_tx (reserve_ids req))) env db)
    as [[err db'] tr]. rewrite terminal_reply_store. exact G.
Qed.

Lemma Cancel_consistent env r db :
  respects env -> consistent db -> consistent (store (Cancel env r db)).
Proof.
  intros Hr Hc. unfold Cancel.
  destruct (negb (Method r =? "POST")%string); [exact Hc|].
  destruct (Decode_ids r) as [req|]; [|exact Hc].
  destruct (List.length (reserve_ids req) =? 0)%nat; [exact Hc|].
  assert (G : consistent
                (snd (fst (txScorp (returning (cancel_tx (reserve_ids req)))
                             env db)))).
  { unfold txScorp, returning. destruct (begin_fails env); [exact Hc|].
    destruct (cancel_tx (reserve_ids req) env (begin db)) as [[a|e] st] eqn:E.
    - destruct (commit_fails env); cbn [fst snd].
      + eapply anchored_rollback_consistent; eauto using cancel_tx_anchor.
      + apply cancel_tx_Ok in E. cbn [begin working] in E.
        destruct E as (_ & _ & -> & _).
        apply consistent_without_reserve. apply Hr. exact Hc.
    - cbn [fst snd].
      eapply anchored_rollback_consistent; eauto using cancel_tx_anchor. }
  destruct (txScorp (returning (cancel_tx (reserve_ids req))) env db)
    as [[err db'] tr]. rewrite terminal_reply_store. exact G.
Qed.

Lemma serve_consistent rt env r db :
  respects env -> consistent db -> consistent (store (serve rt env r db)).
Proof.
  intros Hr Hc. destruct rt; cbn [serve].
  - apply Register_consistent; assumption.
  - apply AddCredit_consistent; assumption.
  - apply Check_consistent; assumption.
  - apply Reserve_consistent; assumption.
  - apply Commit_consistent; assumption.
  - apply Cancel_consistent; assumption.
Qed.

Lemma reachable_consistent db : reachable db -> consistent db.
Proof.
  induction 1 as [|rt env r db Hr _ IH].
  - apply consistent_empty.
  - apply serve_consistent; assumption.
Qed.

Lemma respects_calm t : respects (calm t).
Proof. intros db H. exact H. Qed.

Lemma reachable_well_keyed db :
  reachable db ->
  user_keys db /\ reserve_keys db /\
  forall u, In u (tbl_user db) -> 0 < u_id u.
Proof.
  intros H. apply reachable_consistent in H.
  destruct H as [_ Huk Hrk _ Hub _ _ _].
  repeat split; try assumption. intros u Hin. apply Hub. exact Hin.
Qed.

Lemma txScorp_plain {A} (m : Tx A) (env : Env) (db : DB) :
  keeps_committed m ->
  match txScorp (returning m) env db with
  | (Ok a, db', _) =>
      exists st, m env (begin db) = (Ok a, st) /\ db' = working st
  | (Fail e, db', _) => same_tables db' db
  end.
Proof.
  intros Hk. unfold txScorp, returning.
  destruct (begin_fails env); [apply same_tables_refl|].
  destruct (m env (begin db)) as [[a|e] st] eqn:E.
  - destruct (commit_fails env).
    + unfold same_tables, rollback. cbn.
      rewrite (Hk _ _ _ _ E). repeat split.
    + exists st. split; reflexivity.
  - unfold same_tables, rollback. cbn. rewrite (Hk _ _ _ _ E). repeat split.
Qed.

(** Check and Reserve write neither the ledger nor a user row. *)
Lemma Check_Reserve_leave_ledger env r db :
  (tbl_user (store (Check env r db)) = tbl_user db /\
   tbl_credit (store (Check env r db)) = tbl_credit db) /\
  (tbl_user (store (Reserve env r db)) = tbl_user db /\
   tbl_credit (store (Reserve env r db)) = tbl_credit db).
Proof.
  split.
  - unfold Check.
    destruct (negb (Method r =? "POST")%string); [split; reflexivity|].
    destruct (Decode_price r) as [req|]; [|split; reflexivity].
    destruct (price req <=? 0); [split; reflexivity|].
    destruct (filterBankID env db (bank_id req)) as [userID w].
    destruct (userID <=? 0); [split; reflexivity|].
    pose proof (txScorp_plain (check_tx userID (price req)) env db
                  (keeps_check_tx _ _)) as H.
    destruct (txScorp (returning (check_tx userID (price req))) env db)
      as [[[a|e] db'] tr].
    + destruct H as (st & Hrun & ->). apply check_tx_Ok in Hrun.
      cbn. rewrite Hrun. split; reflexivity.
    + destruct (is_CreditIsInsufficient e); cbn; split; apply H.
  - unfold Reserve.
    destruct (negb (Method r =? "POST")%string); [split; reflexivity|].
    destruct (Decode_price r) as [req|]; [|split; reflexivity].
    destruct (price req =? 0); [split; reflexivity|].
    destruct (filterBankID env db (bank_id req)) as [userID w].
    destruct (userID <=? 0); [split; reflexivity|].
    set (memo := ("app:" ++ app_id req ++ ", price:" ++
                  Sprintf_d (price req))%string).
    pose proof (txScorp_plain (reserve_tx userID (price req) memo) env db
                  (keeps_reserve_tx _ _ _)) as H.
    destruct (txScorp (returning (reserve_tx userID (price req) memo)) env db)
      as [[[a|e] db'] tr].
    + destruct H as (st & Hrun & ->). apply reserve_tx_Ok in Hrun.
      cbn -[Sprintf_d]. rewrite Hrun. split; reflexivity.
    + destruct (is_CreditIsInsufficient e); cbn; split; apply H.
Qed.

Lemma respects_racing t : respects (racing t).
Proof.
  intros db H. cbn [racing concurrent].
  apply Cancel_consistent; [apply respects_calm | exact H].
Qed.


Lemma reachable_replay script t db :
  reachable db -> reachable (replay script t db).
Proof.
  revert t db. induction script as [|[rt j] rest IH]; intros t db H; cbn.
  - exact H.
  - apply IH. apply reach_serve; [apply respects_calm | exact H].
Qed.


(** * Further properties of the handlers *)

(** ** Register and the lookup of bank ids *)

Lemma find_unknown_bank db bank :
  unknown_bank db bank ->
  find (fun u => (u_bank_id u =? bank)%string) (tbl_user db) = None.
Proof.
  unfold unknown_bank. induction (tbl_user db) as [|u l IH]; intros H;
    [reflexivity|]. cbn [find].
  destruct (u_bank_id u =? bank)%string eqn:E.
  - apply String.eqb_eq in E. exfalso. apply (H u); [left; reflexivity | exact E].
  - apply IH. intros v Hv. apply H. right. exact Hv.
Qed.

Lemma existsb_unknown_bank db bank :
  unknown_bank db bank ->
  existsb (fun u => (u_bank_id u =? bank)%string) (tbl_user db) = false.
Proof.
  intros H. destruct (existsb _ _) eqn:E; [|reflexivity].
  apply existsb_exists in E. destruct E as (u & Hin & Hu).
  apply String.eqb_eq in Hu. exfalso. exact (H u Hin Hu).
Qed.

Lemma existsb_known_bank db bank u :
  In u (tbl_user db) -> u_bank_id u = bank ->
  existsb (fun v => (u_bank_id v =? bank)%string) (tbl_user db) = true.
Proof.
  intros Hin Hu. apply existsb_exists. exists u. split; [exact Hin|].
  apply String.eqb_eq. exact Hu.
Qed.

Lemma find_snoc_new {R} (f : R -> bool) (l : list R) (x : R) :
  find f l = None -> f x = true -> find f (l ++ [x]) = Some x.
Proof.
  induction l as [|y l IH]; cbn [find app]; intros Hl Hx.
  - rewrite Hx. reflexivity.
  - destruct (f y); [discriminate Hl | apply IH; assumption].
Qed.

Lemma Register_fresh env j db :
  direct_fails env = false -> bank_id j <> EmptyString ->
  unknown_bank db (bank_id j) ->
  Register env (POST j) db =
  reject Success
    {| tbl_user := tbl_user db ++ [registered_row env (bank_id j) db];
       tbl_credit := tbl_credit db; tbl_reserve := tbl_reserve db;
       user_seq := user_seq db + 1; credit_seq := credit_seq db;
       reserve_seq := reserve_seq db |}.
Proof.
  intros Hd Hne Hnew. unfold Register, POST. cbn [Method Body]. cbn [negb].
  replace ("POST" =? "POST")%string with true by reflexivity. cbn [negb].
  destruct (bank_id j =? EmptyString)%string eqn:E;
    [apply String.eqb_eq in E; contradiction|].
  unfold insert_user. rewrite Hd, (existsb_unknown_bank _ _ Hnew).
  reflexivity.
Qed.

(** X1.  Registering a bank id no user holds succeeds and appends one user
    row with the next id and credit 0, leaving the ledger and the
    reservations alone; looking the bank id up afterwards yields that id, and
    a Check of any positive price on the new user answers "credit is
    insufficient". *)
Theorem Register_then_lookup_and_Check (env env' : Env) (j q : json) (db : DB) :
  direct_fails env = false -> healthy env' -> consistent db ->
  bank_id j <> EmptyString -> unknown_bank db (bank_id j) ->
  bank_id q = bank_id j -> Int64.in_range (price q) = true -> 0 < price q ->
  let out := Register env (POST j) db in
  resp out = Success /\
  tbl_user (store out) = tbl_user db ++ [registered_row env (bank_id j) db] /\
  tbl_credit (store out) = tbl_credit db /\
  tbl_reserve (store out) = tbl_reserve db /\
  filterBankID env' (store out) (bank_id j) = (user_seq db, None) /\
  resp (Check env' (POST q) (store out)) = Error "credit is insufficient" 200.
Proof.
  intros Hd He Hc Hne Hnew Hq Hr Hp. cbv zeta.
  pose proof (Register_consistent env (POST j) db Hc) as Hc'.
  rewrite (Register_fresh env j db Hd Hne Hnew) in *. cbn [reject resp store] in *.
  assert (Hfind : find (fun u => (u_bank_id u =? bank_id j)%string)
                    (tbl_user db ++ [registered_row env (bank_id j) db])
                  = Some (registered_row env (bank_id j) db)).
  { apply find_snoc_new; [apply find_unknown_bank; exact Hnew|].
    apply String.eqb_eq. reflexivity. }
  repeat split.
  - unfold filterBankID. cbn [tbl_user].
    destruct (bank_id j =? EmptyString)%string eqn:E;
      [apply String.eqb_eq in E; contradiction|].
    destruct He as (_ & _ & -> & _). rewrite Hfind. reflexivity.
  - rewrite (Check_on_existing_user env' q _ (registered_row env (bank_id j) db));
      try assumption.
    + cbn [resp registered_row u_credit]. unfold user_credit_default.
      destruct (0 <? price q) eqn:E; [reflexivity | apply Z.ltb_ge in E; lia].
    + apply (users_unique _ Hc').
    + split; [rewrite Hq; exact Hne|]. rewrite Hq. split; [exact Hfind|].
      cbn. apply (seq_positive _ Hc).
Qed.

Lemma Register_then_lookup_and_Check_witness :
  resp (Register (calm 200) (POST (with_bank "b" 0)) funded_db) = Success /\
  filterBankID (calm 201) (store (Register (calm 200) (POST (with_bank "b" 0))
                                    funded_db)) "b" = (2, None).
Proof.
  assert (Hc : consistent funded_db).
  { apply reachable_consistent. unfold funded_db. apply reachable_replay.
    apply reach_empty. }
  assert (Hnew : unknown_bank funded_db "b").
  { intros u [<-|[]]. discriminate. }
  pose proof (Register_then_lookup_and_Check (calm 200) (calm 201)
                (with_bank "b" 0) (with_bank "b" 5) funded_db eq_refl
                (healthy_calm 201) Hc ltac:(discriminate) Hnew eq_refl eq_refl
                eq_refl) as H.
  cbv zeta in H. destruct H as (H1 & _ & _ & _ & H5 & _).
  split; [exact H1 | exact H5].
Defined.

(** X2.  Registering a bank id some user already holds answers HTTP 400
    "bank_id already exists" and leaves the three tables as they were. *)
Theorem Register_duplicate_rejected (env : Env) (j : json) (db : DB)
    (u : user_row) :
  direct_fails env = false -> bank_id j <> EmptyString ->
  In u (tbl_user db) -> u_bank_id u = bank_id j ->
  resp (Register env (POST j) db) = Error "bank_id already exists" 400 /\
  same_tables (store (Register env (POST j) db)) db.
Proof.
  intros Hd Hne Hin Hu. unfold Register, POST. cbn [Method Body].
  replace ("POST" =? "POST")%string with true by reflexivity. cbn [negb].
  destruct (bank_id j =? EmptyString)%string eqn:E;
    [apply String.eqb_eq in E; contradiction|].
  unfold insert_user. rewrite Hd, (existsb_known_bank _ _ u Hin Hu).
  cbn. repeat split.
Qed.

Lemma Register_duplicate_rejected_witness :
  resp (Register (calm 200) (POST (with_bank "a" 0)) funded_db) =
    Error "bank_id already exists" 400.
Proof.
  apply (Register_duplicate_rejected (calm 200) (with_bank "a" 0) funded_db
           funded_user eq_refl ltac:(discriminate) (or_introl eq_refl) eq_refl).
Defined.

(** ** Requests on a bank id that resolves to no user *)

Lemma filterBankID_unknown env db bank :
  direct_fails env = false -> bank <> EmptyString -> unknown_bank db bank ->
  filterBankID env db bank = (0, Some (Error "user not found" 404)).
Proof.
  intros Hd Hne Hnew. unfold filterBankID.
  destruct (bank =? EmptyString)%string eqn:E;
    [apply String.eqb_eq in E; contradiction|].
  rewrite Hd, (find_unknown_bank _ _ Hnew). reflexivity.
Qed.

Lemma filterBankID_empty env db :
  filterBankID env db EmptyString = (0, Some (Error "bank_id is required" 400)).
Proof. reflexivity. Qed.

(** X3.  On add_credit, check and reserve, a request whose price passes the
    validation but whose bank id is empty is answered HTTP 400 "bank_id is
    required", and one whose bank id no user holds is answered HTTP 404 "user
    not found"; in both cases the store is untouched and no transaction is
    begun. *)
Theorem unknown_bank_id_not_found (rt : route) (env : Env) (j : json)
    (db : DB) :
  Int64.in_range (price j) = true -> valid_price rt (price j) = true ->
  (bank_id j = EmptyString ->
   serve rt env (POST j) db = reject (Error "bank_id is required" 400) db) /\
  (direct_fails env = false -> bank_id j <> EmptyString ->
   unknown_bank db (bank_id j) ->
   serve rt env (POST j) db = reject (Error "user not found" 404) db).
Proof.
  intros Hr Hv.
  destruct rt; try discriminate Hv; cbn [valid_price] in Hv;
    cbn [serve]; unfold AddCredit, Check, Reserve, POST, Decode_price;
    cbn [Method Body];
    replace ("POST" =? "POST")%string with true by reflexivity; cbn [negb];
    rewrite Hr.
  - apply Z.ltb_lt in Hv.
    destruct (price j <=? 0) eqn:E; [apply Z.leb_le in E; lia|].
    split.
    + intros ->. rewrite filterBankID_empty. reflexivity.
    + intros Hd Hne Hnew. rewrite filterBankID_unknown by assumption.
      reflexivity.
  - apply Z.ltb_lt in Hv.
    destruct (price j <=? 0) eqn:E; [apply Z.leb_le in E; lia|].
    split.
    + intros ->. rewrite filterBankID_empty. reflexivity.
    + intros Hd Hne Hnew. rewrite filterBankID_unknown by assumption.
      reflexivity.
  - apply negb_true_iff in Hv. rewrite Hv.
    split.
    + intros ->. rewrite filterBankID_empty. reflexivity.
    + intros Hd Hne Hnew. rewrite filterBankID_unknown by assumption.
      reflexivity.
Qed.

Lemma unknown_bank_id_not_found_witness :
  serve reserve (calm 200) (POST (with_bank "zz" (-5))) funded_db =
  reject (Error "user not found" 404) funded_db.
Proof.
  apply (unknown_bank_id_not_found reserve (calm 200) (with_bank "zz" (-5))
           funded_db eq_refl eq_refl); [reflexivity | discriminate |].
  intros u [<-|[]]. discriminate.
Defined.

(** ** The effect of one request *)

Lemma sum_credit_with_credit_same userID price memo now db :
  sum_credit (with_credit userID price memo now db) userID =
  sum_credit db userID + price.
Proof.
  unfold sum_credit, with_credit. cbn [tbl_credit].
  rewrite filter_app, map_app, sum_Z_app. cbn [filter c_user_id].
  rewrite Z.eqb_refl. cbn. lia.
Qed.

Lemma Decode_price_Some r req :
  Decode_price r = Some req ->
  Body r = Some req /\ Int64.in_range (price req) = true.
Proof.
  unfold Decode_price. destruct (Body r) as [j|]; [|discriminate].
  destruct (Int64.in_range (price j)) eqn:E; [|discriminate].
  intros H. inversion H; subst. split; [reflexivity | exact E].
Qed.

Lemma Decode_ids_Some r req :
  Decode_ids r = Some req ->
  Body r = Some req /\ forallb Int64.in_range (reserve_ids req) = true.
Proof.
  unfold Decode_ids. destruct (Body r) as [j|]; [|discriminate].
  destruct (forallb Int64.in_range (reserve_ids j)) eqn:E; [|discriminate].
  intros H. inversion H; subst. split; [reflexivity | exact E].
Qed.

Lemma add_credit_tx_fit userID price env st st' u :
  add_credit_tx userID price env st = (Ok u, st') ->
  Int64.in_range (sum_credit (working st) userID + price) = true.
Proof.
  unfold add_credit_tx, select_user_for_update. intros H. tx_inv.
  apply modyfyCredit_Ok in H. destruct H as (Hfit & _).
  cbn [after_stmt working fst snd] in Hfit.
  rewrite sum_credit_with_credit_same in Hfit. exact Hfit.
Qed.

Lemma solvency_check_admits userID price env st st' u :
  (if price <? 0 then
     fixed <- wrap "calc credit failed" (select_sum_credit userID) ;;
     reserved <- wrap "calc reserve failed"
                   (select_sum_reserve userID
                      (Format (Add (time_Now env) Minute))) ;;
     if Int64.add (Int64.add fixed reserved) price <? 0
     then fail CreditIsInsufficient else ret tt
   else ret tt) env st = (Ok u, st') ->
  admitted env (working st) userID price.
Proof.
  unfold select_sum_credit, select_sum_reserve, admitted.
  intros H Hneg. apply Z.ltb_lt in Hneg. rewrite Hneg in H. tx_inv.
  cbn [fst snd after_stmt working] in *.
  repeat match goal with
         | H : scan_int64 _ = Ok _ |- _ =>
             apply scan_int64_Ok in H; destruct H as (? & ->)
         end.
  match goal with H : (if ?c then _ else _) _ _ = _ |- _ =>
    destruct c eqn:E; tx_inv end.
  apply Z.ltb_ge in E. repeat split; assumption.
Qed.

Lemma reserve_tx_admits userID price memo env st st' id :
  reserve_tx userID price memo env st = (Ok id, st') ->
  admitted env (working st) userID price.
Proof.
  unfold reserve_tx, select_user_for_update, insert_reserve, Now.
  intros H.
  apply bind_Ok in H. destruct H as (u1 & st1 & H1 & H).
  apply wrap_Ok, stmt_Ok in H1. destruct H1 as (_ & _ & ->).
  apply bind_Ok in H. destruct H as (now & st2 & H2 & H).
  inversion H2; subst now st2; clear H2.
  apply bind_Ok in H. destruct H as (u3 & st3 & H3 & H).
  apply solvency_check_admits in H3. exact H3.
Qed.

Lemma for_each_modyfyCredit_fit rows env st st' u :
  for_each (map scan_commit rows)
    (fun rsv => wrap "modyfyCredit failed"
                  (modyfyCredit (UserID rsv) (Amount rsv) (Note rsv)))
    env st = (Ok u, st') ->
  sums_fit rows (NOW env) (working st).
Proof.
  revert st. induction rows as [|r rows IH]; intros st H; [exact I|].
  cbn [map for_each] in H. tx_inv.
  match goal with H : modyfyCredit _ _ _ _ _ = _ |- _ =>
    apply modyfyCredit_Ok in H;
    cbn [scan_commit UserID Amount Note] in H;
    destruct H as (Hfit & Hw & _) end.
  match goal with H : for_each _ _ _ _ = _ |- _ => apply IH in H; rename H into Hrest end.
  split; [exact Hfit|]. rewrite <- Hw. exact Hrest.
Qed.

Lemma commit_tx_fit ids env st st' u :
  commit_tx ids env st = (Ok u, st') ->
  sums_fit (reserve_in ids (concurrent env (working st))) (NOW env)
           (concurrent env (working st)).
Proof.
  unfold commit_tx, select_count_reserve_live, select_reserve_for_update,
    select_users_for_update, delete_reserve.
  intros H. tx_inv.
  destruct (Nat.ltb_spec
              (List.length (reserve_in_live ids (NOW env) (working st)))
              (List.length ids)) as [Hlt|Hge]; [discriminate H|].
  tx_inv. cbn [fst snd working after_stmt] in H. rewrite length_map in H.
  destruct (Nat.eqb_spec
              (List.length (reserve_in ids (concurrent env (working st))))
              (List.length ids)) as [He|Hn]; [|discriminate H].
  cbn [negb] in H. tx_inv.
  match goal with H : for_each _ _ _ _ = _ |- _ =>
    apply for_each_modyfyCredit_fit in H; exact H end.
Qed.

Lemma unknown_bank_of_existsb db bank :
  existsb (fun u => (u_bank_id u =? bank)%string) (tbl_user db) = false ->
  unknown_bank db bank.
Proof.
  intros E u Hin Hu.
  assert (H : existsb (fun v => (u_bank_id v =? bank)%string) (tbl_user db)
              = true) by (eapply existsb_known_bank; eassumption).
  congruence.
Qed.

Lemma Register_effect env r db :
  effect register env db (store (Register env r db)).
Proof.
  unfold Register.
  destruct (negb (Method r =? "POST")%string);
    [apply unchanged, same_tables_refl|].
  destruct (Body r) as [req|]; [|apply unchanged, same_tables_refl].
  destruct (bank_id req =? EmptyString)%string eqn:Hne;
    [apply unchanged, same_tables_refl|].
  apply String.eqb_neq in Hne.
  assert (G : effect register env db (snd (insert_user env (bank_id req) db))).
  { unfold insert_user.
    destruct (direct_fails env); [apply unchanged, same_tables_refl|].
    destruct (existsb _ (tbl_user db)) eqn:E; cbn [snd].
    - apply unchanged. repeat split.
    - apply (user_added _ _ _ _ (bank_id req)); try reflexivity;
        [exact Hne | apply unknown_bank_of_existsb; exact E]. }
  destruct (insert_user env (bank_id req) db) as [[u|e] db']; cbn [snd] in G;
    [exact G|].
  destruct e; try exact G. destruct number; try exact G.
  repeat match goal with
         | |- context [match ?p with xI _ => _ | xO _ => _ | xH => _ end] =>
             destruct p; try exact G
         end.
Qed.

Lemma AddCredit_effect env r db :
  effect add_credit env db (store (AddCredit env r db)).
Proof.
  unfold AddCredit.
  destruct (negb (Method r =? "POST")%string);
    [apply unchanged, same_tables_refl|].
  destruct (Decode_price r) as [req|] eqn:Hdec;
    [|apply unchanged, same_tables_refl].
  apply Decode_price_Some in Hdec. destruct Hdec as (_ & Hr).
  destruct (price req <=? 0) eqn:Hp; [apply unchanged, same_tables_refl|].
  apply Z.leb_gt in Hp.
  pose proof (filterBankID_known env db (bank_id req)) as Hknown.
  destruct (filterBankID env db (bank_id req)) as [userID w].
  cbn [fst] in Hknown.
  destruct (userID <=? 0); [apply unchanged, same_tables_refl|].
  destruct (Hknown eq_refl) as (u & Hin & Hid). subst userID.
  pose proof (txScorp_plain (add_credit_tx (u_id u) (price req)) env db
                (keeps_add_credit_tx _ _)) as H.
  destruct (txScorp (returning (add_credit_tx (u_id u) (price req))) env db)
    as [[[a|e] db'] tr]; cbn [finish store fst].
  - destruct H as (st & Hrun & ->).
    apply (credit_added _ _ _ _ u (price req)); try reflexivity; try assumption.
    + apply add_credit_tx_fit in Hrun. exact Hrun.
    + apply add_credit_tx_Ok in Hrun. exact Hrun.
  - apply unchanged. exact H.
Qed.

Lemma Check_effect env r db :
  same_tables (store (Check env r db)) db.
Proof.
  unfold Check.
  destruct (negb (Method r =? "POST")%string); [apply same_tables_refl|].
  destruct (Decode_price r) as [req|]; [|apply same_tables_refl].
  destruct (price req <=? 0); [apply same_tables_refl|].
  destruct (filterBankID env db (bank_id req)) as [userID w].
  destruct (userID <=? 0); [apply same_tables_refl|].
  pose proof (txScorp_plain (check_tx userID (price req)) env db
                (keeps_check_tx _ _)) as H.
  destruct (txScorp (returning (check_tx userID (price req))) env db)
    as [[[a|e] db'] tr].
  - destruct H as (st & Hrun & ->). apply check_tx_Ok in Hrun.
    cbn [finish store fst]. rewrite Hrun. apply same_tables_refl.
  - destruct (is_CreditIsInsufficient e); exact H.
Qed.

Lemma Reserve_effect env r db :
  effect reserve env db (store (Reserve env r db)).
Proof.
  unfold Reserve.
  destruct (negb (Method r =? "POST")%string);
    [apply unchanged, same_tables_refl|].
  destruct (Decode_price r) as [req|] eqn:Hdec;
    [|apply unchanged, same_tables_refl].
  apply Decode_price_Some in Hdec. destruct Hdec as (_ & Hr).
  destruct (price req =? 0) eqn:Hp; [apply unchanged, same_tables_refl|].
  apply Z.eqb_neq in Hp.
  pose proof (filterBankID_known env db (bank_id req)) as Hknown.
  destruct (filterBankID env db (bank_id req)) as [userID w].
  cbn [fst] in Hknown.
  destruct (userID <=? 0); [apply unchanged, same_tables_refl|].
  destruct (Hknown eq_refl) as (u & Hin & Hid). subst userID.
  fold (memo_of (app_id req) (price req)).
  pose proof (txScorp_plain
                (reserve_tx (u_id u) (price req)
                   (memo_of (app_id req) (price req))) env db
                (keeps_reserve_tx _ _ _)) as H.
  destruct (txScorp
              (returning (reserve_tx (u_id u) (price req)
                            (memo_of (app_id req) (price req)))) env db)
    as [[[a|e] db'] tr].
  - destruct H as (st & Hrun & ->). cbn [finish store fst].
    apply (reservation_added _ _ _ _ u (price req) (app_id req));
      try reflexivity; try assumption.
    + apply reserve_tx_admits in Hrun. exact Hrun.
    + apply reserve_tx_Ok in Hrun. exact Hrun.
  - apply unchanged. destruct (is_CreditIsInsufficient e); exact H.
Qed.

Lemma length_nonzero {X} (l : list X) :
  (List.length l =? 0)%nat = false -> l <> [].
Proof. destruct l; [discriminate | discriminate]. Qed.

Lemma Commit_effect env r db :
  sequential env -> effect commit env db (store (Commit env r db)).
Proof.
  intros Hseq. unfold Commit.
  destruct (negb (Method r =? "POST")%string);
    [apply unchanged, same_tables_refl|].
  destruct (Decode_ids r) as [req|]; [|apply unchanged, same_tables_refl].
  destruct (List.length (reserve_ids req) =? 0)%nat eqn:Hlen;
    [apply unchanged, same_tables_refl|].
  apply length_nonzero in Hlen.
  pose proof (txScorp_returning (commit_tx (reserve_ids req)) env db
                (moves_commit_tx _)) as H.
  destruct (txScorp (returning (commit_tx (reserve_ids req))) env db)
    as [[[a|e] db'] tr]; rewrite terminal_reply_store.
  - destruct H as (st & Hrun & -> & _).
    pose proof (commit_tx_fit _ _ _ _ _ Hrun) as Hfit.
    apply commit_tx_Ok in Hrun. cbn [begin working] in Hrun, Hfit.
    rewrite Hseq in Hrun, Hfit. destruct Hrun as (Hge & He & Hw & _).
    apply (reservations_committed _ _ _ _ (reserve_ids req));
      try reflexivity; assumption.
  - apply unchanged. rewrite Hseq in H. destruct H; assumption.
Qed.

Lemma Cancel_effect env r db :
  sequential env -> effect cancel env db (store (Cancel env r db)).
Proof.
  intros Hseq. unfold Cancel.
  destruct (negb (Method r =? "POST")%string);
    [apply unchanged, same_tables_refl|].
  destruct (Decode_ids r) as [req|]; [|apply unchanged, same_tables_refl].
  destruct (List.length (reserve_ids req) =? 0)%nat eqn:Hlen;
    [apply unchanged, same_tables_refl|].
  apply length_nonzero in Hlen.
  pose proof (txScorp_returning (cancel_tx (reserve_ids req)) env db
                (moves_cancel_tx _)) as H.
  destruct (txScorp (returning (cancel_tx (reserve_ids req))) env db)
    as [[[a|e] db'] tr]; rewrite terminal_reply_store.
  - destruct H as (st & Hrun & -> & _).
    apply cancel_tx_Ok in Hrun. cbn [begin working] in Hrun.
    rewrite Hseq in Hrun. destruct Hrun as (_ & He & Hw & _).
    apply (reservations_cancelled _ _ _ _ (reserve_ids req));
      try reflexivity; assumption.
  - apply unchanged. rewrite Hseq in H. destruct H; assumption.
Qed.

Lemma serve_has_effect rt env r db :
  sequential env -> effect rt env db (store (serve rt env r db)).
Proof.
  intros Hseq. destruct rt; cbn [serve].
  - apply Register_effect.
  - apply AddCredit_effect.
  - apply unchanged, Check_effect.
  - apply Reserve_effect.
  - apply Commit_effect; exact Hseq.
  - apply Cancel_effect; exact Hseq.
Qed.

(** ** Invariants of histories *)

Lemma history_invariant (P : DB -> Prop) :
  (forall rt env db db', effect rt env db db' -> P db -> P db') ->
  forall steps db, serial steps -> P db -> P (history steps db).
Proof.
  intros Hstep steps. induction steps as [|[[rt env] r] rest IH];
    intros db Hser HP; [exact HP|].
  inversion Hser as [|? ? Hseq Hrest]; subst. cbn [history].
  apply IH; [exact Hrest|].
  eapply Hstep; [|exact HP]. apply serve_has_effect. exact Hseq.
Qed.

Lemma serial_sample : serial sample_steps.
Proof. unfold serial, sample_steps. repeat constructor. Qed.

Lemma identity_set_credit credit userID u :
  identity (set_credit credit userID u) = identity u.
Proof. unfold set_credit. destruct (u_id u =? userID); reflexivity. Qed.

Lemma identity_applied userID price memo now db :
  map identity (tbl_user (applied userID price memo now db)) =
  map identity (tbl_user db).
Proof.
  unfold applied. cbn [with_user_credit with_credit tbl_user].
  rewrite map_map. apply map_ext. intros u. apply identity_set_credit.
Qed.

Lemma identity_applied_all rows now db :
  map identity (tbl_user (applied_all rows now db)) =
  map identity (tbl_user db).
Proof.
  revert db. induction rows as [|r rows IH]; intros db; [reflexivity|].
  rewrite applied_all_cons, IH. apply identity_applied.
Qed.

(** The user rows after one request: the same identities, or one more. *)
Lemma effect_identities rt env db db' :
  effect rt env db db' ->
  map identity (tbl_user db') = map identity (tbl_user db) \/
  exists bank, bank <> EmptyString /\ unknown_bank db bank /\
    map identity (tbl_user db') =
    map identity (tbl_user db) ++ [(user_seq db, bank, NOW env)].
Proof.
  intros [ (Hu & _ & _) | bank _ Hne Hnew Hu _ _ | u p _ _ _ _ _ ->
         | u p app _ _ _ _ _ -> | ids _ _ _ _ _ -> | ids _ _ _ -> ].
  - left. rewrite Hu. reflexivity.
  - right. exists bank. repeat split; try assumption.
    rewrite Hu, map_app. reflexivity.
  - left. apply identity_applied.
  - left. reflexivity.
  - left. cbn [without_reserve tbl_user]. apply identity_applied_all.
  - left. reflexivity.
Qed.

Lemma banks_of_identities (l : list user_row) :
  map u_bank_id l = map (fun i => snd (fst i)) (map identity l).
Proof. rewrite map_map. reflexivity. Qed.

Lemma banks_unique_step rt env db db' :
  effect rt env db db' -> banks_unique db -> banks_unique db'.
Proof.
  intros Heff (Hnd & Hne). unfold banks_unique.
  assert (Hall : forall l : list user_row,
             (forall u, In u l -> u_bank_id u <> EmptyString) <->
             Forall (fun b => b <> EmptyString) (map u_bank_id l)).
  { intros l. rewrite Forall_forall. split.
    - intros H b Hb. apply in_map_iff in Hb. destruct Hb as (u & <- & Hu).
      apply H. exact Hu.
    - intros H u Hu. apply H. apply in_map. exact Hu. }
  rewrite Hall in *. rewrite (banks_of_identities (tbl_user db')).
  rewrite (banks_of_identities (tbl_user db)) in Hnd, Hne.
  destruct (effect_identities _ _ _ _ Heff) as [->|(bank & Hb & Hnew & ->)].
  - split; assumption.
  - rewrite map_app. cbn [map fst snd]. split.
    + apply NoDup_app; [exact Hnd | repeat constructor; intros [] |].
      intros b Hin [<-|[]]. rewrite <- banks_of_identities in Hin.
      apply in_map_iff in Hin. destruct Hin as (u & Hu & Hin).
      exact (Hnew u Hin Hu).
    + apply Forall_app. split; [exact Hne | repeat constructor; exact Hb].
Qed.

(** X4.  In every store reached from the empty one by requests served one
    after the other, whatever faults the store shows, no two users hold the
    same bank id and no user holds the empty one. *)
Theorem bank_ids_stay_unique (steps : list step) :
  serial steps -> banks_unique (history steps empty_db).
Proof.
  intros Hser. apply (history_invariant banks_unique); try assumption.
  - apply banks_unique_step.
  - split; [constructor | intros u []].
Qed.

Lemma bank_ids_stay_unique_witness :
  serial sample_steps /\
  map u_bank_id (tbl_user (history sample_steps empty_db)) = ["a"; "b"] /\
  banks_unique (history sample_steps empty_db).
Proof.
  split; [exact serial_sample|]. split; [reflexivity|].
  apply (bank_ids_stay_unique sample_steps serial_sample).
Defined.

Lemma reserve_shaped_step rt env db db' :
  effect rt env db db' ->
  Forall reserve_shaped (tbl_reserve db) ->
  Forall reserve_shaped (tbl_reserve db').
Proof.
  intros [ (_ & _ & Hr) | bank _ _ _ _ _ Hr | u p _ _ _ _ _ ->
         | u p app _ _ Hp Hfit _ -> | ids _ _ _ _ _ -> | ids _ _ _ -> ] H.
  - rewrite Hr. exact H.
  - rewrite Hr. exact H.
  - exact H.
  - cbn [with_reserve tbl_reserve]. apply Forall_app. split; [exact H|].
    repeat constructor; cbn; try assumption. apply Format_Add_Minute.
  - cbn [without_reserve tbl_reserve].
    rewrite (proj1 (applied_all_tables _ _ _)).
    rewrite Forall_forall in *. intros r Hin. apply filter_In in Hin.
    apply H. apply Hin.
  - cbn [without_reserve tbl_reserve].
    rewrite Forall_forall in *. intros r Hin. apply filter_In in Hin.
    apply H. apply Hin.
Qed.

(** X5.  In every store reached from the empty one by requests served one
    after the other, every reservation row expires exactly 60 seconds after
    its creation, carries [is_minus] exactly when its amount is negative, and
    has a non-zero amount that fits [int64]. *)
Theorem reservations_stay_shaped (steps : list step) :
  serial steps ->
  Forall reserve_shaped (tbl_reserve (history steps empty_db)).
Proof.
  intros Hser.
  apply (history_invariant (fun db => Forall reserve_shaped (tbl_reserve db)));
    try assumption.
  - apply reserve_shaped_step.
  - constructor.
Qed.

Lemma reservations_stay_shaped_witness :
  serial (firstn 5 sample_steps) /\
  List.length (tbl_reserve (history (firstn 5 sample_steps) empty_db)) = 2%nat /\
  Forall reserve_shaped (tbl_reserve (history (firstn 5 sample_steps) empty_db)).
Proof.
  assert (H : serial (firstn 5 sample_steps)).
  { unfold serial, sample_steps. repeat constructor. }
  split; [exact H|]. split; [reflexivity|].
  apply (reservations_stay_shaped (firstn 5 sample_steps) H).
Defined.

Lemma ledger_fits_applied userID price memo now db :
  Int64.in_range (sum_credit (with_credit userID price memo now db) userID)
    = true ->
  ledger_fits db -> ledger_fits (applied userID price memo now db).
Proof.
  intros Hfit H v. unfold applied.
  change (sum_credit _ v)
    with (sum_credit (with_credit userID price memo now db) v).
  destruct (Z.eq_dec v userID) as [->|Hne]; [exact Hfit|].
  rewrite sum_credit_with_credit_other by exact Hne. apply H.
Qed.

Lemma ledger_fits_applied_all rows now db :
  sums_fit rows now db -> ledger_fits db ->
  ledger_fits (applied_all rows now db).
Proof.
  revert db. induction rows as [|r rows IH]; intros db Hfit H; [exact H|].
  destruct Hfit as (Hhead & Hrest). rewrite applied_all_cons.
  apply IH; [exact Hrest|]. apply ledger_fits_applied; assumption.
Qed.

Lemma ledger_fits_same (a b : DB) :
  tbl_credit a = tbl_credit b -> ledger_fits b -> ledger_fits a.
Proof.
  intros Hc H v. rewrite (sum_credit_same_ledger a b v Hc). apply H.
Qed.

Lemma ledger_fits_step rt env db db' :
  effect rt env db db' -> ledger_fits db -> ledger_fits db'.
Proof.
  intros [ (_ & Hc & _) | bank _ _ _ _ Hc _ | u p _ _ _ _ Hfit ->
         | u p app _ _ _ _ _ -> | ids _ _ _ _ Hfit -> | ids _ _ _ -> ] H.
  - apply (ledger_fits_same _ db); assumption.
  - apply (ledger_fits_same _ db); assumption.
  - apply ledger_fits_applied; [|exact H].
    rewrite sum_credit_with_credit_same. exact Hfit.
  - apply (ledger_fits_same _ db); [reflexivity | exact H].
  - apply (ledger_fits_same _ (applied_all (reserve_in ids db) (NOW env) db));
      [reflexivity|]. apply ledger_fits_applied_all; assumption.
  - apply (ledger_fits_same _ db); [reflexivity | exact H].
Qed.

(** X6.  In every store reached from the empty one by requests served one
    after the other, the sum of every user's ledger entries fits [int64]: a
    deposit or a commit whose sum would leave the range fails and is rolled
    back. *)
Theorem ledger_sums_stay_in_int64 (steps : list step) :
  serial steps -> ledger_fits (history steps empty_db).
Proof.
  intros Hser. apply (history_invariant ledger_fits); try assumption.
  - apply ledger_fits_step.
  - intros v. reflexivity.
Qed.

Lemma ledger_sums_stay_in_int64_witness :
  serial sample_steps /\
  sum_credit (history sample_steps empty_db) 1 = 600 /\
  ledger_fits (history sample_steps empty_db).
Proof.
  split; [exact serial_sample|]. split; [reflexivity|].
  apply (ledger_sums_stay_in_int64 sample_steps serial_sample).
Defined.

Lemma ledger_grows_step rt env db db' :
  effect rt env db db' ->
  (exists new, tbl_credit db' = tbl_credit db ++ new) /\
  (exists more,
     map identity (tbl_user db') = map identity (tbl_user db) ++ more).
Proof.
  intros Heff. split.
  - destruct Heff as [ (_ & Hc & _) | bank _ _ _ _ Hc _ | u p _ _ _ _ _ ->
                     | u p app _ _ _ _ _ -> | ids _ _ _ _ _ -> | ids _ _ _ -> ].
    + exists []. rewrite Hc, app_nil_r. reflexivity.
    + exists []. rewrite Hc, app_nil_r. reflexivity.
    + eexists. reflexivity.
    + exists []. cbn. rewrite app_nil_r. reflexivity.
    + cbn [without_reserve tbl_credit].
      destruct (applied_all_tables (reserve_in ids db) (NOW env) db)
        as (_ & new & Hc & _). exists new. exact Hc.
    + exists []. cbn. rewrite app_nil_r. reflexivity.
  - destruct (effect_identities _ _ _ _ Heff) as [->|(bank & _ & _ & ->)].
    + exists []. rewrite app_nil_r. reflexivity.
    + eexists. reflexivity.
Qed.

(** X7.  Across any requests served one after the other, the ledger is only
    appended to and users are only added: the ledger of the earlier store is
    a prefix of the later one, and so are the users' ids, bank ids and
    creation times; no request deletes or rewrites a ledger entry, deletes a
    user or changes anything of a user but the cached credit. *)
Theorem ledger_and_users_only_grow (steps : list step) (db : DB) :
  serial steps ->
  (exists new, tbl_credit (history steps db) = tbl_credit db ++ new) /\
  (exists more,
     map identity (tbl_user (history steps db)) =
     map identity (tbl_user db) ++ more).
Proof.
  intros Hser.
  apply (history_invariant
           (fun d => (exists new, tbl_credit d = tbl_credit db ++ new) /\
                     (exists more, map identity (tbl_user d) =
                                   map identity (tbl_user db) ++ more)));
    try assumption.
  - intros rt env d d' Heff ((new & Hc) & (more & Hu)).
    destruct (ledger_grows_step _ _ _ _ Heff) as ((new' & Hc') & (more' & Hu')).
    split.
    + exists (new ++ new'). rewrite Hc', Hc, app_assoc. reflexivity.
    + exists (more ++ more'). rewrite Hu', Hu, app_assoc. reflexivity.
  - split; exists []; rewrite app_nil_r; reflexivity.
Qed.

Lemma ledger_and_users_only_grow_witness :
  serial (skipn 3 sample_steps) /\
  exists new,
    tbl_credit (history (skipn 3 sample_steps)
                        (history (firstn 3 sample_steps) empty_db)) =
    tbl_credit (history (firstn 3 sample_steps) empty_db) ++ new.
Proof.
  assert (H : serial (skipn 3 sample_steps)).
  { unfold serial, sample_steps. repeat constructor. }
  split; [exact H|].
  apply (ledger_and_users_only_grow (skipn 3 sample_steps)
           (history (firstn 3 sample_steps) empty_db) H).
Defined.

(** ** Running the balance engine on a store that answers *)

Section HealthyRuns.
Variable env : Env.
Hypothesis Hs : forall n, stmt_fails env n = false.

Lemma modyfyCredit_run userID price memo st :
  let db2 := with_credit userID price memo (NOW env) (working st) in
  exists st',
    committed st' = committed st /\
    modyfyCredit userID price memo env st =
    (if Int64.in_range (sum_credit db2 userID) then
       (Ok tt, st')
     else (Fail (Wrap ScanError "calc credit failed"), st')) /\
    (Int64.in_range (sum_credit db2 userID) = true ->
     working st' = applied userID price memo (NOW env) (working st)).
Proof.
  cbv zeta. unfold modyfyCredit, bind, wrap, insert_credit, select_sum_credit,
    update_user_credit.
  rewrite stmt_run by apply Hs. cbn [fst snd].
  rewrite stmt_run by apply Hs. cbn [fst snd after_stmt working].
  unfold scan_int64.
  destruct (Int64.in_range
              (sum_credit
                 (with_credit userID price memo (NOW env) (working st))
                 userID)) eqn:E.
  - rewrite stmt_run by apply Hs. cbn [fst snd after_stmt working].
    eexists. split; [|split; [reflexivity|]]; [reflexivity|].
    intros _. reflexivity.
  - eexists. split; [|split; [reflexivity|]]; [reflexivity|].
    intros H; discriminate H.
Qed.

Lemma for_each_modyfyCredit_run rows st :
  sums_fit rows (NOW env) (working st) ->
  exists st',
    for_each (map scan_commit rows)
      (fun rsv => wrap "modyfyCredit failed"
                    (modyfyCredit (UserID rsv) (Amount rsv) (Note rsv)))
      env st = (Ok tt, st') /\
    working st' = applied_all rows (NOW env) (working st) /\
    committed st' = committed st.
Proof.
  revert st. induction rows as [|r rows IH]; intros st Hfit.
  - exists st. repeat split.
  - destruct Hfit as (Hhead & Hrest).
    destruct (modyfyCredit_run (r_user_id r) (r_amount r) (r_note r) st)
      as (st1 & Hc1 & Hrun & Hw1).
    rewrite Hhead in Hrun. specialize (Hw1 Hhead).
    rewrite <- Hw1 in Hrest.
    destruct (IH st1 Hrest) as (st' & Hrun' & Hw' & Hc').
    exists st'. cbn [map for_each]. unfold bind at 1, wrap at 1.
    cbn [scan_commit UserID Amount Note]. rewrite Hrun.
    split; [exact Hrun'|]. split.
    + rewrite Hw', Hw1. reflexivity.
    + rewrite Hc', Hc1. reflexivity.
Qed.
End HealthyRuns.

Lemma sum_credit_applied userID price memo now db :
  sum_credit (applied userID price memo now db) userID =
  sum_credit db userID + price.
Proof.
  transitivity (sum_credit (with_credit userID price memo now db) userID);
    [reflexivity | apply sum_credit_with_credit_same].
Qed.

(** ** AddCredit *)

Lemma AddCredit_run env j db u :
  healthy env -> existing_user db (bank_id j) u ->
  Int64.in_range (price j) = true -> 0 < price j ->
  exists st',
    committed st' = db /\
    (Int64.in_range (sum_credit db (u_id u) + price j) = true ->
     working st' =
     applied (u_id u) (price j) "by add credit API" (NOW env) db) /\
    AddCredit env (POST j) db =
    if Int64.in_range (sum_credit db (u_id u) + price j) then
      finish Success (working st', trace st' ++ [EvCommit])
    else
      finish (Error "internal server error" 500)
             (rollback st', trace st' ++ [EvRollback]).
Proof.
  intros (Hb & Hc & Hd & Hs) Hu Hr Hp.
  unfold AddCredit, POST, Decode_price. cbn [Method Body].
  replace ("POST" =? "POST")%string with true by reflexivity. cbn [negb].
  rewrite Hr.
  destruct (price j <=? 0) eqn:E; [apply Z.leb_le in E; lia|].
  rewrite (filterBankID_existing env db _ u Hd Hu).
  destruct Hu as (_ & _ & Hpos).
  destruct (u_id u <=? 0) eqn:E2; [apply Z.leb_le in E2; lia|].
  unfold txScorp, returning. rewrite Hb.
  unfold add_credit_tx, bind at 1, wrap at 1, select_user_for_update.
  rewrite stmt_run by apply Hs. cbn [fst snd].
  match goal with |- context [modyfyCredit _ _ _ env ?st] =>
    destruct (modyfyCredit_run env Hs (u_id u) (price j) "by add credit API" st)
      as (st' & Hco & Hrun & Hw) end.
  rewrite Hrun. clear Hrun.
  cbn [after_stmt working begin committed] in Hco, Hw |- *.
  rewrite sum_credit_with_credit_same in Hw |- *.
  exists st'. split; [exact Hco|]. split; [exact Hw|].
  destruct (Int64.in_range (sum_credit db (u_id u) + price j));
    [rewrite Hc|]; reflexivity.
Qed.

(** X8.  On an existing user and a positive price, a store that answers, and
    with [total] the user's ledger sum plus the price: when [total] fits
    [int64], AddCredit succeeds, appends one entry with the user, the price
    and the note "by add credit API", sets the cached credit of the user's
    row to [total] whatever it was before, and touches nothing else; when
    [total] does not fit, it answers HTTP 500 and the tables are as they
    were. *)
Theorem AddCredit_deposits_or_rolls_back (env : Env) (j : json) (db : DB)
    (u : user_row) :
  healthy env -> existing_user db (bank_id j) u ->
  Int64.in_range (price j) = true -> 0 < price j ->
  let total := sum_credit db (u_id u) + price j in
  let out := AddCredit env (POST j) db in
  (Int64.in_range total = true ->
   resp out = Success /\
   tbl_credit (store out) =
     tbl_credit db ++
       [ {| c_id := credit_seq db; c_user_id := u_id u; c_amount := price j;
            c_note := "by add credit API"; c_created_at := NOW env |} ] /\
   tbl_user (store out) = map (set_credit total (u_id u)) (tbl_user db) /\
   tbl_reserve (store out) = tbl_reserve db /\
   sum_credit (store out) (u_id u) = total) /\
  (Int64.in_range total = false ->
   resp out = Error "internal server error" 500 /\
   same_tables (store out) db).
Proof.
  intros He Hu Hr Hp. cbv zeta.
  destruct (AddCredit_run env j db u He Hu Hr Hp) as (st' & Hco & Hw & ->).
  split; intros Hfit; rewrite Hfit; cbn [finish resp store fst].
  - rewrite (Hw Hfit).
    split; [reflexivity|]. split; [reflexivity|].
    split; [|split; [reflexivity | apply sum_credit_applied]].
    unfold applied. cbn [with_user_credit tbl_user with_credit].
    rewrite sum_credit_with_credit_same. reflexivity.
  - split; [reflexivity|].
    unfold same_tables, rollback. cbn [tbl_user tbl_credit tbl_reserve].
    rewrite Hco. repeat split.
Qed.

Lemma AddCredit_deposits_or_rolls_back_witness :
  resp (AddCredit (calm 200) (POST (with_bank "a" 50)) funded_db) = Success /\
  sum_credit (store (AddCredit (calm 200) (POST (with_bank "a" 50)) funded_db))
             1 = 1000 + 50.
Proof.
  pose proof (AddCredit_deposits_or_rolls_back (calm 200) (with_bank "a" 50)
                funded_db funded_user (healthy_calm 200) funded_user_exists
                eq_refl eq_refl) as H.
  cbv zeta in H. destruct H as (H & _).
  destruct (H eq_refl) as (H1 & _ & _ & _ & H5).
  split; [exact H1 | exact H5].
Defined.

(** ** Reserve *)

Lemma reserve_tx_positive userID price memo env st :
  (forall n, stmt_fails env n = false) -> 0 < price ->
  reserve_tx userID price memo env st =
  (Ok (reserve_seq (working st)),
   after_stmt
     (after_stmt st (working st)
        (EvLockUser (map u_id (firstn 1
           (filter (fun u => u_id u =? userID) (tbl_user (working st)))))))
     (with_reserve userID price memo false (Format (time_Now env))
        (Format (Add (time_Now env) Minute)) (working st))
     (EvInsertReserve (reserve_seq (working st)))).
Proof.
  intros Hs Hp.
  unfold reserve_tx, bind, wrap, select_user_for_update, Now, insert_reserve.
  rewrite stmt_run by apply Hs. cbn [fst snd].
  destruct (price <? 0) eqn:E; [apply Z.ltb_lt in E; lia|].
  unfold ret. rewrite stmt_run by apply Hs. reflexivity.
Qed.

(** X9.  A Reserve of a positive amount on an existing user is never
    refused by a store that answers: it reads neither the ledger nor the
    reservations, locks the user row, inserts one row with [is_minus] off
    and an expiry 60 seconds after its creation, and answers with the id the
    row received. *)
Theorem Reserve_of_deposit_is_never_refused (env : Env) (j : json) (db : DB)
    (u : user_row) :
  healthy env -> user_keys db -> existing_user db (bank_id j) u ->
  Int64.in_range (price j) = true -> 0 < price j ->
  Reserve env (POST j) db =
  {| resp := reserved_reply (reserve_seq db);
     store := with_reserve (u_id u) (price j) (memo_of (app_id j) (price j))
                false (Format (time_Now env))
                (Format (time_Now env) + 60) db;
     log := [EvBegin; EvLockUser [u_id u]; EvInsertReserve (reserve_seq db);
             EvCommit] |}.
Proof.
  intros (Hb & Hc & Hd & Hs) Hk Hu Hr Hp.
  unfold Reserve, POST, Decode_price. cbn [Method Body].
  replace ("POST" =? "POST")%string with true by reflexivity. cbn [negb].
  rewrite Hr.
  destruct (price j =? 0) eqn:E; [apply Z.eqb_eq in E; lia|].
  rewrite (filterBankID_existing env db _ u Hd Hu).
  pose proof (existing_user_In _ _ _ Hu) as Hin.
  destruct Hu as (_ & _ & Hpos).
  destruct (u_id u <=? 0) eqn:E2; [apply Z.leb_le in E2; lia|].
  unfold txScorp, returning. rewrite Hb.
  fold (memo_of (app_id j) (price j)).
  rewrite reserve_tx_positive by assumption. rewrite Hc.
  cbn [begin working after_stmt trace finish fst snd].
  rewrite (filter_key_unique u_id u) by assumption.
  rewrite Format_Add_Minute. reflexivity.
Qed.

Lemma Reserve_of_deposit_is_never_refused_witness :
  resp (Reserve (calm 150) (POST (with_bank "a" 5000)) funded_db) =
    reserved_reply 1 /\
  log (Reserve (calm 150) (POST (with_bank "a" 5000)) funded_db) =
    [EvBegin; EvLockUser [1]; EvInsertReserve 1; EvCommit].
Proof.
  rewrite (Reserve_of_deposit_is_never_refused (calm 150)
             (with_bank "a" 5000) funded_db funded_user (healthy_calm 150)
             funded_keys funded_user_exists eq_refl eq_refl).
  split; reflexivity.
Defined.

Lemma sum_reserve_of_earlier_rows db userID now :
  Forall reserve_shaped (tbl_reserve db) ->
  (forall r, In r (tbl_reserve db) -> r_user_id r = userID ->
             r_created_at r < Format now) ->
  sum_reserve db userID (Format (Add now Minute)) = 0.
Proof.
  intros Hshape Hold. unfold sum_reserve. rewrite Format_Add_Minute.
  rewrite Forall_forall in Hshape.
  induction (tbl_reserve db) as [|r l IH]; [reflexivity|].
  cbn [filter].
  assert (Hr : (r_user_id r =? userID) && r_is_minus r &&
               (Format now + 60 <=? r_expire_at r) = false).
  { destruct (r_user_id r =? userID) eqn:E; [|reflexivity].
    apply Z.eqb_eq in E.
    destruct (Hshape r (or_introl eq_refl)) as (Hexp & _).
    specialize (Hold r (or_introl eq_refl) E).
    destruct (r_is_minus r); [|reflexivity]. cbn [andb].
    apply Z.leb_gt. lia. }
  rewrite Hr. apply IH.
  - intros x Hx. apply Hshape. right. exact Hx.
  - intros x Hx. apply Hold. right. exact Hx.
Qed.

(** X10.  A withdrawal reserved in an earlier second does not encumber the
    balance of a later Reserve: when every reservation of the user was
    created before the current second, a Reserve of a negative amount is
    admitted as soon as the ledger sum alone covers it, and refused exactly
    when the ledger sum alone does not. *)
Theorem earlier_withdrawals_do_not_encumber (env : Env) (j : json) (db : DB)
    (u : user_row) :
  healthy env -> existing_user db (bank_id j) u ->
  Int64.in_range (price j) = true -> price j < 0 ->
  Forall reserve_shaped (tbl_reserve db) ->
  (forall r, In r (tbl_reserve db) -> r_user_id r = u_id u ->
             r_created_at r < Format (time_Now env)) ->
  Int64.in_range (sum_credit db (u_id u)) = true ->
  Int64.min_int <= sum_credit db (u_id u) + price j ->
  (0 <= sum_credit db (u_id u) + price j ->
   resp (Reserve env (POST j) db) = reserved_reply (reserve_seq db)) /\
  (sum_credit db (u_id u) + price j < 0 ->
   resp (Reserve env (POST j) db) = Error "credit is insufficient" 200 /\
   store (Reserve env (POST j) db) = db).
Proof.
  intros He Hu Hr Hneg Hshape Hold Hfit Hlow.
  pose proof (Reserve_negative env j db u He Hu Hr Hneg) as H. cbv zeta in H.
  rewrite (sum_reserve_of_earlier_rows db (u_id u) (time_Now env) Hshape Hold)
    in H.
  rewrite Hfit in H. cbn [andb] in H.
  replace (Int64.in_range 0) with true in H by reflexivity.
  unfold Int64.add in H. rewrite Z.add_0_r in H.
  rewrite (wrap_in_range _ Hfit) in H.
  assert (Htot : Int64.in_range (sum_credit db (u_id u) + price j) = true).
  { apply in_range_bounds. apply in_range_bounds in Hfit. lia. }
  rewrite (wrap_in_range _ Htot) in H.
  split; intros Hsum.
  - destruct (Z.ltb_spec (sum_credit db (u_id u) + price j) 0); [lia|].
    apply H.
  - destruct (Z.ltb_spec (sum_credit db (u_id u) + price j) 0); [|lia].
    exact H.
Qed.

Lemma encumbered_user_exists : existing_user encumbered_db "a" funded_user.
Proof. split; [discriminate|]. split; reflexivity. Qed.

Lemma earlier_withdrawals_do_not_encumber_witness :
  map r_amount (tbl_reserve encumbered_db) = [-700] /\
  sum_credit encumbered_db 1 = 1000 /\
  resp (Reserve (calm 151) (POST (with_bank "a" (-700))) encumbered_db) =
    reserved_reply 2.
Proof.
  split; [reflexivity|]. split; [reflexivity|].
  apply (earlier_withdrawals_do_not_encumber (calm 151) (with_bank "a" (-700))
           encumbered_db funded_user (healthy_calm 151) encumbered_user_exists
           eq_refl eq_refl).
  - repeat constructor; cbn; discriminate.
  - intros r [<-|[]] _. reflexivity.
  - reflexivity.
  - vm_compute. discriminate.
  - vm_compute. discriminate.
Defined.

(** ** Ids that name no row *)

Lemma rows_short_of_absent_id ids db id :
  reserve_keys db -> In id ids -> ~ In id (map r_id (tbl_reserve db)) ->
  (List.length (reserve_in ids db) < List.length ids)%nat.
Proof.
  intros Hk Hin Habs.
  apply Nat.le_lt_trans with (List.length (remove Z.eq_dec id ids));
    [|apply remove_length_lt; exact Hin].
  rewrite <- (length_map r_id). apply NoDup_incl_length.
  - apply NoDup_map_filter. exact Hk.
  - intros x Hx. apply in_in_remove.
    + intros ->. apply Habs. apply in_map_iff in Hx.
      destruct Hx as (r & Hr & Hx). apply filter_In in Hx.
      apply in_map_iff. exists r. split; [exact Hr | apply Hx].
    + apply (keyed_rows_in r_id ids (tbl_reserve db)). exact Hx.
Qed.

(** X11.  When the list names an id that no reservation row carries, be it
    never issued or already committed or cancelled, Commit answers HTTP 400
    "reserve is already expired" and Cancel HTTP 400 "reserve is already
    commited"; both stop after the count and change nothing, whatever the
    other ids of the list name. *)
Theorem absent_reserve_id_rejected (env : Env) (j : json) (db : DB) (id : Z) :
  begin_fails env = false -> stmt_fails env 0 = false ->
  reserve_keys db ->
  forallb Int64.in_range (reserve_ids j) = true ->
  In id (reserve_ids j) -> ~ In id (map r_id (tbl_reserve db)) ->
  Commit env (POST j) db =
    {| resp := Error "reserve is already expired" 400; store := db;
       log := [EvBegin; EvSelect; EvRollback] |} /\
  Cancel env (POST j) db =
    {| resp := Error "reserve is already commited" 400; store := db;
       log := [EvBegin; EvSelect; EvRollback] |}.
Proof.
  intros Hb Hs Hk Hdec Hin Habs.
  assert (Hne : reserve_ids j <> []) by (intros E; rewrite E in Hin; exact Hin).
  pose proof (rows_short_of_absent_id _ _ _ Hk Hin Habs) as Hshort.
  split.
  - apply Commit_expired_reply; try assumption.
    eapply Nat.le_lt_trans; [apply live_rows_bounded | exact Hshort].
  - apply Cancel_missing_reply; assumption.
Qed.

Lemma absent_reserve_id_rejected_witness :
  resp (Commit (calm 110) (POST (with_ids [1; 7])) pair_db) =
    Error "reserve is already expired" 400 /\
  resp (Cancel (calm 110) (POST (with_ids [1; 7])) pair_db) =
    Error "reserve is already commited" 400.
Proof.
  assert (Habs : ~ In 7 (map r_id (tbl_reserve pair_db))).
  { cbn. intuition discriminate. }
  pose proof (absent_reserve_id_rejected (calm 110) (with_ids [1; 7]) pair_db 7
                eq_refl eq_refl pair_reserve_keys eq_refl
                (or_intror (or_introl eq_refl)) Habs) as [Hc Hx].
  rewrite Hc, Hx. split; reflexivity.
Defined.

Lemma reserve_keys_without ids db :
  reserve_keys db -> reserve_keys (without_reserve ids db).
Proof.
  intros Hk. unfold reserve_keys. cbn [without_reserve tbl_reserve].
  apply NoDup_map_filter. exact Hk.
Qed.

Lemma reserve_keys_applied_all rows now db :
  reserve_keys db -> reserve_keys (applied_all rows now db).
Proof.
  unfold reserve_keys. rewrite (proj1 (applied_all_tables rows now db)).
  intros H; exact H.
Qed.

Lemma terminal_success_deletes rt env j db :
  rt = commit \/ rt = cancel ->
  resp (serve rt env (POST j) db) = Success ->
  reserve_keys (concurrent env db) ->
  reserve_keys (store (serve rt env (POST j) db)) /\
  forall id, In id (reserve_ids j) ->
             ~ In id (map r_id (tbl_reserve (store (serve rt env (POST j) db)))).
Proof.
  intros [-> | ->] Hok Hk; cbn [serve] in *.
  - destruct (Commit_Success env j db Hok) as (st & Hrun & -> & _).
    apply commit_tx_Ok in Hrun. cbn [begin working] in Hrun.
    destruct Hrun as (_ & _ & -> & _). split.
    + apply reserve_keys_without, reserve_keys_applied_all. exact Hk.
    + intros id Hin. apply deleted_ids_absent. exact Hin.
  - destruct (Cancel_Success env j db Hok) as (st & Hrun & -> & _).
    apply cancel_tx_Ok in Hrun. cbn [begin working] in Hrun.
    destruct Hrun as (_ & _ & -> & _). split.
    + apply reserve_keys_without. exact Hk.
    + intros id Hin. apply deleted_ids_absent. exact Hin.
Qed.

(** X12.  A reservation meets one terminal operation at most: right after a
    Commit or a Cancel has succeeded on a list, every Commit and every Cancel
    whose list shares an id with it is rejected with HTTP 400 and changes
    nothing. *)
Theorem terminal_operation_happens_once (rt : route) (env env' : Env)
    (j j' : json) (db : DB) (id : Z) :
  rt = commit \/ rt = cancel ->
  resp (serve rt env (POST j) db) = Success ->
  reserve_keys (concurrent env db) ->
  In id (reserve_ids j) -> In id (reserve_ids j') ->
  forallb Int64.in_range (reserve_ids j') = true ->
  begin_fails env' = false -> stmt_fails env' 0 = false ->
  let after := store (serve rt env (POST j) db) in
  Commit env' (POST j') after =
    {| resp := Error "reserve is already expired" 400; store := after;
       log := [EvBegin; EvSelect; EvRollback] |} /\
  Cancel env' (POST j') after =
    {| resp := Error "reserve is already commited" 400; store := after;
       log := [EvBegin; EvSelect; EvRollback] |}.
Proof.
  intros Hrt Hok Hk Hin Hin' Hdec Hb Hs. cbv zeta.
  destruct (terminal_success_deletes rt env j db Hrt Hok Hk) as (Hk' & Habs).
  assert (Hne : reserve_ids j' <> [])
    by (intros E; rewrite E in Hin'; exact Hin').
  pose proof (rows_short_of_absent_id _ _ _ Hk' Hin' (Habs id Hin)) as Hshort.
  split.
  - apply Commit_expired_reply; try assumption.
    eapply Nat.le_lt_trans; [apply live_rows_bounded | exact Hshort].
  - apply Cancel_missing_reply; assumption.
Qed.

Lemma terminal_operation_happens_once_witness :
  resp (serve commit (calm 110) (POST (with_ids [1])) pair_db) = Success /\
  resp (Commit (calm 111) (POST (with_ids [1; 2]))
          (store (serve commit (calm 110) (POST (with_ids [1])) pair_db))) =
    Error "reserve is already expired" 400.
Proof.
  assert (Hok : resp (serve commit (calm 110) (POST (with_ids [1])) pair_db)
                = Success) by reflexivity.
  split; [exact Hok|].
  destruct (terminal_operation_happens_once commit (calm 110) (calm 111)
              (with_ids [1]) (with_ids [1; 2]) pair_db 1 (or_introl eq_refl)
              Hok pair_reserve_keys (or_introl eq_refl) (or_introl eq_refl)
              eq_refl eq_refl eq_refl) as [Hc _].
  rewrite Hc. reflexivity.
Defined.

(** ** When Commit and Cancel succeed *)

Lemma live_rows_in ids now db :
  incl (map r_id (reserve_in_live ids now db)) ids.
Proof.
  intros x Hin. apply in_map_iff in Hin. destruct Hin as (r & <- & Hin).
  apply filter_In in Hin. destruct Hin as (_ & Hm).
  apply andb_true_iff in Hm. destruct Hm as (Hm & _).
  unfold mem_id in Hm. apply existsb_exists in Hm.
  destruct Hm as (y & Hy & E). apply Z.eqb_eq in E. subst. exact Hy.
Qed.

Lemma mem_id_In x xs : In x xs -> mem_id x xs = true.
Proof.
  intros H. unfold mem_id. apply existsb_exists. exists x.
  split; [exact H | apply Z.eqb_refl].
Qed.

Lemma live_count_iff ids now db :
  reserve_keys db ->
  (List.length ids <= List.length (reserve_in_live ids now db))%nat <->
  NoDup ids /\ all_live ids now db.
Proof.
  intros Hk.
  assert (Hnd : NoDup (map r_id (reserve_in_live ids now db)))
    by (apply NoDup_map_filter; exact Hk).
  rewrite <- (length_map r_id (reserve_in_live ids now db)). split.
  - intros Hlen. split.
    + apply (NoDup_incl_NoDup Hnd Hlen). apply live_rows_in.
    + intros id Hin.
      pose proof (NoDup_length_incl Hnd Hlen (live_rows_in ids now db) id Hin)
        as Hrow.
      apply in_map_iff in Hrow. destruct Hrow as (r & Hr & Hrow).
      apply filter_In in Hrow. destruct Hrow as (Hrow & Hm).
      apply andb_true_iff in Hm. destruct Hm as (_ & Hlive).
      apply Z.leb_le in Hlive. exists r. repeat split; assumption.
  - intros (Hids & Hall). apply NoDup_incl_length; [exact Hids|].
    intros id Hin. destruct (Hall id Hin) as (r & Hr & <- & Hlive).
    apply in_map. apply filter_In. split; [exact Hr|].
    rewrite (mem_id_In _ _ Hin). apply Z.leb_le in Hlive. rewrite Hlive.
    reflexivity.
Qed.

Lemma present_count_iff ids db :
  reserve_keys db ->
  (List.length ids <= List.length (reserve_in ids db))%nat <->
  NoDup ids /\ all_present ids db.
Proof.
  intros Hk.
  assert (Hnd : NoDup (map r_id (reserve_in ids db)))
    by (apply NoDup_map_filter; exact Hk).
  rewrite <- (length_map r_id (reserve_in ids db)). split.
  - intros Hlen. split.
    + apply (NoDup_incl_NoDup Hnd Hlen). apply (keyed_rows_in r_id).
    + intros id Hin.
      pose proof (NoDup_length_incl Hnd Hlen
                    (keyed_rows_in r_id ids (tbl_reserve db)) id Hin) as Hrow.
      apply in_map_iff in Hrow. destruct Hrow as (r & Hr & Hrow).
      apply filter_In in Hrow. exists r. split; [apply Hrow | exact Hr].
  - intros (Hids & Hall). apply NoDup_incl_length; [exact Hids|].
    intros id Hin. destruct (Hall id Hin) as (r & Hr & <-).
    apply in_map. apply filter_In. split; [exact Hr|].
    apply mem_id_In. exact Hin.
Qed.

Lemma Commit_succeeds env j db :
  healthy env -> sequential env -> reserve_keys db ->
  forallb Int64.in_range (reserve_ids j) = true -> reserve_ids j <> [] ->
  (List.length (reserve_ids j) <=
   List.length (reserve_in_live (reserve_ids j) (NOW env) db))%nat ->
  sums_fit (reserve_in (reserve_ids j) db) (NOW env) db ->
  resp (Commit env (POST j) db) = Success /\
  store (Commit env (POST j) db) =
  without_reserve (reserve_ids j)
    (applied_all (reserve_in (reserve_ids j) db) (NOW env) db).
Proof.
  intros (Hb & Hc & _ & Hs) Hseq Hk Hdec Hne Hge Hfit.
  assert (Hlen : List.length (reserve_in (reserve_ids j) db) =
                 List.length (reserve_ids j)).
  { apply Nat.le_antisymm; [apply (keyed_rows_bounded r_id); exact Hk|].
    eapply Nat.le_trans; [exact Hge | apply live_rows_bounded]. }
  assert (Htx : exists tr,
             txScorp (returning (commit_tx (reserve_ids j))) env db =
             (Ok tt,
              without_reserve (reserve_ids j)
                (applied_all (reserve_in (reserve_ids j) db) (NOW env) db),
              tr)).
  { unfold txScorp, returning.
    rewrite Hb, commit_tx_passes; cbn [begin working executed];
      try apply Hs; try rewrite Hseq; try assumption.
    unfold commit_apply, bind at 1, wrap at 1, select_users_for_update.
    rewrite stmt_run by apply Hs. cbn [fst snd].
    unfold bind at 1.
    match goal with |- context [for_each _ _ env ?st] =>
      destruct (for_each_modyfyCredit_run env Hs
                  (reserve_in (reserve_ids j) db) st)
        as (st' & Hrun & Hw & Hco);
        [cbn [after_stmt materialised working]; rewrite Hseq; exact Hfit|]
    end.
    rewrite Hrun. unfold wrap, delete_reserve.
    rewrite stmt_run by apply Hs. cbn [fst snd]. rewrite Hc.
    cbn [after_stmt working]. rewrite Hw.
    cbn [after_stmt materialised working]. rewrite Hseq.
    eexists. reflexivity. }
  destruct Htx as (tr & Htx).
  rewrite Commit_runs by assumption. rewrite Htx. split; reflexivity.
Qed.

(** X13.  With a store that answers and no other transaction in between,
    Commit succeeds exactly when the ids of the list are pairwise distinct,
    each names a reservation row that has not expired, and every ledger sum
    read back while the rows are applied fits [int64]. *)
Theorem Commit_succeeds_iff (env : Env) (j : json) (db : DB) :
  healthy env -> sequential env -> reserve_keys db ->
  forallb Int64.in_range (reserve_ids j) = true -> reserve_ids j <> [] ->
  (resp (Commit env (POST j) db) = Success <->
   NoDup (reserve_ids j) /\ all_live (reserve_ids j) (NOW env) db /\
   sums_fit (reserve_in (reserve_ids j) db) (NOW env) db).
Proof.
  intros He Hseq Hk Hdec Hne. split.
  - intros Hok. destruct (Commit_Success env j db Hok) as (st & Hrun & _).
    pose proof (commit_tx_fit _ _ _ _ _ Hrun) as Hfit.
    apply commit_tx_Ok in Hrun. cbn [begin working] in Hrun, Hfit.
    rewrite Hseq in Hfit. destruct Hrun as (Hge & _).
    apply (live_count_iff _ _ _ Hk) in Hge. destruct Hge as (Hnd & Hall).
    repeat split; assumption.
  - intros (Hnd & Hall & Hfit).
    apply (Commit_succeeds env j db He Hseq Hk Hdec Hne); [|exact Hfit].
    apply (live_count_iff _ _ _ Hk). split; assumption.
Qed.

Lemma Commit_succeeds_iff_witness :
  resp (Commit (calm 110) (POST (with_ids [1; 2])) pair_db) = Success <->
  NoDup [1; 2] /\ all_live [1; 2] 110 pair_db /\
  sums_fit (reserve_in [1; 2] pair_db) 110 pair_db.
Proof.
  apply (Commit_succeeds_iff (calm 110) (with_ids [1; 2]) pair_db
           (healthy_calm 110) (fun db => eq_refl) pair_reserve_keys eq_refl).
  discriminate.
Defined.

(** X14.  With a store that answers and no other transaction in between,
    Cancel succeeds exactly when the ids of the list are pairwise distinct
    and each names a reservation row, expired or not; it then deletes
    exactly the rows with these ids and leaves the ledger and the user rows
    as they were. *)
Theorem Cancel_succeeds_iff (env : Env) (j : json) (db : DB) :
  healthy env -> sequential env -> reserve_keys db ->
  forallb Int64.in_range (reserve_ids j) = true -> reserve_ids j <> [] ->
  (resp (Cancel env (POST j) db) = Success <->
   NoDup (reserve_ids j) /\ all_present (reserve_ids j) db) /\
  (resp (Cancel env (POST j) db) = Success ->
   store (Cancel env (POST j) db) = without_reserve (reserve_ids j) db).
Proof.
  intros He Hseq Hk Hdec Hne.
  assert (Hto : resp (Cancel env (POST j) db) = Success ->
                NoDup (reserve_ids j) /\ all_present (reserve_ids j) db).
  { intros Hok. destruct (Cancel_Success env j db Hok) as (st & Hrun & _).
    apply cancel_tx_Ok in Hrun. cbn [begin working] in Hrun.
    destruct Hrun as (Hge & _). apply (present_count_iff _ _ Hk). exact Hge. }
  split; [split; [exact Hto|]|].
  - intros (Hnd & Hall).
    apply (Cancel_existing_reply env j db He Hseq Hk Hdec Hne Hnd).
    intros id Hin. destruct (Hall id Hin) as (r & Hr & <-).
    apply in_map. exact Hr.
  - intros Hok. destruct (Hto Hok) as (Hnd & Hall).
    apply (Cancel_existing_reply env j db He Hseq Hk Hdec Hne Hnd).
    intros id Hin. destruct (Hall id Hin) as (r & Hr & <-).
    apply in_map. exact Hr.
Qed.

Lemma Cancel_succeeds_iff_witness :
  resp (Cancel (calm 300) (POST (with_ids [2])) pair_db) = Success <->
  NoDup [2] /\ all_present [2] pair_db.
Proof.
  apply (Cancel_succeeds_iff (calm 300) (with_ids [2]) pair_db
           (healthy_calm 300) (fun db => eq_refl) pair_reserve_keys eq_refl).
  discriminate.
Defined.

(** ** Reserve followed by Cancel or Commit *)

Lemma Error_not_admitted msg code : ~ admitted_reply (Error msg code).
Proof. intros (s & H). cbn in H. discriminate H. Qed.

Lemma no_write_not_admitted : ~ admitted_reply no_write.
Proof. intros (s & H). cbn in H. discriminate H. Qed.

Lemma reserve_tx_id userID price memo env st st' id :
  reserve_tx userID price memo env st = (Ok id, st') ->
  id = reserve_seq (working st).
Proof.
  unfold reserve_tx, select_user_for_update, insert_reserve, Now.
  intros H.
  apply bind_Ok in H. destruct H as (u1 & st1 & H1 & H).
  apply wrap_Ok, stmt_Ok in H1. destruct H1 as (_ & _ & ->).
  apply bind_Ok in H. destruct H as (now & st2 & H2 & H).
  inversion H2; subst now st2; clear H2.
  apply bind_Ok in H. destruct H as (u3 & st3 & H3 & H).
  apply solvency_check_Ok in H3.
  apply wrap_Ok, stmt_Ok in H. destruct H as (_ & Hid & _).
  cbn [fst snd after_stmt working] in *. rewrite H3 in Hid.
  inversion Hid. reflexivity.
Qed.

Lemma Reserve_admitted env j db :
  consistent db -> admitted_reply (resp (Reserve env (POST j) db)) ->
  exists u,
    find (fun v => (u_bank_id v =? bank_id j)%string) (tbl_user db) = Some u /\
    resp (Reserve env (POST j) db) = reserved_reply (reserve_seq db) /\
    store (Reserve env (POST j) db) =
    {| tbl_user := tbl_user db; tbl_credit := tbl_credit db;
       tbl_reserve := tbl_reserve db ++ [reserved_row env j (u_id u) db];
       user_seq := user_seq db; credit_seq := credit_seq db;
       reserve_seq := reserve_seq db + 1 |}.
Proof.
  intros Hc. unfold Reserve, POST, Decode_price. cbn [Method Body].
  replace ("POST" =? "POST")%string with true by reflexivity. cbn [negb].
  destruct (Int64.in_range (price j));
    [|intros H; exfalso; exact (Error_not_admitted _ _ H)].
  destruct (price j =? 0);
    [intros H; exfalso; exact (Error_not_admitted _ _ H)|].
  unfold filterBankID.
  destruct (bank_id j =? EmptyString)%string;
    [intros H; exfalso; exact (Error_not_admitted _ _ H)|].
  destruct (direct_fails env);
    [intros H; exfalso; exact (Error_not_admitted _ _ H)|].
  destruct (find _ (tbl_user db)) as [u|] eqn:Hf;
    [|intros H; exfalso; exact (Error_not_admitted _ _ H)].
  - pose proof (find_some _ _ Hf) as (Hin & _).
    pose proof (users_below _ Hc u Hin) as Hpos.
    destruct (u_id u <=? 0) eqn:E; [apply Z.leb_le in E; lia|].
    fold (memo_of (app_id j) (price j)).
    pose proof (txScorp_plain
                  (reserve_tx (u_id u) (price j)
                     (memo_of (app_id j) (price j))) env db
                  (keeps_reserve_tx _ _ _)) as H.
    destruct (txScorp
                (returning (reserve_tx (u_id u) (price j)
                              (memo_of (app_id j) (price j)))) env db)
      as [[[a|e] db'] tr].
    + destruct H as (st & Hrun & ->). intros _. exists u.
      split; [reflexivity|]. cbn [finish resp store fst].
      rewrite (reserve_tx_id _ _ _ _ _ _ _ Hrun).
      rewrite (reserve_tx_Ok _ _ _ _ _ _ _ Hrun).
      split; reflexivity.
    + destruct (is_CreditIsInsufficient e);
        intros Ha; exfalso; exact (Error_not_admitted _ _ Ha).
Qed.

Section FreshRow.
Variables (l : list reserve_row) (row : reserve_row).
Hypothesis Hold : forall r, In r l -> r_id r < r_id row.

Lemma fresh_row_selected :
  filter (fun r => mem_id (r_id r) [r_id row]) (l ++ [row]) = [row].
Proof.
  rewrite filter_app. cbn [filter mem_id existsb]. rewrite Z.eqb_refl.
  cbn [orb app]. replace (filter _ l) with (@nil reserve_row); [reflexivity|].
  symmetry. induction l as [|r l' IH]; [reflexivity|]. cbn [filter existsb].
  destruct (r_id r =? r_id row) eqn:E.
  - apply Z.eqb_eq in E. specialize (Hold r (or_introl eq_refl)). lia.
  - cbn [orb]. apply IH. intros x Hx. apply Hold. right. exact Hx.
Qed.

Lemma fresh_row_deleted :
  filter (fun r => negb (mem_id (r_id r) [r_id row])) (l ++ [row]) = l.
Proof.
  rewrite filter_app. cbn [filter mem_id existsb]. rewrite Z.eqb_refl.
  cbn [orb negb]. rewrite app_nil_r.
  induction l as [|r l' IH]; [reflexivity|]. cbn [filter existsb].
  destruct (r_id r =? r_id row) eqn:E.
  - apply Z.eqb_eq in E. specialize (Hold r (or_introl eq_refl)). lia.
  - cbn [orb negb]. f_equal. apply IH. intros x Hx. apply Hold. right.
    exact Hx.
Qed.
End FreshRow.

(** X15.  Reserve followed by Cancel is a round trip: when Reserve admits a
    request on a store that keeps the invariants, its answer carries the
    next id of the reserve table, and cancelling that id, on a store that
    answers and with no other transaction in between, succeeds and brings
    the three tables back to what they were before the Reserve. *)
Theorem Reserve_then_Cancel_restores (env env' : Env) (j j' : json) (db : DB) :
  consistent db -> admitted_reply (resp (Reserve env (POST j) db)) ->
  healthy env' -> sequential env' ->
  reserve_ids j' = [reserve_seq db] ->
  Int64.in_range (reserve_seq db) = true ->
  let mid := store (Reserve env (POST j) db) in
  resp (Reserve env (POST j) db) = reserved_reply (reserve_seq db) /\
  resp (Cancel env' (POST j') mid) = Success /\
  same_tables (store (Cancel env' (POST j') mid)) db.
Proof.
  intros Hc Hadm He Hseq Hids Hfit. cbv zeta.
  pose proof (Reserve_consistent env (POST j) db Hc) as Hc'.
  destruct (Reserve_admitted env j db Hc Hadm) as (u & _ & Hresp & Hst).
  split; [exact Hresp|]. rewrite Hst in *.
  set (mid := {| tbl_user := tbl_user db; tbl_credit := tbl_credit db;
                 tbl_reserve := tbl_reserve db ++
                                [reserved_row env j (u_id u) db];
                 user_seq := user_seq db; credit_seq := credit_seq db;
                 reserve_seq := reserve_seq db + 1 |}) in *.
  destruct (Cancel_existing_reply env' j' mid He Hseq (reserves_unique _ Hc'))
    as (Hok & Hstore).
  - rewrite Hids. cbn [forallb]. rewrite Hfit. reflexivity.
  - rewrite Hids. discriminate.
  - rewrite Hids. repeat constructor. intros [].
  - rewrite Hids. intros id [<-|[]]. unfold mid. cbn [tbl_reserve].
    rewrite map_app. apply in_or_app. right. left. reflexivity.
  - split; [exact Hok|]. rewrite Hstore, Hids.
    unfold same_tables, without_reserve, mid.
    cbn [tbl_user tbl_credit tbl_reserve].
    split; [reflexivity|]. split; [reflexivity|].
    apply (fresh_row_deleted (tbl_reserve db) (reserved_row env j (u_id u) db)).
    intros r Hr. cbn [reserved_row r_id]. apply (reserves_numbered _ Hc r Hr).
Qed.

Lemma funded_consistent : consistent funded_db.
Proof.
  apply reachable_consistent. unfold funded_db. apply reachable_replay.
  apply reach_empty.
Qed.

Lemma Reserve_then_Cancel_restores_witness :
  admitted_reply
    (resp (Reserve (calm 150) (POST (with_bank "a" (-400))) funded_db)) /\
  same_tables
    (store (Cancel (calm 151) (POST (with_ids [reserve_seq funded_db]))
              (store (Reserve (calm 150) (POST (with_bank "a" (-400)))
                        funded_db))))
    funded_db.
Proof.
  assert (Hadm : admitted_reply
                   (resp (Reserve (calm 150) (POST (with_bank "a" (-400)))
                            funded_db))).
  { eexists. reflexivity. }
  split; [exact Hadm|].
  apply (Reserve_then_Cancel_restores (calm 150) (calm 151)
           (with_bank "a" (-400)) (with_ids [reserve_seq funded_db]) funded_db
           funded_consistent Hadm (healthy_calm 151) (fun db => eq_refl)
           eq_refl eq_refl).
Defined.

(** X16.  Reserve followed by Commit settles the amount: when Reserve
    admits a request of an existing user on a store that keeps the
    invariants, committing the id it answered, before the reservation
    expires, on a store that answers and with no other transaction in
    between, succeeds provided the user's ledger sum plus the amount fits
    [int64]; the ledger then ends with one entry carrying the user, the
    amount and the note "app:<app_id>, price:<amount>", the reserve table is
    back to what it was, and the user's cached credit is the ledger sum plus
    the amount. *)
Theorem Reserve_then_Commit_settles (env env' : Env) (j j' : json) (db : DB)
    (u : user_row) :
  consistent db -> existing_user db (bank_id j) u ->
  admitted_reply (resp (Reserve env (POST j) db)) ->
  healthy env' -> sequential env' ->
  reserve_ids j' = [reserve_seq db] ->
  Int64.in_range (reserve_seq db) = true ->
  NOW env' <= Format (time_Now env) + 60 ->
  Int64.in_range (sum_credit db (u_id u) + price j) = true ->
  let mid := store (Reserve env (POST j) db) in
  let out := Commit env' (POST j') mid in
  resp out = Success /\
  tbl_credit (store out) =
    tbl_credit db ++
      [ {| c_id := credit_seq db; c_user_id := u_id u; c_amount := price j;
           c_note := memo_of (app_id j) (price j);
           c_created_at := NOW env' |} ] /\
  tbl_reserve (store out) = tbl_reserve db /\
  tbl_user (store out) =
    map (set_credit (sum_credit db (u_id u) + price j) (u_id u)) (tbl_user db).
Proof.
  intros Hc Hu Hadm He Hseq Hids Hfit Hlive Htot. cbv zeta.
  pose proof (Reserve_consistent env (POST j) db Hc) as Hc'.
  destruct (Reserve_admitted env j db Hc Hadm) as (u' & Hf & _ & Hst).
  destruct Hu as (_ & Hf' & _). rewrite Hf' in Hf. inversion Hf; subst u'.
  rewrite Hst in *.
  set (row := reserved_row env j (u_id u) db) in *.
  set (mid := {| tbl_user := tbl_user db; tbl_credit := tbl_credit db;
                 tbl_reserve := tbl_reserve db ++ [row];
                 user_seq := user_seq db; credit_seq := credit_seq db;
                 reserve_seq := reserve_seq db + 1 |}) in *.
  assert (Hold : forall r, In r (tbl_reserve db) -> r_id r < r_id row).
  { intros r Hr. apply (reserves_numbered _ Hc r Hr). }
  assert (Hrows : reserve_in (reserve_ids j') mid = [row]).
  { rewrite Hids. unfold reserve_in, mid. cbn [tbl_reserve].
    apply (fresh_row_selected (tbl_reserve db) row Hold). }
  destruct (Commit_succeeds env' j' mid He Hseq (reserves_unique _ Hc'))
    as (Hok & Hstore).
  - rewrite Hids. cbn [forallb]. rewrite Hfit. reflexivity.
  - rewrite Hids. discriminate.
  - apply (live_count_iff _ _ _ (reserves_unique _ Hc')). rewrite Hids. split.
    + repeat constructor. intros [].
    + intros id [<-|[]]. exists row. split.
      * unfold mid. cbn [tbl_reserve]. apply in_or_app. right. left.
        reflexivity.
      * split; [reflexivity|]. unfold row. cbn [reserved_row r_expire_at].
        rewrite Format_Add_Minute. exact Hlive.
  - rewrite Hrows. cbn [sums_fit]. split; [|exact I].
    rewrite sum_credit_with_credit_same.
    rewrite (sum_credit_same_ledger mid db) by reflexivity. exact Htot.
  - split; [exact Hok|]. rewrite Hstore, Hrows, Hids.
    cbn [applied_all fold_left]. unfold applied, without_reserve.
    cbn [with_user_credit with_credit tbl_user tbl_credit tbl_reserve].
    split; [reflexivity|]. split.
    + apply (fresh_row_deleted (tbl_reserve db) row Hold).
    + rewrite sum_credit_with_credit_same.
      rewrite (sum_credit_same_ledger mid db) by reflexivity. reflexivity.
Qed.

Lemma Reserve_then_Commit_settles_witness :
  admitted_reply
    (resp (Reserve (calm 150) (POST (with_bank "a" (-400))) funded_db)) /\
  map u_credit
    (tbl_user
       (store (Commit (calm 151) (POST (with_ids [reserve_seq funded_db]))
                 (store (Reserve (calm 150) (POST (with_bank "a" (-400)))
                           funded_db))))) = [600].
Proof.
  assert (Hadm : admitted_reply
                   (resp (Reserve (calm 150) (POST (with_bank "a" (-400)))
                            funded_db))).
  { eexists. reflexivity. }
  split; [exact Hadm|].
  pose proof (Reserve_then_Commit_settles (calm 150) (calm 151)
                (with_bank "a" (-400)) (with_ids [reserve_seq funded_db])
                funded_db funded_user funded_consistent funded_user_exists
                Hadm (healthy_calm 151) (fun db => eq_refl) eq_refl eq_refl
                ltac:(vm_compute; discriminate) eq_refl) as H.
  cbv zeta in H. destruct H as (_ & _ & _ & H). rewrite H. reflexivity.
Defined.

(** ** Requests that are turned down *)

Lemma plain_failure_keeps {A} (m : Tx A) env db (ok : A -> response)
    (ko : error -> response) :
  keeps_committed m ->
  (forall a, ok a = Success \/ admitted_reply (ok a)) ->
  let out := txScorp (returning m) env db in
  let res := match fst (fst out) with
             | Fail e => finish (ko e) (snd (fst out), snd out)
             | Ok a => finish (ok a) (snd (fst out), snd out)
             end in
  resp res <> Success -> ~ admitted_reply (resp res) ->
  same_tables (store res) db.
Proof.
  intros Hk Hok. cbv zeta.
  pose proof (txScorp_plain m env db Hk) as H.
  destruct (txScorp (returning m) env db) as [[[a|e] db'] tr];
    cbn [fst snd finish resp store].
  - intros Hs Ha. exfalso. destruct (Hok a) as [E|E]; [apply Hs|apply Ha];
      exact E.
  - intros _ _. exact H.
Qed.

Lemma terminal_failure_moves (m : Tx unit) env db :
  moves_committed m ->
  let out := txScorp (returning m) env db in
  let res := terminal_reply (fst (fst out)) (snd (fst out), snd out) in
  resp res <> Success ->
  same_tables (store res) db \/ same_tables (store res) (concurrent env db).
Proof.
  intros Hm. cbv zeta.
  pose proof (txScorp_returning m env db Hm) as H.
  destruct (txScorp (returning m) env db) as [[err db'] tr].
  cbn [fst snd]. rewrite terminal_reply_store. destruct err as [u|e].
  - intros Hne. exfalso. apply Hne. reflexivity.
  - intros _. exact H.
Qed.

(** X17.  A request that is turned down changes no table.  On each of the
    six routes, whatever the store does (statements, BEGIN or COMMIT may
    fail), a request answered with anything but the success body or a
    reserve id leaves the user rows, the ledger and the reserve table as
    they were.  On register, add_credit, check and reserve this holds
    outright; on commit and cancel the tables may instead be those another
    transaction committed between the count and the locking read, and they
    are the old ones when no other transaction commits. *)
Theorem rejected_request_changes_nothing (rt : route) (env : Env)
    (r : request) (db : DB) :
  resp (serve rt env r db) <> Success ->
  ~ admitted_reply (resp (serve rt env r db)) ->
  (rt <> commit -> rt <> cancel -> same_tables (store (serve rt env r db)) db)
  /\
  (same_tables (store (serve rt env r db)) db \/
   same_tables (store (serve rt env r db)) (concurrent env db)) /\
  (sequential env -> same_tables (store (serve rt env r db)) db).
Proof.
  intros Hs Ha.
  assert (G : (rt <> commit -> rt <> cancel ->
               same_tables (store (serve rt env r db)) db) /\
              (same_tables (store (serve rt env r db)) db \/
               same_tables (store (serve rt env r db)) (concurrent env db))).
  { assert (P : forall out : served,
               same_tables (store out) db ->
               (rt <> commit -> rt <> cancel -> same_tables (store out) db) /\
               (same_tables (store out) db \/
                same_tables (store out) (concurrent env db))).
    { intros out H. split; [intros _ _; exact H | left; exact H]. }
    assert (Q : forall out : served,
               rt = commit \/ rt = cancel ->
               same_tables (store out) db \/
               same_tables (store out) (concurrent env db) ->
               (rt <> commit -> rt <> cancel -> same_tables (store out) db) /\
               (same_tables (store out) db \/
                same_tables (store out) (concurrent env db))).
    { intros out [E|E] H; (split; [intros H1 H2; contradiction | exact H]). }
    revert Hs Ha. destruct rt; cbn [serve].
    - (* register *)
      unfold Register.
      destruct (negb (Method r =? "POST")%string);
        [intros _ _; apply P, same_tables_refl|].
      destruct (Body r) as [req|]; [|intros _ _; apply P, same_tables_refl].
      destruct (bank_id req =? EmptyString)%string;
        [intros _ _; apply P, same_tables_refl|].
      unfold insert_user. destruct (direct_fails env);
        [intros _ _; apply P, same_tables_refl|].
      destruct (existsb _ (tbl_user db)).
      + intros _ _. apply P. repeat split.
      + cbn [reject resp]. intros Hs _. exfalso. apply Hs. reflexivity.
    - (* add_credit *)
      unfold AddCredit.
      destruct (negb (Method r =? "POST")%string);
        [intros _ _; apply P, same_tables_refl|].
      destruct (Decode_price r) as [req|];
        [|intros _ _; apply P, same_tables_refl].
      destruct (price req <=? 0); [intros _ _; apply P, same_tables_refl|].
      destruct (filterBankID env db (bank_id req)) as [userID w].
      destruct (userID <=? 0); [intros _ _; apply P, same_tables_refl|].
      intros Hs Ha. apply P.
      pose proof (plain_failure_keeps (add_credit_tx userID (price req)) env db
                    (fun _ => Success)
                    (fun _ => Error "internal server error" 500)
                    (keeps_add_credit_tx _ _) (fun _ => or_introl eq_refl))
        as H.
      cbv zeta in H.
      destruct (txScorp (returning (add_credit_tx userID (price req))) env db)
        as [[[a|e] db'] tr]; cbn [fst snd] in H; apply H; assumption.
    - (* check *)
      unfold Check.
      destruct (negb (Method r =? "POST")%string);
        [intros _ _; apply P, same_tables_refl|].
      destruct (Decode_price r) as [req|];
        [|intros _ _; apply P, same_tables_refl].
      destruct (price req <=? 0); [intros _ _; apply P, same_tables_refl|].
      destruct (filterBankID env db (bank_id req)) as [userID w].
      destruct (userID <=? 0); [intros _ _; apply P, same_tables_refl|].
      intros Hs Ha. apply P.
      pose proof (plain_failure_keeps (check_tx userID (price req)) env db
                    (fun _ => Success)
                    (fun e => if is_CreditIsInsufficient e
                              then Error "credit is insufficient" 200
                              else Error "internal server error" 500)
                    (keeps_check_tx _ _) (fun _ => or_introl eq_refl))
        as H.
      cbv zeta in H.
      destruct (txScorp (returning (check_tx userID (price req))) env db)
        as [[[a|e] db'] tr]; cbn [fst snd] in H.
      + apply H; assumption.
      + destruct (is_CreditIsInsufficient e); apply H; assumption.
    - (* reserve *)
      unfold Reserve.
      destruct (negb (Method r =? "POST")%string);
        [intros _ _; apply P, same_tables_refl|].
      destruct (Decode_price r) as [req|];
        [|intros _ _; apply P, same_tables_refl].
      destruct (price req =? 0); [intros _ _; apply P, same_tables_refl|].
      destruct (filterBankID env db (bank_id req)) as [userID w].
      destruct (userID <=? 0); [intros _ _; apply P, same_tables_refl|].
      cbv zeta. intros Hs Ha. apply P.
      set (memo := ("app:" ++ app_id req ++ ", price:" ++
                    Sprintf_d (price req))%string) in *.
      pose proof (plain_failure_keeps (reserve_tx userID (price req) memo)
                    env db
                    (fun rsvID =>
                       {| status := 200;
                          body := Fprintln (ResReserved (Sprintf_d rsvID)) |})
                    (fun e => if is_CreditIsInsufficient e
                              then Error "credit is insufficient" 200
                              else Error "internal server error" 500)
                    (keeps_reserve_tx _ _ _)
                    (fun a => or_intror (ex_intro _ _ eq_refl)))
        as H.
      cbv zeta in H.
      destruct (txScorp (returning (reserve_tx userID (price req) memo)) env db)
        as [[[a|e] db'] tr]; cbn [fst snd] in H.
      + apply H; assumption.
      + destruct (is_CreditIsInsufficient e); apply H; assumption.
    - (* commit *)
      unfold Commit.
      destruct (negb (Method r =? "POST")%string);
        [intros _ _; apply P, same_tables_refl|].
      destruct (Decode_ids r) as [req|];
        [|intros _ _; apply P, same_tables_refl].
      destruct (List.length (reserve_ids req) =? 0)%nat;
        [intros _ _; apply P, same_tables_refl|].
      intros Hs _. apply Q; [left; reflexivity|].
      pose proof (terminal_failure_moves (commit_tx (reserve_ids req)) env db
                    (moves_commit_tx _)) as H.
      cbv zeta in H.
      destruct (txScorp (returning (commit_tx (reserve_ids req))) env db)
        as [[err db'] tr]; cbn [fst snd] in H. apply H. exact Hs.
    - (* cancel *)
      unfold Cancel.
      destruct (negb (Method r =? "POST")%string);
        [intros _ _; apply P, same_tables_refl|].
      destruct (Decode_ids r) as [req|];
        [|intros _ _; apply P, same_tables_refl].
      destruct (List.length (reserve_ids req) =? 0)%nat;
        [intros _ _; apply P, same_tables_refl|].
      intros Hs _. apply Q; [right; reflexivity|].
      pose proof (terminal_failure_moves (cancel_tx (reserve_ids req)) env db
                    (moves_cancel_tx _)) as H.
      cbv zeta in H.
      destruct (txScorp (returning (cancel_tx (reserve_ids req))) env db)
        as [[err db'] tr]; cbn [fst snd] in H. apply H. exact Hs. }
  destruct G as (G1 & G2). split; [exact G1|]. split; [exact G2|].
  intros Hseq. rewrite Hseq in G2. destruct G2; assumption.
Qed.

Lemma rejected_request_changes_nothing_witness :
  resp (serve reserve (calm 150) (POST (with_bank "a" (-5000))) funded_db) =
    Error "credit is insufficient" 200 /\
  same_tables
    (store (serve reserve (calm 150) (POST (with_bank "a" (-5000))) funded_db))
    funded_db.
Proof.
  assert (E : resp (serve reserve (calm 150) (POST (with_bank "a" (-5000)))
                      funded_db) = Error "credit is insufficient" 200).
  { vm_compute. reflexivity. }
  split; [exact E|].
  assert (Hs : resp (serve reserve (calm 150) (POST (with_bank "a" (-5000)))
                       funded_db) <> Success).
  { rewrite E. intros H. vm_compute in H. discriminate H. }
  assert (Ha : ~ admitted_reply
                 (resp (serve reserve (calm 150)
                          (POST (with_bank "a" (-5000))) funded_db))).
  { rewrite E. apply Error_not_admitted. }
  assert (H1 : reserve <> commit) by (intros H; discriminate H).
  assert (H2 : reserve <> cancel) by (intros H; discriminate H).
  exact (proj1 (rejected_request_changes_nothing reserve (calm 150)
                  (POST (with_bank "a" (-5000))) funded_db Hs Ha) H1 H2).
Defined.

(** ** Internal errors *)

Lemma check_tx_healthy env db u p :
  healthy env -> In u (tbl_user db) ->
  exists v tr,
    txScorp (returning (check_tx (u_id u) p)) env db =
    (if u_credit v <? p then Fail CreditIsInsufficient else Ok tt, db, tr).
Proof.
  intros (Hb & Hc & _ & Hs) Hin. unfold txScorp, returning. rewrite Hb.
  unfold check_tx, bind, wrap, select_credit_for_update.
  rewrite stmt_run by apply Hs. cbn [fst snd begin working].
  assert (Hf : In u (filter (fun v => u_id v =? u_id u) (tbl_user db))).
  { apply filter_In. split; [exact Hin | apply Z.eqb_refl]. }
  destruct (filter (fun v => u_id v =? u_id u) (tbl_user db)) as [|v rest];
    [contradiction|].
  cbn [firstn]. exists v. unfold ret, fail.
  destruct (u_credit v <? p).
  - eexists. unfold rollback. cbn. destruct db. reflexivity.
  - rewrite Hc. eexists. cbn. reflexivity.
Qed.

Lemma cancel_tx_healthy env db ids :
  healthy env ->
  exists db' tr,
    txScorp (returning (cancel_tx ids)) env db =
      (Fail ReserveIsAlreadyCommited, db', tr) \/
    txScorp (returning (cancel_tx ids)) env db = (Ok tt, db', tr).
Proof.
  intros (Hb & Hc & _ & Hs). unfold txScorp, returning. rewrite Hb.
  unfold cancel_tx, bind, wrap, select_count_reserve, interleave,
    select_reserve_for_update, select_users_for_update, delete_reserve.
  rewrite stmt_run by apply Hs. cbn [fst snd begin working].
  destruct (List.length (reserve_in ids db) <? List.length ids)%nat.
  - unfold fail. do 2 eexists. left. reflexivity.
  - rewrite stmt_run by apply Hs. cbn [fst snd working after_stmt].
    destruct (negb (List.length
                      (map scan_cancel (reserve_in ids (concurrent env db))) =?
                    List.length ids)%nat).
    + unfold fail. do 2 eexists. left. reflexivity.
    + rewrite stmt_run by apply Hs. cbn [fst snd working after_stmt].
      rewrite stmt_run by apply Hs. cbn [fst snd working after_stmt].
      rewrite Hc. do 2 eexists. right. reflexivity.
Qed.

(** X18.  A store that answers never makes register, check or cancel reply
    with HTTP 500: when BEGIN, COMMIT and every statement go through,
    whatever the request, the tables, and what other transactions commit in
    between, these three routes answer with another status; none of their
    statements can fail on its own. *)
Theorem healthy_store_no_internal_error (rt : route) (env : Env) (r : request)
    (db : DB) :
  healthy env -> rt = register \/ rt = check \/ rt = cancel ->
  status (resp (serve rt env r db)) <> 500.
Proof.
  intros He Hrt. pose proof He as (Hb & Hc & Hd & Hs).
  destruct Hrt as [->|[->| ->]]; cbn [serve].
  - unfold Register, insert_user.
    destruct (negb (Method r =? "POST")%string); [cbn; discriminate|].
    destruct (Body r) as [req|]; [|cbn; discriminate].
    destruct (bank_id req =? EmptyString)%string; [cbn; discriminate|].
    rewrite Hd. destruct (existsb _ (tbl_user db)); cbn; discriminate.
  - unfold Check.
    destruct (negb (Method r =? "POST")%string); [cbn; discriminate|].
    destruct (Decode_price r) as [req|]; [|cbn; discriminate].
    destruct (price req <=? 0); [cbn; discriminate|].
    unfold filterBankID.
    destruct (bank_id req =? EmptyString)%string; [cbn; discriminate|].
    rewrite Hd.
    destruct (find _ (tbl_user db)) as [u|] eqn:Ef; [|cbn; discriminate].
    destruct (u_id u <=? 0); [cbn; discriminate|].
    apply find_some in Ef. destruct Ef as (Hin & _).
    destruct (check_tx_healthy env db u (price req) He Hin) as (v & tr & E).
    rewrite E. destruct (u_credit v <? price req); cbn; discriminate.
  - unfold Cancel.
    destruct (negb (Method r =? "POST")%string); [cbn; discriminate|].
    destruct (Decode_ids r) as [req|]; [|cbn; discriminate].
    destruct (List.length (reserve_ids req) =? 0)%nat; [cbn; discriminate|].
    destruct (cancel_tx_healthy env db (reserve_ids req) He)
      as (db' & tr & [E|E]); rewrite E; cbn; discriminate.
Qed.

Lemma healthy_store_no_internal_error_witness :
  healthy (calm 150) /\
  status (resp (serve cancel (calm 150) (POST (with_ids [7])) funded_db))
    <> 500.
Proof.
  split; [apply healthy_calm|].
  apply (healthy_store_no_internal_error cancel (calm 150)
           (POST (with_ids [7])) funded_db (healthy_calm 150)
           (or_intror (or_intror eq_refl))).
Defined.

(** ** The method check *)

Lemma written_status env db bank :
  status (written (snd (filterBankID env db bank))) <> 405.
Proof.
  unfold filterBankID. destruct (bank =? EmptyString)%string;
    [cbn; discriminate|].
  destruct (direct_fails env); [cbn; discriminate|].
  destruct (find _ (tbl_user db)); cbn; discriminate.
Qed.

Lemma terminal_reply_status err out :
  status (resp (terminal_reply err out)) <> 405.
Proof.
  destruct err as [u|e]; cbn; [discriminate|].
  destruct (is_ReserveIsExpires e || is_ReserveIsAlreadyCommited e); cbn;
    discriminate.
Qed.

Lemma POST_allowed rt env r db :
  (Method r =? "POST")%string = true ->
  status (resp (serve rt env r db)) <> 405.
Proof.
  intros Em. destruct rt; cbn [serve].
  - unfold Register. rewrite Em. cbn [negb].
    destruct (Body r) as [req|]; [|cbn; discriminate].
    destruct (bank_id req =? EmptyString)%string; [cbn; discriminate|].
    unfold insert_user. destruct (direct_fails env); [cbn; discriminate|].
    destruct (existsb _ (tbl_user db)); cbn; discriminate.
  - unfold AddCredit. rewrite Em. cbn [negb].
    destruct (Decode_price r) as [req|]; [|cbn; discriminate].
    destruct (price req <=? 0); [cbn; discriminate|].
    pose proof (written_status env db (bank_id req)) as Hw.
    destruct (filterBankID env db (bank_id req)) as [userID w].
    destruct (userID <=? 0); [exact Hw|].
    destruct (txScorp _ env db) as [[[a|e] db'] tr]; cbn; discriminate.
  - unfold Check. rewrite Em. cbn [negb].
    destruct (Decode_price r) as [req|]; [|cbn; discriminate].
    destruct (price req <=? 0); [cbn; discriminate|].
    pose proof (written_status env db (bank_id req)) as Hw.
    destruct (filterBankID env db (bank_id req)) as [userID w].
    destruct (userID <=? 0); [exact Hw|].
    destruct (txScorp _ env db) as [[[a|e] db'] tr]; [cbn; discriminate|].
    destruct (is_CreditIsInsufficient e); cbn; discriminate.
  - unfold Reserve. rewrite Em. cbn [negb].
    destruct (Decode_price r) as [req|]; [|cbn; discriminate].
    destruct (price req =? 0); [cbn; discriminate|].
    pose proof (written_status env db (bank_id req)) as Hw.
    destruct (filterBankID env db (bank_id req)) as [userID w].
    destruct (userID <=? 0); [exact Hw|].
    cbv zeta.
    destruct (txScorp _ env db) as [[[a|e] db'] tr]; [cbn; discriminate|].
    destruct (is_CreditIsInsufficient e); cbn; discriminate.
  - unfold Commit. rewrite Em. cbn [negb].
    destruct (Decode_ids r) as [req|]; [|cbn; discriminate].
    destruct (List.length (reserve_ids req) =? 0)%nat; [cbn; discriminate|].
    destruct (txScorp _ env db) as [[err db'] tr].
    apply terminal_reply_status.
  - unfold Cancel. rewrite Em. cbn [negb].
    destruct (Decode_ids r) as [req|]; [|cbn; discriminate].
    destruct (List.length (reserve_ids req) =? 0)%nat; [cbn; discriminate|].
    destruct (txScorp _ env db) as [[err db'] tr].
    apply terminal_reply_status.
Qed.

(** X19.  The method check comes first and is the only source of HTTP 405:
    on each of the six routes the response has status 405 exactly when the
    method is not POST, and such a request is answered "method not allowed"
    with the store handed back untouched, counters included, and no
    statement sent. *)
Theorem method_not_allowed_iff (rt : route) (env : Env) (r : request)
    (db : DB) :
  (status (resp (serve rt env r db)) = 405 <-> Method r <> "POST"%string) /\
  (Method r <> "POST"%string ->
   serve rt env r db = reject (Error "method not allowed" 405) db).
Proof.
  assert (G : Method r <> "POST"%string ->
              serve rt env r db = reject (Error "method not allowed" 405) db).
  { intros Hm. apply String.eqb_neq in Hm.
    destruct rt; cbn [serve];
      unfold Register, AddCredit, Check, Reserve, Commit, Cancel;
      rewrite Hm; reflexivity. }
  split; [|exact G]. split.
  - intros H Hm. apply (POST_allowed rt env r db); [|exact H].
    apply String.eqb_eq. exact Hm.
  - intros Hm. rewrite (G Hm). reflexivity.
Qed.

Lemma method_not_allowed_iff_witness :
  serve check (calm 150) {| Method := "GET"; Body := None |} funded_db =
  reject (Error "method not allowed" 405) funded_db.
Proof.
  apply (method_not_allowed_iff check (calm 150)
           {| Method := "GET"; Body := None |} funded_db).
  intros H. discriminate H.
Defined.
